(** * flaggie: the classification caches and the package.* record store

    A shallow embedding of [lib/flaggie/cache.py] and
    [lib/flaggie/packagefile.py], and the properties of the two modules
    that their specification states.

    Conventions.
    - Text is [string] over the code points below 256, a character of
      the alphabet standing for the code point of its number; the code
      points from 256 on are outside the model.
    - Python objects that are mutated through references (the line
      objects of a [PackageFile]) live in a heap indexed by locations;
      a [PackageFile] holds locations, as the Python [list] holds
      references.
    - Exceptions are values of [exn]; a method is a function from the
      state to an outcome and the state at which the method stopped. *)

From Stdlib Require Import Ascii String.
From stdpp Require Import gmap strings list fin_maps sorting.

Open Scope string_scope.
Open Scope list_scope.
Open Scope nat_scope.

(** * Python primitives used by both modules *)

Module Py.

(** The exceptions the two modules raise or let escape. *)
Inductive exn : Type :=
| InvalidPackageEntry
| ValueError
| AttributeError
| IndexError
| IOError
| UnicodeDecodeError.

Inductive Result (A : Type) : Type :=
| Ok (a : A)
| Raise (e : exn).
Arguments Ok {A} a.
Arguments Raise {A} e.

Definition is_Ok {A} (r : Result A) : bool :=
  match r with Ok _ => true | Raise _ => false end.

(** [str.isspace] on a code point below 256: TAB, LF, VT, FF, CR, the
    four separators 0x1c-0x1f, the space, NEL (0x85) and the no-break
    space (0xa0). *)
Definition isspace (c : ascii) : bool :=
  let n := nat_of_ascii c in
  ((9 <=? n) && (n <=? 13)) || ((28 <=? n) && (n <=? 31)) || (n =? 32)
  || (n =? 133) || (n =? 160).

(** [str.split()] without argument: the maximal runs of characters that
    are not white space.  [cur] is the run being read. *)
Fixpoint split_from (cur : string) (s : string) : list string :=
  match s with
  | EmptyString => if String.eqb cur "" then [] else [cur]
  | String c s' =>
      if isspace c
      then (if String.eqb cur "" then split_from "" s'
            else cur :: split_from "" s')
      else split_from (cur +:+ String c "") s'
  end.

Definition split (s : string) : list string := split_from "" s.

(** [s.startswith(p)]. *)
Definition startswith (p s : string) : bool := String.prefix p s.

(** [sep.join(l)]. *)
Definition join (sep : string) (l : list string) : string :=
  String.concat sep l.

(** The line boundaries of [str.splitlines] among the code points below
    256: LF, VT, FF, CR (CR LF counts as one boundary), FS, GS, RS and
    NEL (0x85). *)
Definition islinebreak (c : ascii) : bool :=
  let n := nat_of_ascii c in
  ((10 <=? n) && (n <=? 13)) || ((28 <=? n) && (n <=? 30)) || (n =? 133).

Definition CR : ascii := ascii_of_nat 13.
Definition LF : ascii := ascii_of_nat 10.

(** Iterating over a file opened with [codecs.open] yields
    [text.splitlines(keepends=True)]: every line keeps its terminator, and
    a last line without terminator is yielded as it is. *)
Fixpoint lines_from (cur : string) (s : string) : list string :=
  match s with
  | EmptyString => if String.eqb cur "" then [] else [cur]
  | String c s' =>
      if Ascii.eqb c CR then
        match s' with
        | String c' s'' =>
            if Ascii.eqb c' LF
            then (cur +:+ String c (String c' "")) :: lines_from "" s''
            else (cur +:+ String c "") :: lines_from "" s'
        | EmptyString => [cur +:+ String c ""]
        end
      else if islinebreak c then (cur +:+ String c "") :: lines_from "" s'
      else lines_from (cur +:+ String c "") s'
  end.

Definition readlines (text : string) : list string := lines_from "" text.

(** The concatenation of the strings of a list, as successive [f.write]
    calls produce it. *)
Definition concat_text (l : list string) : string :=
  foldr String.append "" l.

(** A stable sort that only uses [<], as [list.sort] and [sorted] do:
    [x], which stood before every element of [l], is put before the first
    element that is not smaller than it. *)
Section StableSort.
Context {A : Type} (lt : A -> A -> bool).

Fixpoint insert_sorted (x : A) (l : list A) : list A :=
  match l with
  | [] => [x]
  | y :: l' => if lt y x then y :: insert_sorted x l' else x :: y :: l'
  end.

Fixpoint stable_sort (l : list A) : list A :=
  match l with
  | [] => []
  | x :: l' => insert_sorted x (stable_sort l')
  end.
End StableSort.

(** The order of [list.sort] when [<] compares a string attribute of the
    elements, and the order it leaves the list in. *)
Definition key_lt {A} (key : A -> string) (a b : A) : bool :=
  String.ltb (key a) (key b).

Definition key_le {A} (key : A -> string) (a b : A) : Prop :=
  String.leb (key a) (key b) = true.

(** [list.remove(x)] on a list of references, [eqx y] being [y == x]: the
    first element equal to [x] goes; [None] stands for the [ValueError] of
    a list without such an element. *)
Fixpoint list_remove (eqx : nat -> bool) (l : list nat)
  : option (list nat) :=
  match l with
  | [] => None
  | y :: l' =>
      if eqx y then Some l'
      else match list_remove eqx l' with
           | Some r => Some (y :: r)
           | None => None
           end
  end.

(** [os.path.join(a, b)] for a relative [b]. *)
Definition endswith_slash (a : string) : bool :=
  match String.get (String.length a - 1) a with
  | Some c => Ascii.eqb c "/"%char
  | None => false
  end.

Definition path_join (a b : string) : string :=
  if String.eqb a "" then b
  else if endswith_slash a then a +:+ b
  else a +:+ "/" +:+ b.

End Py.

(** * cache.py: the namespace caches *)

Module Cache.
Import Py.

(** The collaborators of portage the caches call: [dbapi.xmatch] with the
    ['match-all'] level, [dbapi.aux_get] for one key, [dbapi.porttrees],
    [portage.versions.best] and [portage.util.grabfile]. *)
Record Portage : Type := {
  xmatch_all : string -> list string;
  aux_get : string -> string -> string;
  best : list string -> string;
  porttrees : list string;
  grabfile : string -> list string
}.

(** One call of a cache into the catalog. *)
Inductive call : Type :=
| XMatch (k : string)
| AuxGet (cpv key : string)
| Best (pkgs : list string)
| Scan.

(** What a subclass of [DBAPICache] overrides: the class attribute
    [aux_key], the hook [_aux_parse], and the scan its [glob] property
    runs when the global set is not cached yet. *)
Record CacheClass : Type := {
  aux_key : string;
  _aux_parse : string -> list string;
  glob_scan : Portage -> gset string
}.

(** The instance: the two dictionaries.  The key [None] of [cache] holds
    the global set, [Some k] the set of the package expression [k].
    [queries] is a ghost field: the catalog calls made so far, the latest
    first. *)
Record DBAPICache : Type := {
  cache : gmap (option string) (gset string);
  effective_cache : gmap string (gset string);
  queries : list call
}.

(** [DBAPICache.__init__] *)
Definition DBAPICache_init : DBAPICache :=
  {| cache := ∅; effective_cache := ∅; queries := [] |}.

Section Methods.
Variable cls : CacheClass.

(** The loop of [__getitem__]: [flags.update(...)] for every match. *)
Definition all_flags (db : Portage) (pkgs : list string) : gset string :=
  foldl (fun flags p =>
           flags ∪ list_to_set (_aux_parse cls (aux_get db p (aux_key cls))))
        ∅ pkgs.

(** [DBAPICache.__getitem__] *)
Definition getitem (db : Portage) (k : string) (self : DBAPICache)
  : gset string * DBAPICache :=
  match cache self !! Some k with
  | Some v => (v, self)
  | None =>
      let pkgs := xmatch_all db k in
      let flags := all_flags db pkgs in
      (flags,
       {| cache := <[Some k := flags]> (cache self);
          effective_cache := effective_cache self;
          queries := rev (map (fun p => AuxGet p (aux_key cls)) pkgs)
                       ++ XMatch k :: queries self |})
  end.

(** [DBAPICache.get_effective] *)
Definition get_effective (db : Portage) (k : string) (self : DBAPICache)
  : gset string * DBAPICache :=
  match effective_cache self !! k with
  | Some v => (v, self)
  | None =>
      let pkgs := xmatch_all db k in
      let '(flags, calls) :=
        match pkgs with
        | _ :: _ =>
            (list_to_set
               (_aux_parse cls (aux_get db (best db pkgs) (aux_key cls))),
             [AuxGet (best db pkgs) (aux_key cls); Best pkgs])
        | [] => (∅, [])
        end in
      (flags,
       {| cache := cache self;
          effective_cache := <[k := flags]> (effective_cache self);
          queries := calls ++ XMatch k :: queries self |})
  end.

(** The [glob] property of the subclasses: the scan runs when [None] is
    not a key of [cache]. *)
Definition glob (db : Portage) (self : DBAPICache)
  : gset string * DBAPICache :=
  match cache self !! None with
  | Some v => (v, self)
  | None =>
      let v := glob_scan cls db in
      (v,
       {| cache := <[None := v]> (cache self);
          effective_cache := effective_cache self;
          queries := Scan :: queries self |})
  end.

(** The three queries of a namespace cache, and a run of queries, each
    against the catalog as it is when the query is made. *)
Inductive query : Type :=
| Possible (k : string)
| Effective (k : string)
| Glob.

Definition ask (db : Portage) (q : query) (self : DBAPICache)
  : gset string * DBAPICache :=
  match q with
  | Possible k => getitem db k self
  | Effective k => get_effective db k self
  | Glob => glob db self
  end.

Definition run (ops : list (Portage * query)) (self : DBAPICache)
  : DBAPICache :=
  foldl (fun c op => snd (ask (fst op) (snd op) c)) self ops.

(** The cached sets are the ones the catalog [db] gives. *)
Definition coherent (db : Portage) (self : DBAPICache) : Prop :=
  (forall k v, cache self !! Some k = Some v ->
               v = all_flags db (xmatch_all db k)) /\
  (forall k v, effective_cache self !! k = Some v ->
               v = match xmatch_all db k with
                   | _ :: _ =>
                       list_to_set
                         (_aux_parse cls
                            (aux_get db (best db (xmatch_all db k))
                               (aux_key cls)))
                   | [] => ∅
                   end).
End Methods.

(** [x.lstrip('+-')] *)
Fixpoint lstrip_plus_minus (s : string) : string :=
  match s with
  | String c s' =>
      if Ascii.eqb c "+"%char || Ascii.eqb c "-"%char
      then lstrip_plus_minus s' else s
  | EmptyString => s
  end.

(** [FlagCache._aux_parse] *)
Definition FlagCache_aux_parse (arg : string) : list string :=
  map lstrip_plus_minus (split arg).

(** [KeywordCache._aux_parse] *)
Definition KeywordCache_aux_parse (arg : string) : list string :=
  List.filter (fun x => negb (startswith "-" x)) (split arg) ++ ["*"; "**"].

(** The scan of [KeywordCache.glob]. *)
Definition KeywordCache_glob_scan (db : Portage) : gset string :=
  let kws : gset string :=
    foldl (fun kws r =>
             kws ∪ list_to_set
                     (grabfile db
                        (path_join (path_join r "profiles") "arch.list")))
          ∅ (porttrees db) in
  kws ∪ list_to_set (map (fun x => "~" +:+ x) (elements kws))
      ∪ list_to_set ["*"; "**"; "~*"].

(** [FlagCache] with the scan of its [glob] left to the caller: it reads
    the description files of the profiles. *)
Definition FlagCache (scan : Portage -> gset string) : CacheClass :=
  {| aux_key := "IUSE"; _aux_parse := FlagCache_aux_parse;
     glob_scan := scan |}.

Definition KeywordCache : CacheClass :=
  {| aux_key := "KEYWORDS"; _aux_parse := KeywordCache_aux_parse;
     glob_scan := KeywordCache_glob_scan |}.

(** [EnvCache]: the set is computed by [__init__]; [__getitem__] returns
    it for every package, and [glob] is empty. *)
Record EnvCache : Type := { env_cache : gset string }.
Definition EnvCache_getitem (k : string) (self : EnvCache) : gset string :=
  env_cache self.
Definition EnvCache_glob (self : EnvCache) : gset string := ∅.

(** The set the dictionaries hold for a query, if any. *)
Definition cached (q : query) (self : DBAPICache) : option (gset string) :=
  match q with
  | Possible k => cache self !! Some k
  | Effective k => effective_cache self !! k
  | Glob => cache self !! None
  end.

(** Queries made one after the other against one catalog. *)
Definition history (db : Portage) (qs : list query)
  : list (Portage * query) :=
  map (fun q => (db, q)) qs.

(** An example: a package with two versions, the better one without the
    flags of the other. *)
Definition example_db : Portage :=
  {| xmatch_all := fun k =>
       if String.eqb k "dev-libs/foo"
       then ["dev-libs/foo-1"; "dev-libs/foo-2"] else [];
     aux_get := fun p _ =>
       if String.eqb p "dev-libs/foo-1" then "+bar -baz" else "qux";
     best := fun pkgs => List.last pkgs "";
     porttrees := [];
     grabfile := fun _ => [] |}.

End Cache.

(** * packagefile.py: the record store *)

Module Store.
Import Py.

(** ** Line objects *)

(** [PackageFlag]: [modifier] is the empty string, ["+"] or ["-"].  A flag
    object is modelled by its value; [PackageEntry.remove], which looks
    for a flag object by identity, is not part of the model. *)
Record PackageFlag : Type := { modifier : string; name : string }.

(** [PackageFlag.__init__]; [s[0]] of an empty string is an [IndexError]. *)
Definition PackageFlag_init (s : string) : Result PackageFlag :=
  match s with
  | EmptyString => Raise IndexError
  | String c r =>
      if Ascii.eqb c "-"%char || Ascii.eqb c "+"%char
      then Ok {| modifier := String c ""; name := r |}
      else Ok {| modifier := ""; name := s |}
  end.

(** [PackageFlag.toString] *)
Definition PackageFlag_toString (f : PackageFlag) : string :=
  modifier f +:+ name f.

(** [PackageFlag.__lt__] *)
Definition PackageFlag_lt (f g : PackageFlag) : bool :=
  String.ltb (name f) (name g).

(** [PackageEntry]; [as_str] is the line as it was read. *)
Record PackageEntry : Type := {
  as_str : string;
  modified : bool;
  package : string;
  flags : list PackageFlag
}.

(** The comprehension [[self.PackageFlag(x) for x in sl]]. *)
Fixpoint flags_of (sl : list string) : Result (list PackageFlag) :=
  match sl with
  | [] => Ok []
  | x :: sl' =>
      match PackageFlag_init x with
      | Raise e => Raise e
      | Ok f =>
          match flags_of sl' with
          | Raise e => Raise e
          | Ok fs => Ok (f :: fs)
          end
      end
  end.

(** [PackageEntry.__init__] *)
Definition PackageEntry_init (l : string) : Result PackageEntry :=
  match split l with
  | [] => Raise InvalidPackageEntry
  | p :: sl =>
      if startswith "#" p then Raise InvalidPackageEntry
      else match flags_of sl with
           | Raise e => Raise e
           | Ok fs =>
               Ok {| as_str := l; modified := false; package := p;
                     flags := fs |}
           end
  end.

(** [PackageEntry.toString] *)
Definition PackageEntry_toString (e : PackageEntry) : string :=
  if negb (modified e) then as_str e
  else join " " (package e :: map PackageFlag_toString (flags e))
         +:+ String LF "".

(** [PackageEntry.__lt__] *)
Definition PackageEntry_lt (e e' : PackageEntry) : bool :=
  String.ltb (package e) (package e').

(** [PackageEntry.__len__] *)
Definition PackageEntry_len (e : PackageEntry) : nat := length (flags e).

Definition set_modified (v : bool) (e : PackageEntry) : PackageEntry :=
  {| as_str := as_str e; modified := v; package := package e;
     flags := flags e |}.

Definition set_flags (fs : list PackageFlag) (e : PackageEntry)
  : PackageEntry :=
  {| as_str := as_str e; modified := modified e; package := package e;
     flags := fs |}.

(** [PackageEntry.__iter__] and [PackageEntry.__getitem__]: the flags from
    the last to the first, and those of them with a given name. *)
Definition PackageEntry_iter (e : PackageEntry) : list PackageFlag :=
  rev (flags e).

Definition PackageEntry_getitem (flag : string) (e : PackageEntry)
  : list PackageFlag :=
  List.filter (fun f => String.eqb flag (name f)) (PackageEntry_iter e).

(** [PackageEntry.__delitem__]: every flag of that name goes. *)
Definition PackageEntry_delitem (flag : string) (e : PackageEntry)
  : PackageEntry :=
  set_modified true
    (set_flags
       (List.filter (fun f => negb (String.eqb flag (name f))) (flags e)) e).

(** [PackageEntry.sort] *)
Definition PackageEntry_sort (e : PackageEntry) : PackageEntry :=
  set_modified true (set_flags (stable_sort PackageFlag_lt (flags e)) e).

(** A line object of a [PackageFile]: a [Whitespace] or a [PackageEntry]. *)
Inductive Line : Type :=
| Whitespace (data : string)
| Entry (e : PackageEntry).

(** The [toString] method, the [modified] property and the truth value of
    a line object.  [Whitespace] is never modified and always true; the
    truth of a [PackageEntry] is that of its [__len__]. *)
Definition Line_toString (o : Line) : string :=
  match o with
  | Whitespace d => d
  | Entry e => PackageEntry_toString e
  end.

Definition Line_modified (o : Line) : bool :=
  match o with
  | Whitespace _ => false
  | Entry e => modified e
  end.

Definition Line_truth (o : Line) : bool :=
  match o with
  | Whitespace _ => true
  | Entry e => negb (PackageEntry_len e =? 0)
  end.

(** The setter of [modified]: the one of [Whitespace] does nothing. *)
Definition Line_set_modified (v : bool) (o : Line) : Line :=
  match o with
  | Whitespace d => Whitespace d
  | Entry e => Entry (set_modified v e)
  end.

(** ** Files, the store and the state *)

(** The file system as the module sees it: [os.path.isdir], the result of
    [glob.glob(os.path.join(p, '*'))], the text of the regular files that
    hold UTF-8 ([contents]) and, for the regular files that do not, the
    text of the lines the reader yields before it comes to the bytes it
    cannot decode ([garbled]).  A path of [contents] holds UTF-8 whatever
    [garbled] says of it: writing a file makes its path one. *)
Record FS : Type := {
  isdir : string -> bool;
  glob_star : string -> list string;
  contents : gmap string string;
  garbled : gmap string string
}.

(** [os.path.exists] *)
Definition path_exists (d : FS) (p : string) : bool :=
  isdir d p || bool_decide (is_Some (contents d !! p))
  || bool_decide (is_Some (garbled d !! p)).

(** [PackageFile]: the list itself is [items], a list of references. *)
Record PackageFile : Type := {
  path : string;
  _modified : bool;
  items : list nat
}.

(** The class of the store: [PackageFileSet] itself or
    [PackageKeywordsFileSet], which carries [_defkw]. *)
Inductive Class : Type :=
| Base
| Keywords (_defkw : list string).

Record PackageFileSet : Type := {
  class : Class;
  _path : string;
  _files : list PackageFile
}.

(** The state: the heap of line objects with the next free location, the
    file system, the paths opened for writing so far (the latest first)
    and the store object. *)
Record State : Type := {
  heap : gmap nat Line;
  next : nat;
  fs : FS;
  writes : list string;
  store : PackageFileSet
}.

(** Reading a reference.  A location that was never allocated reads as an
    empty [Whitespace]; no method produces such a reference. *)
Definition deref (h : gmap nat Line) (r : nat) : Line :=
  default (Whitespace "") (h !! r).

Definition is_Whitespace (h : gmap nat Line) (r : nat) : bool :=
  match deref h r with Whitespace _ => true | Entry _ => false end.

Definition is_Entry (h : gmap nat Line) (r : nat) : bool :=
  match deref h r with Whitespace _ => false | Entry _ => true end.

(** ** The monad of the methods *)

Definition M (A : Type) : Type := State -> Result A * State.

Definition ret {A} (a : A) : M A := fun st => (Ok a, st).

Definition bind {A B} (m : M A) (k : A -> M B) : M B :=
  fun st =>
    match m st with
    | (Ok a, st') => k a st'
    | (Raise e, st') => (Raise e, st')
    end.

Definition raise {A} (e : exn) : M A := fun st => (Raise e, st).

Definition get : M State := fun st => (Ok st, st).

Declare Scope py_scope.
Delimit Scope py_scope with py.
Notation "x <- c1 ;; c2" := (bind c1 (fun x => c2))
  (at level 100, c1 at next level, right associativity) : py_scope.
Notation "c1 ;; c2" := (bind c1 (fun _ => c2))
  (at level 100, right associativity) : py_scope.
Open Scope py_scope.

(** A [for] loop whose body has effects only. *)
Fixpoint for_each {A} (l : list A) (body : A -> M unit) : M unit :=
  match l with
  | [] => ret tt
  | x :: l' => body x ;; for_each l' body
  end.

Definition set_heap (h : gmap nat Line) (n : nat) : M unit :=
  fun st =>
    (Ok tt, {| heap := h; next := n; fs := fs st; writes := writes st;
               store := store st |}).

Definition set_files (l : list PackageFile) : M unit :=
  fun st =>
    (Ok tt, {| heap := heap st; next := next st; fs := fs st;
               writes := writes st;
               store := {| class := class (store st);
                           _path := _path (store st); _files := l |} |}).

(** Creating a line object. *)
Definition alloc (o : Line) : M nat :=
  st <- get ;;
  set_heap (<[next st := o]> (heap st)) (S (next st)) ;;
  ret (next st).

(** Assigning to the object behind a reference. *)
Definition update (r : nat) (f : Line -> Line) : M unit :=
  st <- get ;;
  set_heap (<[r := f (deref (heap st) r)]> (heap st)) (next st).

(** [codecs.open(path, 'r', 'utf8')]: the text the reader is going to
    yield, and whether it then fails on bytes that are not UTF-8.  A
    directory cannot be opened. *)
Definition open_read (p : string) : M (string * bool) :=
  st <- get ;;
  match contents (fs st) !! p with
  | Some text => ret (text, false)
  | None =>
      match garbled (fs st) !! p with
      | Some text => ret (text, true)
      | None => raise IOError
      end
  end.

Definition set_text (p text : string) (st : State) (w : list string)
  : State :=
  {| heap := heap st; next := next st;
     fs := {| isdir := isdir (fs st); glob_star := glob_star (fs st);
              contents := <[p := text]> (contents (fs st));
              garbled := garbled (fs st) |};
     writes := w; store := store st |}.

(** [codecs.open(path, 'w', 'utf8')] leaves the file empty; permissions
    and missing directories are outside the model. *)
Definition open_write (p : string) : M unit :=
  fun st => (Ok tt, set_text p "" st (p :: writes st)).

(** [f.write(s)] on the file opened at [p]. *)
Definition file_write (p s : string) : M unit :=
  fun st =>
    (Ok tt,
     set_text p (default "" (contents (fs st) !! p) +:+ s) st (writes st)).

(** ** [PackageFile] *)

(** The body of the reading loop: a [PackageEntry] when the line parses,
    a [Whitespace] when [InvalidPackageEntry] was raised. *)
Definition new_line (l : string) : M nat :=
  match PackageEntry_init l with
  | Ok e => alloc (Entry e)
  | Raise InvalidPackageEntry => alloc (Whitespace l)
  | Raise e => raise e
  end.

Fixpoint read_lines (ls : list string) : M (list nat) :=
  match ls with
  | [] => ret []
  | l :: ls' =>
      r <- new_line l ;;
      rs <- read_lines ls' ;;
      ret (r :: rs)
  end.

(** [PackageFile.__init__]: the loop runs over the lines the reader
    yields; the [UnicodeDecodeError] of the reader, raised in the [for]
    statement, is not caught. *)
Definition PackageFile_init (p : string) : M PackageFile :=
  st <- get ;;
  if negb (path_exists (fs st) p)
  then ret {| path := p; _modified := false; items := [] |}
  else
    f <- open_read p ;;
    rs <- read_lines (readlines (fst f)) ;;
    if snd f then raise UnicodeDecodeError
    else ret {| path := p; _modified := false; items := rs |}.

(** The first loop of [PackageFile.sort]: over a copy of the list,
    [self.remove(e)] for every [Whitespace].  Line objects define no
    [__eq__], so [remove] compares references. *)
Definition drop_whitespace (h : gmap nat Line) (l : list nat)
  : Result (list nat) :=
  foldl (fun cur e =>
           match cur with
           | Raise x => Raise x
           | Ok c =>
               if is_Whitespace h e
               then match list_remove (Nat.eqb e) c with
                    | Some c' => Ok c'
                    | None => Raise ValueError
                    end
               else Ok c
           end)
        (Ok l) l.

(** [e < e'] between the objects behind two references of a list that
    holds entries only. *)
Definition ref_lt (h : gmap nat Line) (r r' : nat) : bool :=
  match deref h r, deref h r' with
  | Entry e, Entry e' => PackageEntry_lt e e'
  | _, _ => false
  end.

(** [PackageFile.sort] *)
Definition PackageFile_sort (h : gmap nat Line) (f : PackageFile)
  : Result PackageFile :=
  match drop_whitespace h (items f) with
  | Raise x => Raise x
  | Ok l =>
      Ok {| path := path f; _modified := true;
            items := stable_sort (ref_lt h) l |}
  end.

(** The [modified] property of [PackageFile], and its setter. *)
Definition PackageFile_modified (h : gmap nat Line) (f : PackageFile)
  : bool :=
  _modified f || existsb (fun r => Line_modified (deref h r)) (items f).

Definition PackageFile_set_modified (v : bool) (f : PackageFile)
  : PackageFile :=
  {| path := path f; _modified := v; items := items f |}.

(** The body of the first loop of [PackageFile.write], for the file
    opened at [p]. *)
Definition write_line (p : string) (r : nat) : M unit :=
  st <- get ;;
  let l := deref (heap st) r in
  if negb (Line_modified l) || Line_truth l
  then file_write p (Line_toString l)
  else ret tt.

(** [PackageFile.write] *)
Definition PackageFile_write (f : PackageFile) : M PackageFile :=
  st <- get ;;
  if negb (PackageFile_modified (heap st) f) then ret f
  else
    open_write (path f) ;;
    for_each (items f) (write_line (path f)) ;;
    for_each (items f) (fun r => update r (Line_set_modified false)) ;;
    ret (PackageFile_set_modified false f).

(** ** [PackageFileSet] *)

(** The paths [PackageFileSet.read] loads. *)
Definition read_paths (d : FS) (p : string) : list string :=
  if isdir d p then
    match stable_sort String.ltb (glob_star d p) with
    | [] => [path_join p "flaggie"]
    | files => files
    end
  else [p].

(** The body of the loop of [PackageFileSet.read]. *)
Definition read_file (p : string) : M unit :=
  f <- PackageFile_init p ;;
  st <- get ;;
  set_files (_files (store st) ++ [f]).

(** [PackageFileSet.read] *)
Definition PackageFileSet_read : M unit :=
  st <- get ;;
  match _files (store st) with
  | _ :: _ => ret tt
  | [] => for_each (read_paths (fs st) (_path (store st))) read_file
  end.

(** [PackageFileSet.__iter__] over the files [l]: the files from the last
    to the first, the lines of each from the last to the first, the
    entries only. *)
Definition iter_entries (h : gmap nat Line) (l : list PackageFile)
  : list nat :=
  concat (map (fun f => List.filter (is_Entry h) (rev (items f))) (rev l)).

(** [PackageEntry.append] on the object behind [r], for a flag given as a
    string. *)
Definition PackageEntry_append (r : nat) (flag : string) : M PackageFlag :=
  st <- get ;;
  match deref (heap st) r with
  | Whitespace _ => raise AttributeError
  | Entry e =>
      match PackageFlag_init flag with
      | Raise x => raise x
      | Ok f =>
          update r (fun _ =>
                      Entry (set_modified true
                               (set_flags (flags e ++ [f]) e))) ;;
          ret f
      end
  end.

(** The body of the loop of [PackageKeywordsFileSet.read] that sets the
    defaults, for the entry behind [e]. *)
Definition set_defaults (_defkw : list string) (e : nat) : M unit :=
  st <- get ;;
  if negb (Line_truth (deref (heap st) e))
  then
    for_each _defkw (fun f => PackageEntry_append e f ;; ret tt) ;;
    update e (Line_set_modified false)
  else ret tt.

(** [PackageKeywordsFileSet.read].  When the loop starts, [_files] holds
    at least the one file the base class has just appended, so that
    [self.files] inside [__iter__] returns it without reading again. *)
Definition PackageKeywordsFileSet_read (_defkw : list string) : M unit :=
  st <- get ;;
  match _files (store st) with
  | _ :: _ => ret tt
  | [] =>
      PackageFileSet_read ;;
      st' <- get ;;
      for_each (iter_entries (heap st') (_files (store st')))
        (set_defaults _defkw)
  end.

(** [PackageKeywordsFileSet.__init__]: the value of [_defkw] for the
    setting [ACCEPT_KEYWORDS].  The strings [split] returns are not empty,
    so that [x[0]] exists. *)
Definition defkw_of (accept_keywords : string) : list string :=
  map (fun x => "~" +:+ x)
      (List.filter
         (fun x => match x with
                   | String c _ =>
                       negb (Ascii.eqb c "~"%char || Ascii.eqb c "-"%char)
                   | EmptyString => false
                   end)
         (split accept_keywords)).

(** [self.read()], by the class of the store. *)
Definition read : M unit :=
  st <- get ;;
  match class (store st) with
  | Base => PackageFileSet_read
  | Keywords _defkw => PackageKeywordsFileSet_read _defkw
  end.

(** The [files] property. *)
Definition files : M (list PackageFile) :=
  st <- get ;;
  match _files (store st) with
  | [] => read
  | _ :: _ => ret tt
  end ;;
  st' <- get ;;
  ret (_files (store st')).

(** [PackageFileSet.write] *)
Definition PackageFileSet_write : M unit :=
  st <- get ;;
  match _files (store st) with
  | [] => ret tt
  | _ :: _ =>
      for_each (_files (store st)) (fun f => PackageFile_write f ;; ret tt) ;;
      set_files []
  end.

(** The argument [pkg] of [append] and [remove]: a string or a reference
    to a line object. *)
Inductive PkgArg : Type :=
| PkgStr (s : string)
| PkgRef (r : nat).

(** [PackageFileSet.append] *)
Definition PackageFileSet_append (pkg : PkgArg) : M nat :=
  fl <- files ;;
  match last fl with
  | None => raise IndexError
  | Some f =>
      r <- match pkg with
           | PkgStr s =>
               match PackageEntry_init s with
               | Ok e => alloc (Entry e)
               | Raise x => raise x
               end
           | PkgRef r =>
               st <- get ;;
               if is_Entry (heap st) r then ret r else raise AttributeError
           end ;;
      update r (Line_set_modified true) ;;
      st <- get ;;
      set_files
        (removelast (_files (store st))
           ++ [{| path := path f; _modified := _modified f;
                  items := items f ++ [r] |}]) ;;
      ret r
  end.

(** [item == pkg] for a line object [item]: neither class defines
    [__eq__], so that only the object itself is equal to it. *)
Definition Line_eq (pkg : PkgArg) (item : nat) : bool :=
  match pkg with
  | PkgStr _ => false
  | PkgRef r => Nat.eqb item r
  end.

(** The loop of [PackageFileSet.remove]: the files after it, and [found]. *)
Fixpoint remove_loop (pkg : PkgArg) (l : list PackageFile) (found : bool)
  : list PackageFile * bool :=
  match l with
  | [] => ([], found)
  | f :: l' =>
      match list_remove (Line_eq pkg) (items f) with
      | None =>
          let '(l'', fd) := remove_loop pkg l' found in (f :: l'', fd)
      | Some it =>
          let '(l'', fd) := remove_loop pkg l' true in
          ({| path := path f; _modified := true; items := it |} :: l'', fd)
      end
  end.

(** [PackageFileSet.remove] *)
Definition PackageFileSet_remove (pkg : PkgArg) : M unit :=
  fl <- files ;;
  let '(fl', found) := remove_loop pkg fl false in
  set_files fl' ;;
  if found then ret tt else raise ValueError.



(** [PackageFileSet.__getitem__], run to its end. *)
Definition PackageFileSet_getitem (pkg : string) : M (list nat) :=
  fl <- files ;;
  st <- get ;;
  ret (List.filter (fun r => match deref (heap st) r with
                             | Entry e => String.eqb pkg (package e)
                             | Whitespace _ => false
                             end)
                   (iter_entries (heap st) fl)).

(** The body of [PackageFileSet.__delitem__] for one file.  The first
    loop reads [e.package] of every line object of the file, and a
    [Whitespace] has no such attribute. *)
Fixpoint matching_entries (h : gmap nat Line) (pkg : string) (l : list nat)
  : Result (list nat) :=
  match l with
  | [] => Ok []
  | r :: l' =>
      match deref h r with
      | Whitespace _ => Raise AttributeError
      | Entry e =>
          match matching_entries h pkg l' with
          | Raise x => Raise x
          | Ok es => Ok (if String.eqb pkg (package e) then r :: es else es)
          end
      end
  end.

Fixpoint remove_all (es : list nat) (l : list nat) : Result (list nat) :=
  match es with
  | [] => Ok l
  | e :: es' =>
      match list_remove (Nat.eqb e) l with
      | None => Raise ValueError
      | Some l' => remove_all es' l'
      end
  end.

Definition delitem_file (h : gmap nat Line) (pkg : string) (f : PackageFile)
  : Result PackageFile :=
  match matching_entries h pkg (items f) with
  | Raise x => Raise x
  | Ok es =>
      match remove_all es (items f) with
      | Raise x => Raise x
      | Ok l => Ok {| path := path f; _modified := true; items := l |}
      end
  end.

Fixpoint delitem_loop (h : gmap nat Line) (pkg : string)
  (l : list PackageFile) : list PackageFile * Result unit :=
  match l with
  | [] => ([], Ok tt)
  | f :: l' =>
      match delitem_file h pkg f with
      | Raise x => (f :: l', Raise x)
      | Ok f' => let '(l'', r) := delitem_loop h pkg l' in (f' :: l'', r)
      end
  end.

(** [PackageFileSet.__delitem__] *)
Definition PackageFileSet_delitem (pkg : string) : M unit :=
  fl <- files ;;
  st <- get ;;
  let '(fl', r) := delitem_loop (heap st) pkg fl in
  set_files fl' ;;
  match r with Ok _ => ret tt | Raise x => raise x end.

(** [PackageFileSet.__init__] and [PackageKeywordsFileSet.__init__], the
    latter for the value of [dbapi.settings['ACCEPT_KEYWORDS']]. *)
Definition PackageFileSet_init (p : string) : PackageFileSet :=
  {| class := Base; _path := p; _files := [] |}.

Definition PackageKeywordsFileSet_init (p accept_keywords : string)
  : PackageFileSet :=
  {| class := Keywords (defkw_of accept_keywords); _path := p;
     _files := [] |}.

(** A process that has just built the store [s]: the heap [h] of the
    objects made before, with its next free location [n], and the file
    system [d]. *)
Definition start (h : gmap nat Line) (n : nat) (d : FS) (s : PackageFileSet)
  : State :=
  {| heap := h; next := n; fs := d; writes := []; store := s |}.

(** ** Reference definitions for the statements *)

(** The line object the reading loop makes of a line. *)
Definition line_of (l : string) : Line :=
  match PackageEntry_init l with
  | Ok e => Entry e
  | Raise _ => Whitespace l
  end.

(** The line objects of the file at [p]; none when there is no such
    file. *)
Definition load_lines (d : FS) (p : string) : list Line :=
  match contents d !! p with
  | Some text => map line_of (readlines text)
  | None => []
  end.

(** Every path of the store that exists can be opened and read to its
    end. *)
Definition can_open (d : FS) (q : string) : bool :=
  negb (path_exists d q) || bool_decide (is_Some (contents d !! q)).

Definition readable (d : FS) (p : string) : bool :=
  forallb (can_open d) (read_paths d p).

(** What reading a path that exists and holds no UTF-8 text raises: the
    error of the decoder for a regular file, that of [open] otherwise. *)
Definition read_error (d : FS) (q : string) : exn :=
  match garbled d !! q with
  | Some _ => UnicodeDecodeError
  | None => IOError
  end.

(** A file object as [PackageFile.__init__] makes it of the file at its
    path. *)
Definition loaded (d : FS) (h : gmap nat Line) (f : PackageFile) : Prop :=
  _modified f = false /\ map (deref h) (items f) = load_lines d (path f).

(** The heap after the second loop of [PackageFile.write] over [l]. *)
Definition clear_modified (l : list nat) (h : gmap nat Line)
  : gmap nat Line :=
  foldl (fun h r => <[r := Line_set_modified false (deref h r)]> h) h l.

(** The default keywords in the words of the specification: the tokens of
    the accepted-keywords list that start with neither [~] nor [-], each
    with [~] before it, as flags without modifier. *)
Definition default_flags (accept_keywords : string) : list PackageFlag :=
  map (fun x => {| modifier := ""; name := "~" +:+ x |})
      (List.filter
         (fun x => negb (startswith "~" x || startswith "-" x))
         (split accept_keywords)).

(** A line object after the defaults are given: a record without flags
    gets the default flags, and is not modified. *)
Definition with_defaults (accept_keywords : string) (o : Line) : Line :=
  match o with
  | Whitespace d => Whitespace d
  | Entry e =>
      match flags e with
      | [] =>
          Entry {| as_str := as_str e; modified := false;
                   package := package e;
                   flags := default_flags accept_keywords |}
      | _ :: _ => Entry e
      end
  end.

(** The heap after the loop of [PackageKeywordsFileSet.read] over the
    entries [l]. *)
Definition defaults_heap (accept_keywords : string) (l : list nat)
  (h : gmap nat Line) : gmap nat Line :=
  foldl (fun h e =>
           if negb (Line_truth (deref h e))
           then <[e := with_defaults accept_keywords (deref h e)]> h
           else h)
        h l.

(** A call of one of the two constructors, the store it builds, and the
    line object a store so built holds for a line object just read. *)
Inductive Ctor : Type :=
| New_PackageFileSet (p : string)
| New_PackageKeywordsFileSet (p accept_keywords : string).

Definition construct (c : Ctor) : PackageFileSet :=
  match c with
  | New_PackageFileSet p => PackageFileSet_init p
  | New_PackageKeywordsFileSet p ak => PackageKeywordsFileSet_init p ak
  end.

Definition line_as (c : Ctor) (o : Line) : Line :=
  match c with
  | New_PackageFileSet _ => o
  | New_PackageKeywordsFileSet _ ak => with_defaults ak o
  end.

Definition as_read (c : Ctor) (d : FS) (h : gmap nat Line)
  (f : PackageFile) : Prop :=
  _modified f = false /\
  map (deref h) (items f) = map (line_as c) (load_lines d (path f)).

(** The line objects of [f] are unmodified and their texts, one after the
    other, are the text of the file at the path of [f]. *)
Definition raw_kept (d : FS) (h : gmap nat Line) (f : PackageFile) : Prop :=
  _modified f = false /\
  Forall (fun r => Line_modified (deref h r) = false) (items f) /\
  concat_text (map (fun r => Line_toString (deref h r)) (items f))
  = default "" (contents d !! path f).

(** The state [st] with the files of its store replaced. *)
Definition with_files (l : list PackageFile) (st : State) : State :=
  snd (set_files l st).

(** The text a file-level write puts into the file: the records that are
    modified and without flags are left out. *)
Definition omitted (o : Line) : bool :=
  match o with
  | Whitespace _ => false
  | Entry e => modified e && (length (flags e) =? 0)
  end.

Definition written_text (h : gmap nat Line) (l : list nat) : string :=
  concat_text
    (map (fun r => Line_toString (deref h r))
         (List.filter (fun r => negb (omitted (deref h r))) l)).

(** The package expression behind a reference, and the test of
    [__getitem__] on it. *)
Definition package_of (h : gmap nat Line) (r : nat) : string :=
  match deref h r with
  | Entry e => package e
  | Whitespace _ => ""
  end.

Definition is_record_of (h : gmap nat Line) (pkg : string) (r : nat) : bool :=
  match deref h r with
  | Entry e => String.eqb pkg (package e)
  | Whitespace _ => false
  end.

(** The file [f] holds the reference [r]. *)
Definition holds (r : nat) (f : PackageFile) : bool :=
  existsb (Nat.eqb r) (items f).

(** The files of the store hold references to allocated objects only. *)
Definition fresh_next (st : State) : Prop :=
  Forall (fun f => Forall (fun r => r < next st) (items f))
         (_files (store st)).

(** ** An example: the file of the scenario of the specification *)

Definition example_text : string :=
  "dev-libs/foo +bar -baz
# comment

dev-libs/foo qux
".

Definition example_fs : FS :=
  {| isdir := fun _ => false; glob_star := fun _ => [];
     contents := {[ "package.use" := example_text ]}; garbled := ∅ |}.

Definition example_state : State :=
  snd (read (start ∅ 0 example_fs (PackageFileSet_init "package.use"))).

Definition example_file : PackageFile :=
  {| path := "package.use"; _modified := false; items := [0; 1; 2; 3] |}.

(** A method of [PackageEntry] called on a line object that is one. *)
Definition on_entry (m : PackageEntry -> PackageEntry) (o : Line) : Line :=
  match o with
  | Whitespace d => Whitespace d
  | Entry e => Entry (m e)
  end.

(** The example after [del e['qux']] on its last record. *)
Definition example_dirty_state : State :=
  snd (update 3 (on_entry (PackageEntry_delitem "qux")) example_state).

(** A keyword store: a record without flags, a comment and a record with
    a flag, for an accepted-keywords list of three tokens. *)
Definition example_keywords_fs : FS :=
  {| isdir := fun _ => false; glob_star := fun _ => [];
     contents := {[ "package.keywords" := "dev-libs/foo
# comment
dev-libs/bar ~x86
" ]};
     garbled := ∅ |}.

Definition example_accept_keywords : string := "amd64 ~x86 -ppc".

Definition example_keywords_state : State :=
  snd (read (start ∅ 0 example_keywords_fs
               (PackageKeywordsFileSet_init "package.keywords"
                  example_accept_keywords))).

(** A store on a directory of two files. *)
Definition example_dir_fs : FS :=
  {| isdir := fun p => String.eqb p "package.use";
     glob_star := fun p =>
       if String.eqb p "package.use"
       then ["package.use/20-b"; "package.use/10-a"] else [];
     contents := {[ "package.use/10-a" := "dev-libs/foo bar
";
                    "package.use/20-b" := "dev-libs/foo -bar
" ]};
     garbled := ∅ |}.

End Store.

(** * More of the two modules *)

(** ** Text without white space *)

Module Text.
Import Py.

(** No character of [s] is white space for [str.split]. *)
Fixpoint no_space (s : string) : bool :=
  match s with
  | EmptyString => true
  | String c s' => negb (isspace c) && no_space s'
  end.

(** A string [split] can return: not empty, and without white space. *)
Definition is_token (s : string) : Prop := s <> "" /\ no_space s = true.

End Text.

(** ** More examples of stores *)

Module Examples.
Import Py.
Import Store.

(** The store on the directory of two files, read. *)
Definition example_dir_state : State :=
  snd (read (start ∅ 0 example_dir_fs (PackageFileSet_init "package.use"))).

(** A directory whose second file holds a comment. *)
Definition example_mixed_fs : FS :=
  {| isdir := fun p => String.eqb p "package.use";
     glob_star := fun p =>
       if String.eqb p "package.use"
       then ["package.use/10-a"; "package.use/20-b"] else [];
     contents := {[ "package.use/10-a" := "dev-libs/foo bar
dev-libs/baz qux
";
                    "package.use/20-b" := "# local
dev-libs/foo -bar
" ]};
     garbled := ∅ |}.

Definition example_mixed_state : State :=
  snd (read (start ∅ 0 example_mixed_fs (PackageFileSet_init "package.use"))).

(** A directory with a subdirectory between two files. *)
Definition example_subdir_fs : FS :=
  {| isdir := fun p =>
       String.eqb p "package.use" || String.eqb p "package.use/20-dir";
     glob_star := fun p =>
       if String.eqb p "package.use"
       then ["package.use/10-a"; "package.use/20-dir"; "package.use/30-c"]
       else [];
     contents := {[ "package.use/10-a" := "dev-libs/foo bar
";
                    "package.use/30-c" := "dev-libs/baz qux
" ]};
     garbled := ∅ |}.

(** An empty directory. *)
Definition example_empty_dir_fs : FS :=
  {| isdir := fun p => String.eqb p "package.use";
     glob_star := fun _ => [];
     contents := ∅; garbled := ∅ |}.

(** A directory whose second file stops being UTF-8 after its first
    line. *)
Definition example_garbled_fs : FS :=
  {| isdir := fun p => String.eqb p "package.use";
     glob_star := fun p =>
       if String.eqb p "package.use"
       then ["package.use/10-a"; "package.use/20-b"; "package.use/30-c"]
       else [];
     contents := {[ "package.use/10-a" := "dev-libs/foo bar
";
                    "package.use/30-c" := "dev-libs/baz qux
" ]};
     garbled := {[ "package.use/20-b" := "dev-libs/foo -bar
" ]} |}.

End Examples.

(** ** Invariants of loops *)

Module Invariants.
Import Py.
Import Store.
Import Text.

(** A flag that is written as one token and read back from it, and a
    record whose package expression and flags are such: what
    [PackageEntry.__init__] builds, and what the methods keep when the
    flags they are given are single tokens. *)
Definition token_flag (f : PackageFlag) : Prop :=
  is_token (PackageFlag_toString f) /\
  PackageFlag_init (PackageFlag_toString f) = Ok f.

Definition token_record (e : PackageEntry) : Prop :=
  is_token (package e) /\ startswith "#" (package e) = false /\
  Forall token_flag (flags e).

(** What the loop of the store-level write keeps, [st0] being the state it
    starts in. *)
Definition written_from (st0 st : State) : Prop :=
  store st = store st0 /\
  (forall r, Line_modified (deref (heap st) r) = true ->
             Line_modified (deref (heap st0) r) = true) /\
  (exists w,
     writes st = w ++ writes st0 /\
     Forall (fun p => exists f, f ∈ _files (store st0) /\ path f = p /\
                                PackageFile_modified (heap st0) f = true) w) /\
  (forall q,
     (forall f, f ∈ _files (store st0) ->
                PackageFile_modified (heap st0) f = true -> path f <> q) ->
     contents (fs st) !! q = contents (fs st0) !! q).

End Invariants.

(** ** cache.py: the description files, the licenses and the registry *)

Module Registry.
Import Py.
Import Cache.

(** What the rest of [cache.py] reads besides the catalog: the text files
    it opens ([None] when [open] raises [IOError]; a file that opens is
    taken to hold UTF-8 text, the error of the decoder on one that does
    not is outside the model),
    [portage.util.grabdict] as the items of the dictionary it returns,
    [os.listdir] ([None] when it raises [OSError]),
    [use_reduce(arg, matchall=True, flat=True)] and the setting
    [USE_EXPAND] (the empty string when it is not set). *)
Record Profiles : Type := {
  open_text : string -> option string;
  grabdict : string -> list (string * list string);
  listdir : string -> option (list string);
  use_reduce : string -> list string;
  use_expand : string
}.

(** [os.path.join(a, b)]: an absolute [b] stands alone. *)
Definition os_path_join (a b : string) : string :=
  if startswith "/" b then b else path_join a b.

(** The lines of a file opened in text mode: a line ends at LF, at CR or
    at CR LF, and its end is given as LF. *)
Fixpoint text_lines_from (cur : string) (s : string) : list string :=
  match s with
  | EmptyString => if String.eqb cur "" then [] else [cur]
  | String c s' =>
      if Ascii.eqb c CR then
        match s' with
        | String c' s'' =>
            if Ascii.eqb c' LF
            then (cur +:+ String LF "") :: text_lines_from "" s''
            else (cur +:+ String LF "") :: text_lines_from "" s'
        | EmptyString => [cur +:+ String LF ""]
        end
      else if Ascii.eqb c LF
           then (cur +:+ String LF "") :: text_lines_from "" s'
           else text_lines_from (cur +:+ String c "") s'
  end.

Definition text_lines (text : string) : list string :=
  text_lines_from "" text.

(** [s] without the prefix [p], when it starts with it. *)
Fixpoint strip_prefix (p s : string) : option string :=
  match p with
  | EmptyString => Some s
  | String a p' =>
      match s with
      | String b s' => if Ascii.eqb a b then strip_prefix p' s' else None
      | EmptyString => None
      end
  end.

(** [s.split(sep, 1)] for a separator that is not empty: what stands
    before the first [sep] and what follows it, or [None] when the list
    has one element, [sep] not being in [s]. *)
Fixpoint split_once (sep s : string) : option (string * string) :=
  match strip_prefix sep s with
  | Some rest => Some ("", rest)
  | None =>
      match s with
      | EmptyString => None
      | String c s' =>
          match split_once sep s' with
          | Some (a, b) => Some (String c a, b)
          | None => None
          end
      end
  end.

(** [s.strip()] *)
Fixpoint lstrip (s : string) : string :=
  match s with
  | String c s' => if isspace c then lstrip s' else s
  | EmptyString => s
  end.

Fixpoint rstrip (s : string) : string :=
  match s with
  | String c s' =>
      match rstrip s' with
      | EmptyString => if isspace c then "" else String c ""
      | r => String c r
      end
  | EmptyString => s
  end.

Definition strip (s : string) : string := rstrip (lstrip s).

(** [s.lower()] on the code points below 256: the letters A-Z and the
    capital letters 0xc0-0xde, the multiplication sign 0xd7 apart. *)
Definition lower_char (c : ascii) : ascii :=
  let n := nat_of_ascii c in
  if ((65 <=? n) && (n <=? 90))
     || ((192 <=? n) && (n <=? 222) && negb (n =? 215))
  then ascii_of_nat (n + 32) else c.

Fixpoint lower (s : string) : string :=
  match s with
  | EmptyString => ""
  | String c s' => String (lower_char c) (lower s')
  end.

(** The body of the loop of [grab_use_desc]. *)
Definition grab_line (prefix : string) (flags : gmap string string)
  (l : string) : gmap string string :=
  match split_once " - " l with
  | Some (a, b) => <[prefix +:+ a := strip b]> flags
  | None => flags
  end.

(** [grab_use_desc] *)
Definition grab_use_desc (pf : Profiles) (p prefix : string)
  : gmap string string :=
  match open_text pf p with
  | None => ∅
  | Some text => foldl (grab_line prefix) ∅ (text_lines text)
  end.

(** [FlagCache.__init__]: [use_expand_vars]. *)
Definition use_expand_vars (pf : Profiles) : list string :=
  split (use_expand pf).

(** What [FlagCache.glob] computes when the set is not cached: for every
    tree the flags of [use.desc], then those of the description file of
    every variable of [USE_EXPAND]. *)
Definition FlagCache_glob_tree (pf : Profiles) (flags : gset string)
  (r : string) : gset string :=
  foldl (fun flags k =>
           flags ∪ dom (grab_use_desc pf
                          (os_path_join
                             (os_path_join (os_path_join r "profiles")
                                "desc")
                             (lower k +:+ ".desc"))
                          (lower k +:+ "_")))
        (flags ∪ dom (grab_use_desc pf
                        (os_path_join (os_path_join r "profiles")
                           "use.desc") ""))
        (use_expand_vars pf).

Definition FlagCache_glob_scan (pf : Profiles) (db : Portage) : gset string :=
  foldl (FlagCache_glob_tree pf) ∅ (porttrees db).

(** The dictionary [_groupcache], in the order of its keys: giving the
    members [v] to the group [k]. *)
Fixpoint group_add (k : string) (v : gset string)
  (g : list (string * gset string)) : list (string * gset string) :=
  match g with
  | [] => [(k, v)]
  | (k', v') :: g' =>
      if String.eqb k k' then (k', v' ∪ v) :: g'
      else (k', v') :: group_add k v g'
  end.

(** What the [groups] property of [LicenseCache] computes when
    [_groupcache] is [None]. *)
Definition LicenseCache_groups (pf : Profiles) (db : Portage)
  : list (string * gset string) :=
  foldl (fun g r =>
           foldl (fun g kv => group_add ("@" +:+ fst kv)
                                (list_to_set (snd kv)) g)
                 g
                 (grabdict pf
                    (os_path_join (os_path_join r "profiles")
                       "license_groups")))
        [] (porttrees db).

(** [LicenseCache._aux_parse], as a set, [groups] being the value of the
    property.  The generator given to [lic.update] tests [lic & v] when
    [lic] already holds the group names added before. *)
Definition license_set (pf : Profiles) (groups : list (string * gset string))
  (arg : string) : gset string :=
  foldl (fun lic kv =>
           if decide (lic ∩ snd kv = ∅) then lic else lic ∪ {[fst kv]})
        (list_to_set (use_reduce pf arg) ∖ {["||"]})
        groups.

Definition LicenseCache_aux_parse (pf : Profiles)
  (groups : list (string * gset string)) (arg : string) : list string :=
  elements (license_set pf groups arg).

(** What [LicenseCache.glob] computes when the set is not cached. *)
Definition LicenseCache_glob_scan (pf : Profiles)
  (groups : list (string * gset string)) (db : Portage) : gset string :=
  foldl (fun lic r =>
           (match listdir pf (os_path_join r "licenses") with
            | Some names => lic ∪ list_to_set names
            | None => lic
            end) ∪ list_to_set (map fst groups))
        ∅ (porttrees db)
    ∖ {["CVS"]}.

Definition LicenseCache (pf : Profiles)
  (groups : list (string * gset string)) : CacheClass :=
  {| aux_key := "LICENSE"; _aux_parse := LicenseCache_aux_parse pf groups;
     glob_scan := LicenseCache_glob_scan pf groups |}.

(** ** [Caches] *)

(** The four caches of the registry and the classes of the three that
    are instances of [DBAPICache]. *)
Record Caches : Type := {
  use_cache : DBAPICache;
  kw_cache : DBAPICache;
  lic_cache : DBAPICache;
  env : EnvCache
}.

Record Classes : Type := {
  use_class : CacheClass;
  kw_class : CacheClass;
  lic_class : CacheClass
}.

(** The keys of [self.caches], in the order of the dictionary. *)
Definition namespaces : list string := ["use"; "kw"; "lic"; "env"].

(** [if not restrict: restrict = frozenset(self.caches)] *)
Definition restriction (restrict : gset string) : gset string :=
  if decide (restrict = ∅) then list_to_set namespaces else restrict.

(** [self.caches[k].glob], and the registry afterwards. *)
Definition glob_of (cs : Classes) (db : Portage) (k : string) (self : Caches)
  : gset string * Caches :=
  if String.eqb k "use" then
    let '(v, c) := glob (use_class cs) db (use_cache self) in
    (v, {| use_cache := c; kw_cache := kw_cache self;
           lic_cache := lic_cache self; env := env self |})
  else if String.eqb k "kw" then
    let '(v, c) := glob (kw_class cs) db (kw_cache self) in
    (v, {| use_cache := use_cache self; kw_cache := c;
           lic_cache := lic_cache self; env := env self |})
  else if String.eqb k "lic" then
    let '(v, c) := glob (lic_class cs) db (lic_cache self) in
    (v, {| use_cache := use_cache self; kw_cache := kw_cache self;
           lic_cache := c; env := env self |})
  else (EnvCache_glob (env self), self).

(** [self.caches[k][pkg]], and the registry afterwards. *)
Definition possible_of (cs : Classes) (db : Portage) (k pkg : string)
  (self : Caches) : gset string * Caches :=
  if String.eqb k "use" then
    let '(v, c) := getitem (use_class cs) db pkg (use_cache self) in
    (v, {| use_cache := c; kw_cache := kw_cache self;
           lic_cache := lic_cache self; env := env self |})
  else if String.eqb k "kw" then
    let '(v, c) := getitem (kw_class cs) db pkg (kw_cache self) in
    (v, {| use_cache := use_cache self; kw_cache := c;
           lic_cache := lic_cache self; env := env self |})
  else if String.eqb k "lic" then
    let '(v, c) := getitem (lic_class cs) db pkg (lic_cache self) in
    (v, {| use_cache := use_cache self; kw_cache := kw_cache self;
           lic_cache := c; env := env self |})
  else (EnvCache_getitem pkg (env self), self).

(** The loop of [glob_whatis] and of [whatis], [look] being the set of
    the cache of a key: the cache is asked only when the key is in
    [restrict]. *)
Definition classify (look : string -> Caches -> gset string * Caches)
  (arg : string) (restrict : gset string) (self : Caches)
  : gset string * Caches :=
  foldl (fun acc k =>
           let '(ret, c) := acc in
           if decide (k ∈ restrict) then
             let '(v, c') := look k c in
             (if decide (arg ∈ v) then ret ∪ {[k]} else ret, c')
           else (ret, c))
        (∅, self) namespaces.

(** [Caches.glob_whatis] *)
Definition glob_whatis (cs : Classes) (db : Portage) (arg : string)
  (restrict : gset string) (self : Caches) : gset string * Caches :=
  classify (glob_of cs db) arg (restriction restrict) self.

(** [Caches.whatis] *)
Definition whatis (cs : Classes) (db : Portage) (arg pkg : string)
  (restrict : gset string) (self : Caches) : gset string * Caches :=
  classify (fun k => possible_of cs db k pkg) arg (restriction restrict) self.

(** [Caches.describe]; [None] stands for the [AssertionError]. *)
Definition describe (ns : string) : option string :=
  if String.eqb ns "use" then Some "flag"
  else if String.eqb ns "kw" then Some "keyword"
  else if String.eqb ns "lic" then Some "license"
  else if String.eqb ns "env" then Some "env file"
  else None.

(** [Caches.__getitem__]: the cache of a namespace; [None] stands for the
    [KeyError]. *)
Definition Caches_getitem (k : string) (self : Caches)
  : option (DBAPICache + EnvCache) :=
  if String.eqb k "use" then Some (inl (use_cache self))
  else if String.eqb k "kw" then Some (inl (kw_cache self))
  else if String.eqb k "lic" then Some (inl (lic_cache self))
  else if String.eqb k "env" then Some (inr (env self))
  else None.

(** [Caches.__init__]: the three caches start empty; the set of
    [EnvCache], which its [__init__] collects from the file system, is
    given. *)
Definition Caches_init (e : EnvCache) : Caches :=
  {| use_cache := DBAPICache_init; kw_cache := DBAPICache_init;
     lic_cache := DBAPICache_init; env := e |}.

(** The classes of the three caches over the trees of [db]. *)
Definition Classes_of (pf : Profiles) (db : Portage) : Classes :=
  {| use_class := FlagCache (FlagCache_glob_scan pf);
     kw_class := KeywordCache;
     lic_class := LicenseCache pf (LicenseCache_groups pf db) |}.

(** ** The first occurrence of a separator *)

(** [l] is [a], the separator and [b], and the separator does not start
    earlier in [l]. *)
Definition first_cut (sep l a b : string) : Prop :=
  l = a +:+ sep +:+ b /\
  forall a' b', l = a' +:+ sep +:+ b' -> String.length a <= String.length a'.

(** ** What the license groups keep while they are built *)

(** [t] is a member of the group [k] of the dictionary [g]. *)
Definition in_group (g : list (string * gset string)) (k t : string) : Prop :=
  exists v, (k, v) ∈ g /\ t ∈ v.

(** The keys of [g] are distinct and start with an at sign, and its
    members are the ones [P] names. *)
Definition groups_of (P : string -> string -> Prop)
  (g : list (string * gset string)) : Prop :=
  NoDup (map fst g) /\
  Forall (fun kv => startswith "@" (fst kv) = true) g /\
  (forall k t, in_group g k t <-> P k t).

(** ** An example *)

Definition example_profiles : Profiles :=
  {| open_text := fun p =>
       if String.eqb p "/usr/portage/profiles/use.desc"
       then Some "# Copyright - header
X - Add support for X11
ssl - Add support for SSL

"
       else if String.eqb p "/usr/portage/profiles/desc/python_targets.desc"
       then Some "python3_12 - Build with Python 3.12
"
       else None;
     grabdict := fun p =>
       if String.eqb p "/usr/portage/profiles/license_groups"
       then [("GPL-COMPATIBLE", ["GPL-2"; "GPL-3"; "MIT"]);
             ("FREE", ["@GPL-COMPATIBLE"; "BSD"])]
       else [];
     listdir := fun p =>
       if String.eqb p "/usr/portage/licenses"
       then Some ["GPL-2"; "MIT"; "CVS"] else None;
     use_reduce := fun arg => split arg;
     use_expand := "PYTHON_TARGETS" |}.

End Registry.

(** * Facts about the Python primitives *)

Import Py.
Import Cache.
Import Store.

Lemma append_nil_l (s : string) : "" +:+ s = s.
Proof. reflexivity. Qed.

Lemma append_cons (c : ascii) (s t : string) :
  String c s +:+ t = String c (s +:+ t).
Proof. reflexivity. Qed.

Lemma append_nil_r (s : string) : s +:+ "" = s.
Proof.
  induction s as [|c s IH]; [done|]. by rewrite append_cons, IH.
Qed.

Lemma append_assoc (a b c : string) : (a +:+ b) +:+ c = a +:+ (b +:+ c).
Proof.
  induction a as [|x a IH]; [done|]. by rewrite !append_cons, IH.
Qed.

Lemma eqb_empty_false (cur : string) (c : ascii) :
  String.eqb (cur +:+ String c "") "" = false.
Proof. destruct cur; reflexivity. Qed.

Lemma concat_text_cons (x : string) (l : list string) :
  concat_text (x :: l) = x +:+ concat_text l.
Proof. reflexivity. Qed.

Lemma lines_from_nil (cur : string) : concat_text (lines_from cur "") = cur.
Proof.
  simpl. destruct (String.eqb_spec cur ""); subst; [done|].
  by rewrite concat_text_cons, append_nil_r.
Qed.

(** The lines of a text, put together again, are the text. *)
Lemma lines_from_concat (n : nat) :
  forall s cur, String.length s <= n ->
    concat_text (lines_from cur s) = cur +:+ s.
Proof.
  induction n as [|n IH]; intros s cur Hn.
  - destruct s; [|simpl in Hn; lia].
    by rewrite lines_from_nil, append_nil_r.
  - destruct s as [|c s'].
    { by rewrite lines_from_nil, append_nil_r. }
    simpl in Hn. simpl lines_from.
    destruct (Ascii.eqb c CR).
    + destruct s' as [|c' s'']; [by rewrite concat_text_cons, append_nil_r|].
      simpl in Hn.
      destruct (Ascii.eqb c' LF);
        rewrite concat_text_cons, IH, append_nil_l, append_assoc
          by (simpl; lia);
        done.
    + destruct (islinebreak c).
      * by rewrite concat_text_cons, IH, append_nil_l, append_assoc by lia.
      * by rewrite IH, append_assoc by lia.
Qed.

Lemma readlines_concat (text : string) : concat_text (readlines text) = text.
Proof.
  unfold readlines. by rewrite (lines_from_concat (String.length text)).
Qed.

(** [split] returns no empty string. *)
Lemma split_from_nonempty (s : string) :
  forall cur, Forall (fun t => t <> "") (split_from cur s).
Proof.
  induction s as [|c s IH]; intros cur; simpl.
  - destruct (String.eqb_spec cur ""); [constructor|].
    by repeat constructor.
  - destruct (isspace c); [|apply IH].
    destruct (String.eqb_spec cur ""); [apply IH|].
    constructor; [done | apply IH].
Qed.

Lemma split_nonempty (s : string) : Forall (fun t => t <> "") (split s).
Proof. apply split_from_nonempty. Qed.

Lemma concat_text_app (l k : list string) :
  concat_text (l ++ k) = concat_text l +:+ concat_text k.
Proof.
  induction l as [|x l IH]; [done|].
  by rewrite <- app_comm_cons, !concat_text_cons, IH, append_assoc.
Qed.

(** ** [list.remove] *)

Lemma list_remove_Some (eqx : nat -> bool) (l l' : list nat) :
  list_remove eqx l = Some l' ->
  exists l1 x l2, l = l1 ++ x :: l2 /\ l' = l1 ++ l2 /\ eqx x = true /\
                  Forall (fun y => eqx y = false) l1.
Proof.
  revert l'. induction l as [|y l IH]; intros l' H; simpl in H; [done|].
  destruct (eqx y) eqn:E.
  - injection H as <-. exists [], y, l. by repeat split.
  - destruct (list_remove eqx l) as [r|] eqn:R; [|done].
    injection H as <-.
    destruct (IH r eq_refl) as (l1 & x & l2 & -> & -> & Hx & Hl1).
    exists (y :: l1), x, l2. repeat split; [done|by constructor].
Qed.

Lemma list_remove_None (eqx : nat -> bool) (l : list nat) :
  list_remove eqx l = None <-> Forall (fun y => eqx y = false) l.
Proof.
  induction l as [|y l IH]; simpl.
  - split; [constructor | done].
  - destruct (eqx y) eqn:E.
    + split; [done|]. intros H. inversion H; congruence.
    + destruct (list_remove eqx l).
      * split; [done|]. intros H. inversion H; subst.
        by apply IH in H3.
      * split; [|done]. intros _. constructor; [done | by apply IH].
Qed.

Lemma list_remove_app (eqx : nat -> bool) (l1 l2 : list nat) (x : nat) :
  Forall (fun y => eqx y = false) l1 -> eqx x = true ->
  list_remove eqx (l1 ++ x :: l2) = Some (l1 ++ l2).
Proof.
  induction l1 as [|y l1 IH]; intros H Hx; simpl.
  - by rewrite Hx.
  - inversion H; subst. rewrite H2, IH by done. done.
Qed.

(** ** The stable sort, for an order given by a key *)

Section KeySort.
Context {A : Type} (key : A -> string).

Lemma compare_refl (s : string) : String.compare s s = Eq.
Proof.
  induction s as [|c s IH]; simpl; [done|].
  pose proof (Ascii.compare_antisym c c) as H.
  destruct (Ascii.compare c c); simpl in H; done.
Qed.

Lemma ltb_irrefl (s : string) : String.ltb s s = false.
Proof. unfold String.ltb. by rewrite compare_refl. Qed.

Lemma ltb_leb (s t : string) : String.ltb s t = true -> String.leb s t = true.
Proof.
  unfold String.ltb, String.leb. by destruct (String.compare s t); simpl.
Qed.

Lemma not_ltb_leb (s t : string) :
  String.ltb s t = false -> String.leb t s = true.
Proof.
  unfold String.ltb, String.leb. rewrite (String.compare_antisym t s).
  by destruct (String.compare s t); simpl.
Qed.

Lemma insert_sorted_perm (x : A) (l : list A) :
  insert_sorted (key_lt key) x l ≡ₚ x :: l.
Proof.
  induction l as [|y l IH]; simpl; [done|].
  destruct (key_lt key y x); [|done]. rewrite IH. apply Permutation_swap.
Qed.

Lemma stable_sort_perm (l : list A) : stable_sort (key_lt key) l ≡ₚ l.
Proof.
  induction l as [|x l IH]; simpl; [done|].
  by rewrite insert_sorted_perm, IH.
Qed.

Lemma insert_sorted_Sorted (x : A) (l : list A) :
  Sorted (key_le key) l -> Sorted (key_le key) (insert_sorted (key_lt key) x l).
Proof.
  induction 1 as [|y l Hs IH Hd]; simpl.
  - by repeat constructor.
  - destruct (key_lt key y x) eqn:E.
    + constructor; [done|].
      destruct Hd as [|z l Hyz]; simpl.
      * constructor. by apply ltb_leb.
      * destruct (key_lt key z x); constructor; [done | by apply ltb_leb].
    + constructor; [by constructor|]. constructor. by apply not_ltb_leb.
Qed.

Lemma stable_sort_Sorted (l : list A) :
  Sorted (key_le key) (stable_sort (key_lt key) l).
Proof.
  induction l as [|x l IH]; simpl; [constructor|].
  by apply insert_sorted_Sorted.
Qed.

(** Stability: the elements of one key keep their order. *)
Lemma insert_sorted_filter (k : string) (x : A) (l : list A) :
  List.filter (fun a => String.eqb k (key a)) (insert_sorted (key_lt key) x l)
  = List.filter (fun a => String.eqb k (key a)) (x :: l).
Proof.
  induction l as [|y l IH]; [done|].
  simpl insert_sorted. destruct (key_lt key y x) eqn:E; [|done].
  simpl List.filter in *. rewrite IH.
  destruct (String.eqb_spec k (key x)) as [->|]; [|done].
  destruct (String.eqb_spec (key x) (key y)) as [Hxy|]; [|done].
  unfold key_lt in E. rewrite Hxy, ltb_irrefl in E. done.
Qed.

Lemma stable_sort_filter (k : string) (l : list A) :
  List.filter (fun a => String.eqb k (key a)) (stable_sort (key_lt key) l)
  = List.filter (fun a => String.eqb k (key a)) l.
Proof.
  induction l as [|x l IH]; [done|].
  simpl stable_sort. rewrite insert_sorted_filter. simpl. by rewrite IH.
Qed.
End KeySort.

(** The sort only looks at the order between the elements of the list. *)
Lemma insert_sorted_ext {A} (lt lt' : A -> A -> bool) (x : A) (l : list A) :
  (forall y, y ∈ l -> lt y x = lt' y x) ->
  insert_sorted lt x l = insert_sorted lt' x l.
Proof.
  induction l as [|y l IH]; intros H; simpl; [done|].
  rewrite H by constructor. rewrite IH; [done|].
  intros z Hz. apply H. by constructor.
Qed.

Lemma stable_sort_ext {A} (lt lt' : A -> A -> bool) (l : list A) :
  (forall x y, x ∈ l -> y ∈ l -> lt x y = lt' x y) ->
  stable_sort lt l = stable_sort lt' l.
Proof.
  induction l as [|x l IH]; intros H; simpl; [done|].
  rewrite IH by (intros; apply H; by constructor).
  apply insert_sorted_ext. intros y Hy. apply H; [|constructor].
  constructor. 
  assert (Hp : stable_sort lt' l ≡ₚ l).
  { clear. induction l as [|x l IH]; simpl; [done|].
    rewrite <- IH at 2. generalize (stable_sort lt' l). clear.
    intros l. induction l as [|y l IH]; simpl; [done|].
    destruct (lt' y x); [|done]. rewrite IH. apply Permutation_swap. }
  by rewrite <- Hp.
Qed.


(** * Facts about the namespace caches *)

Section CacheFacts.
Variable cls : CacheClass.

Lemma elem_of_all_flags_from (db : Portage) (pkgs : list string)
  (acc : gset string) (t : string) :
  t ∈ foldl (fun flags p =>
               flags ∪ list_to_set
                         (_aux_parse cls (aux_get db p (aux_key cls))))
            acc pkgs
  <-> t ∈ acc \/ exists p, p ∈ pkgs /\
                  t ∈ _aux_parse cls (aux_get db p (aux_key cls)).
Proof.
  revert acc. induction pkgs as [|p pkgs IH]; intros acc; simpl.
  - split; [by left|]. intros [H|(p & Hp & _)]; [done|].
    by apply elem_of_nil in Hp.
  - rewrite IH, elem_of_union, elem_of_list_to_set. split.
    + intros [[H|H]|(q & Hq & H)]; [by left| |].
      * right. exists p. split; [constructor | done].
      * right. exists q. split; [by constructor | done].
    + intros [H|(q & Hq & H)]; [by left; left|].
      apply elem_of_cons in Hq as [->|Hq]; [by left; right|].
      right. by exists q.
Qed.

Lemma elem_of_all_flags (db : Portage) (pkgs : list string) (t : string) :
  t ∈ all_flags cls db pkgs
  <-> exists p, p ∈ pkgs /\ t ∈ _aux_parse cls (aux_get db p (aux_key cls)).
Proof.
  unfold all_flags. rewrite elem_of_all_flags_from. split; [|by right].
  intros [H|H]; [|done]. by apply not_elem_of_empty in H.
Qed.

Lemma coherent_init (db : Portage) : coherent cls db DBAPICache_init.
Proof. split; intros k v H; simpl in H; by rewrite lookup_empty in H. Qed.

Lemma coherent_ask (db : Portage) (q : query) (self : DBAPICache) :
  coherent cls db self -> coherent cls db (snd (ask cls db q self)).
Proof.
  intros [Hc He]. destruct q as [k|k|]; simpl.
  - unfold getitem. destruct (cache self !! Some k) eqn:E; [by split|].
    split; simpl; [|done]. intros k' v H.
    destruct (decide (k = k')) as [->|Hne].
    + rewrite lookup_insert_eq in H. by injection H as <-.
    + rewrite lookup_insert_ne in H by congruence. by apply Hc.
  - unfold get_effective.
    destruct (effective_cache self !! k) eqn:E; [by split|].
    destruct (xmatch_all db k) as [|p pkgs] eqn:X; simpl.
    all: split; simpl; [done|]; intros k' v H.
    all: destruct (decide (k = k')) as [->|Hne];
      [ rewrite lookup_insert_eq in H; injection H as <-; by rewrite X
      | rewrite lookup_insert_ne in H by done; by apply He ].
  - unfold glob. destruct (cache self !! None) eqn:E; [by split|].
    split; simpl; [|done]. intros k' v H.
    rewrite lookup_insert_ne in H by done. by apply Hc.
Qed.

Lemma coherent_run (db : Portage) (qs : list query) (self : DBAPICache) :
  coherent cls db self -> coherent cls db (run cls (history db qs) self).
Proof.
  revert self. induction qs as [|q qs IH]; intros self H; [done|].
  simpl. apply IH. by apply coherent_ask.
Qed.

Lemma getitem_coherent (db : Portage) (k : string) (self : DBAPICache) :
  coherent cls db self ->
  fst (getitem cls db k self) = all_flags cls db (xmatch_all db k).
Proof.
  intros [Hc _]. unfold getitem.
  destruct (cache self !! Some k) eqn:E; [|done]. by apply Hc.
Qed.

Lemma get_effective_coherent (db : Portage) (k : string) (self : DBAPICache) :
  coherent cls db self ->
  fst (get_effective cls db k self)
  = match xmatch_all db k with
    | _ :: _ =>
        list_to_set
          (_aux_parse cls
             (aux_get db (best db (xmatch_all db k)) (aux_key cls)))
    | [] => ∅
    end.
Proof.
  intros [_ He]. unfold get_effective.
  destruct (effective_cache self !! k) eqn:E; [by apply He|].
  by destruct (xmatch_all db k).
Qed.

(** A query that is cached is answered from the dictionary, and nothing
    else happens. *)
Lemma ask_hit (db : Portage) (q : query) (self : DBAPICache)
  (v : gset string) :
  cached q self = Some v -> ask cls db q self = (v, self).
Proof.
  destruct q as [k|k|]; simpl; intros H.
  - unfold getitem. by rewrite H.
  - unfold get_effective. by rewrite H.
  - unfold glob. by rewrite H.
Qed.

Lemma ask_cached (db : Portage) (q : query) (self : DBAPICache) :
  cached q (snd (ask cls db q self)) = Some (fst (ask cls db q self)).
Proof.
  destruct q as [k|k|]; simpl.
  - unfold getitem. destruct (cache self !! Some k) eqn:E; [done|].
    simpl. by rewrite lookup_insert_eq.
  - unfold get_effective. destruct (effective_cache self !! k) eqn:E; [done|].
    destruct (xmatch_all db k); simpl; by rewrite lookup_insert_eq.
  - unfold glob. destruct (cache self !! None) eqn:E; [done|].
    simpl. by rewrite lookup_insert_eq.
Qed.

(** No query removes or replaces a set that is cached. *)
Lemma ask_keeps (db : Portage) (q q' : query) (self : DBAPICache)
  (v : gset string) :
  cached q self = Some v -> cached q (snd (ask cls db q' self)) = Some v.
Proof.
  intros H. destruct q' as [k'|k'|]; simpl.
  - unfold getitem. destruct (cache self !! Some k') eqn:E; [done|].
    destruct q as [k|k|]; simpl in *; [|done|].
    + rewrite lookup_insert_ne; [done|]. intros [= ->]. congruence.
    + by rewrite lookup_insert_ne.
  - unfold get_effective.
    destruct (effective_cache self !! k') eqn:E; [done|].
    destruct (xmatch_all db k'); destruct q as [k|k|]; simpl in *; try done.
    all: rewrite lookup_insert_ne; [done|]; intros ->; congruence.
  - unfold glob. destruct (cache self !! None) eqn:E; [done|].
    destruct q as [k|k|]; simpl in *; [|done|].
    + by rewrite lookup_insert_ne.
    + congruence.
Qed.

Lemma run_keeps (ops : list (Portage * query)) (q : query)
  (self : DBAPICache) (v : gset string) :
  cached q self = Some v -> cached q (run cls ops self) = Some v.
Proof.
  revert self. induction ops as [|[db q'] ops IH]; intros self H; [done|].
  simpl. apply IH. by apply ask_keeps.
Qed.

(** For a cache of a subclass of [DBAPICache] that has only been queried
    against the catalog [db]: the set of [__getitem__] is the union over
    the matching versions, that of [get_effective] the tokens of the best
    one. *)
Lemma getitem_union_of_matches
  (db : Portage) (qs : list query) (k : string) :
  let self := run cls (history db qs) DBAPICache_init in
  (forall t, t ∈ fst (getitem cls db k self) <->
             exists p, p ∈ xmatch_all db k /\
                       t ∈ _aux_parse cls (aux_get db p (aux_key cls))) /\
  fst (get_effective cls db k self)
  = match xmatch_all db k with
    | _ :: _ =>
        list_to_set
          (_aux_parse cls
             (aux_get db (best db (xmatch_all db k)) (aux_key cls)))
    | [] => ∅
    end.
Proof.
  intros self.
  assert (H : coherent cls db self) by apply coherent_run, coherent_init.
  split.
  - intros t. rewrite (getitem_coherent _ _ _ H). apply elem_of_all_flags.
  - by apply get_effective_coherent.
Qed.

(** C7.  Once a query (the set of a package expression, its effective
    set, or the global set) has been answered by a cache, the same query
    made later, after any other queries and against any catalog, returns
    the same set and leaves the cache as it is, the list of the calls
    made to the catalog included: the set is not computed again and a
    change of the catalog is not seen. *)
Theorem memoized_set_is_never_recomputed
  (db1 db2 : Portage) (q : query) (self : DBAPICache)
  (ops : list (Portage * query)) :
  let first := ask cls db1 q self in
  let later := run cls ops (snd first) in
  ask cls db2 q later = (fst first, later) /\
  queries (snd (ask cls db2 q later)) = queries later.
Proof.
  intros first later.
  assert (H : ask cls db2 q later = (fst first, later))
    by apply ask_hit, run_keeps, ask_cached.
  by rewrite H.
Qed.

End CacheFacts.

(** The flag [bar] of the older version is possible for the package of
    the example, and not effective. *)
Example possible_wider_than_effective :
  let c := FlagCache (fun _ => ∅) in
  "bar" ∈ fst (getitem c example_db "dev-libs/foo" DBAPICache_init) /\
  "bar" ∉ fst (get_effective c example_db "dev-libs/foo" DBAPICache_init).
Proof.
  split.
  - vm_compute. done.
  - vm_compute. done.
Qed.

(** * Facts about the record store *)

(** ** Running the monad *)

Lemma bind_Ok {A B} (m : M A) (k : A -> M B) (st st' : State) (a : A) :
  m st = (Ok a, st') -> bind m k st = k a st'.
Proof. intros H. unfold bind. by rewrite H. Qed.

Lemma bind_Raise {A B} (m : M A) (k : A -> M B) (st st' : State) (e : exn) :
  m st = (Raise e, st') -> bind m k st = (Raise e, st').
Proof. intros H. unfold bind. by rewrite H. Qed.

Lemma State_eta (st : State) :
  {| heap := heap st; next := next st; fs := fs st; writes := writes st;
     store := store st |} = st.
Proof. by destruct st. Qed.

Lemma FS_eta (d : FS) :
  {| isdir := isdir d; glob_star := glob_star d; contents := contents d;
     garbled := garbled d |} = d.
Proof. by destruct d. Qed.

Lemma store_eta (s : PackageFileSet) :
  {| class := class s; _path := _path s; _files := _files s |} = s.
Proof. by destruct s. Qed.

Lemma set_files_same (st : State) :
  set_files (_files (store st)) st = (Ok tt, st).
Proof. unfold set_files. by rewrite store_eta, State_eta. Qed.

(** A loop keeps what every run of its body keeps. *)
Lemma for_each_inv {A} (I : State -> Prop) (body : A -> M unit) (l : list A) :
  (forall x st, x ∈ l -> I st -> I (snd (body x st))) ->
  forall st, I st -> I (snd (for_each l body st)).
Proof.
  induction l as [|x l IH]; intros Hb st Hst; [done|].
  simpl. unfold bind.
  pose proof (Hb x st ltac:(constructor) Hst) as H1.
  destruct (body x st) as [[[]|e] st1]; simpl in *; [|done].
  apply IH; [|done]. intros y st' Hy. apply Hb. by constructor.
Qed.

Lemma for_each_Ok {A} (I : State -> Prop) (body : A -> M unit) (l : list A) :
  (forall x st, x ∈ l -> I st ->
                fst (body x st) = Ok tt /\ I (snd (body x st))) ->
  forall st, I st ->
    fst (for_each l body st) = Ok tt /\ I (snd (for_each l body st)).
Proof.
  induction l as [|x l IH]; intros Hb st Hst; [done|].
  simpl. unfold bind.
  destruct (Hb x st ltac:(constructor) Hst) as [H1 H2].
  destruct (body x st) as [r st1]; simpl in *; subst r.
  apply IH; [|done]. intros y st' Hy. apply Hb. by constructor.
Qed.

(** ** The heap *)

Lemma deref_insert_eq (h : gmap nat Line) (r : nat) (o : Line) :
  deref (<[r := o]> h) r = o.
Proof. unfold deref. by rewrite lookup_insert_eq. Qed.

Lemma deref_insert_ne (h : gmap nat Line) (r r' : nat) (o : Line) :
  r <> r' -> deref (<[r := o]> h) r' = deref h r'.
Proof. intros H. unfold deref. by rewrite lookup_insert_ne. Qed.

Lemma is_Entry_Whitespace (h : gmap nat Line) (r : nat) :
  is_Entry h r = negb (is_Whitespace h r).
Proof. unfold is_Entry, is_Whitespace. by destruct (deref h r). Qed.

(** ** Parsing a line *)

Lemma flags_of_Ok (sl : list string) :
  Forall (fun t => t <> "") sl -> exists fs, flags_of sl = Ok fs.
Proof.
  induction 1 as [|x sl Hx _ [fs IH]]; simpl; [by eexists|].
  rewrite IH. destruct x as [|c x]; [done|]. simpl.
  destruct (_ || _); by eexists.
Qed.

Lemma PackageEntry_init_cases (l : string) :
  (exists e, PackageEntry_init l = Ok e /\ as_str e = l /\ modified e = false)
  \/ PackageEntry_init l = Raise InvalidPackageEntry.
Proof.
  unfold PackageEntry_init. pose proof (split_nonempty l) as H.
  destruct (split l) as [|p sl]; [by right|].
  destruct (startswith "#" p); [by right|].
  inversion H; subst. destruct (flags_of_Ok sl) as [fs ->]; [done|].
  left. by eexists.
Qed.

Lemma new_line_alloc (l : string) : new_line l = alloc (line_of l).
Proof.
  unfold new_line, line_of.
  destruct (PackageEntry_init_cases l) as [(e & -> & _)| ->]; done.
Qed.

Lemma line_of_toString (l : string) : Line_toString (line_of l) = l.
Proof.
  unfold line_of.
  destruct (PackageEntry_init_cases l) as [(e & -> & H1 & H2)| ->]; [|done].
  simpl. unfold PackageEntry_toString. by rewrite H2.
Qed.

Lemma line_of_modified (l : string) : Line_modified (line_of l) = false.
Proof.
  unfold line_of.
  destruct (PackageEntry_init_cases l) as [(e & -> & H1 & H2)| ->]; done.
Qed.

(** ** Loading a file *)

Lemma read_lines_spec (ls : list string) :
  forall st, exists h',
    read_lines ls st
    = (Ok (seq (next st) (length ls)),
       {| heap := h'; next := next st + length ls; fs := fs st;
          writes := writes st; store := store st |}) /\
    (forall r, r < next st -> h' !! r = heap st !! r) /\
    map (deref h') (seq (next st) (length ls)) = map line_of ls.
Proof.
  induction ls as [|l ls IH]; intros st.
  - exists (heap st). simpl. unfold ret. rewrite Nat.add_0_r, State_eta. done.
  - simpl read_lines. rewrite new_line_alloc.
    set (st1 := {| heap := <[next st := line_of l]> (heap st);
                   next := S (next st); fs := fs st; writes := writes st;
                   store := store st |}).
    destruct (IH st1) as (h' & Hrun & Hold & Hnew).
    exists h'. split; [|split].
    + unfold bind at 1. unfold alloc, bind, get, set_heap, ret. simpl.
      fold st1. unfold bind. rewrite Hrun. simpl.
      do 3 f_equal. lia.
    + intros r Hr. rewrite Hold by (simpl; lia). simpl.
      apply lookup_insert_ne. lia.
    + simpl. f_equal; [|done].
      unfold deref. rewrite Hold by (simpl; lia). simpl.
      by rewrite lookup_insert_eq.
Qed.

Lemma map_deref_agree (h h' : gmap nat Line) (n : nat) (l : list nat) :
  (forall r, r < n -> h' !! r = h !! r) ->
  Forall (fun r => r < n) l ->
  map (deref h') l = map (deref h) l.
Proof.
  intros Hh Hl. induction Hl as [|r l Hr _ IH]; [done|].
  simpl. rewrite IH. f_equal. unfold deref. by rewrite Hh.
Qed.

Lemma loaded_agree (d : FS) (h h' : gmap nat Line) (n : nat)
  (f : PackageFile) :
  (forall r, r < n -> h' !! r = h !! r) ->
  Forall (fun r => r < n) (items f) ->
  loaded d h f -> loaded d h' f.
Proof.
  intros Hh Hl [H1 H2]. split; [done|].
  by rewrite (map_deref_agree h h' n).
Qed.

Lemma PackageFile_init_spec (p : string) (st : State) :
  exists res h' n',
    PackageFile_init p st
    = (res, {| heap := h'; next := n'; fs := fs st; writes := writes st;
               store := store st |}) /\
    next st <= n' /\
    (forall r, r < next st -> h' !! r = heap st !! r) /\
    (can_open (fs st) p = true -> is_Ok res = true) /\
    match res with
    | Ok f => path f = p /\ loaded (fs st) h' f /\
              Forall (fun r => next st <= r < n') (items f)
    | Raise e => e = read_error (fs st) p
    end.
Proof.
  unfold PackageFile_init, can_open, read_error, open_read, bind, get.
  cbv beta.
  destruct (path_exists (fs st) p) eqn:Hex; cbn [negb]; cbv beta iota.
  - destruct (contents (fs st) !! p) as [text|] eqn:Hc.
    + unfold ret at 1. cbn [fst snd].
      destruct (read_lines_spec (readlines text) st) as (h' & -> & Hold & Hnew).
      exists (Ok {| path := p; _modified := false;
                    items := seq (next st) (length (readlines text)) |}),
        h', (next st + length (readlines text)).
      split; [done|]. split; [lia|]. split; [done|]. split; [done|].
      split; [done|]. split.
      * split; [done|]. simpl. unfold load_lines. by rewrite Hc.
      * simpl. apply Forall_forall. intros r Hr.
        apply elem_of_seq in Hr. lia.
    + destruct (garbled (fs st) !! p) as [text|] eqn:Hg.
      * unfold ret at 1. cbn [fst snd].
        destruct (read_lines_spec (readlines text) st)
          as (h' & -> & Hold & Hnew).
        exists (Raise UnicodeDecodeError), h',
          (next st + length (readlines text)).
        split; [done|]. split; [lia|]. split; [done|]. split; [|done].
        cbn [negb orb]. intros H. apply bool_decide_eq_true_1 in H.
        by destruct H as [x Hx].
      * exists (Raise IOError), (heap st), (next st).
        unfold raise. rewrite State_eta. split; [done|]. split; [lia|].
        split; [done|]. split; [|done].
        cbn [negb orb]. intros H. apply bool_decide_eq_true_1 in H.
        by destruct H as [x Hx].
  - exists (Ok {| path := p; _modified := false; items := [] |}),
      (heap st), (next st).
    unfold ret. rewrite State_eta. split; [done|]. split; [lia|].
    split; [done|]. split; [done|]. split; [done|]. split; [|constructor].
    split; [done|]. simpl. unfold load_lines.
    destruct (contents (fs st) !! p) eqn:Hc; [|done].
    unfold path_exists in Hex. rewrite Hc in Hex.
    rewrite (bool_decide_eq_true_2 (is_Some (Some _))) in Hex by eauto.
    by rewrite orb_true_r in Hex.
Qed.

Lemma read_loop_spec (paths : list string) :
  forall st, exists res h' n' F,
    for_each paths read_file st
    = (res, {| heap := h'; next := n'; fs := fs st; writes := writes st;
               store := {| class := class (store st);
                           _path := _path (store st);
                           _files := _files (store st) ++ F |} |}) /\
    next st <= n' /\
    (forall r, r < next st -> h' !! r = heap st !! r) /\
    Forall (fun f => loaded (fs st) h' f /\
                     Forall (fun r => next st <= r < n') (items f)) F /\
    (forallb (can_open (fs st)) paths = true ->
     res = Ok tt /\ map path F = paths) /\
    (forall e, res = Raise e -> e = IOError \/ e = UnicodeDecodeError).
Proof.
  induction paths as [|p paths IH]; intros st.
  - exists (Ok tt), (heap st), (next st), [].
    simpl. unfold ret. rewrite app_nil_r, store_eta, State_eta.
    repeat split; try done. 
  - simpl for_each. unfold bind at 1. unfold read_file at 1.
    destruct (PackageFile_init_spec p st)
      as (res & h1 & n1 & Hrun & Hle & Hold & Hok & Hres).
    unfold bind at 1. rewrite Hrun. destruct res as [f|e].
    + destruct Hres as (Hp & Hload & Hrefs).
      unfold bind at 1. unfold get, set_files. simpl.
      set (st1 := {| heap := h1; next := n1; fs := fs st;
                     writes := writes st;
                     store := {| class := class (store st);
                                 _path := _path (store st);
                                 _files := _files (store st) ++ [f] |} |}).
      destruct (IH st1)
        as (res & h' & n' & F & Hrun' & Hle' & Hold' & HF & Hok' & He).
      simpl in *.
      exists res, h', n', (f :: F). rewrite Hrun'.
      split; [by rewrite <- app_assoc|]. split; [lia|].
      split.
      { intros r Hr. rewrite Hold' by lia. by apply Hold. }
      split.
      { constructor.
        - split.
          + apply (loaded_agree _ h1 h' n1); [done| |done].
            eapply Forall_impl; [exact Hrefs|]. simpl. lia.
          + eapply Forall_impl; [exact Hrefs|]. simpl. lia.
        - eapply Forall_impl; [exact HF|]. simpl. intros g [Hg1 Hg2].
          split; [done|]. eapply Forall_impl; [exact Hg2|]. simpl. lia. }
      split; [|done].
      intros Hall. apply andb_prop in Hall as [H1 H2].
      destruct (Hok' H2) as [-> HpF]. split; [done|]. simpl. by rewrite Hp, HpF.
    + exists (Raise e), h1, n1, [].
      rewrite app_nil_r, store_eta. split; [done|]. split; [done|].
      split; [done|]. split; [constructor|]. split.
      * intros Hall. apply andb_prop in Hall as [H1 H2].
        by apply Hok in H1.
      * intros e' [= <-]. rewrite Hres. unfold read_error.
        destruct (garbled (fs st) !! p); [by right | by left].
Qed.

Lemma PackageFileSet_read_spec (st : State) :
  _files (store st) = [] ->
  exists res h' n' F,
    PackageFileSet_read st
    = (res, {| heap := h'; next := n'; fs := fs st; writes := writes st;
               store := {| class := class (store st);
                           _path := _path (store st); _files := F |} |}) /\
    next st <= n' /\
    (forall r, r < next st -> h' !! r = heap st !! r) /\
    Forall (fun f => loaded (fs st) h' f /\
                     Forall (fun r => next st <= r < n') (items f)) F /\
    (readable (fs st) (_path (store st)) = true ->
     res = Ok tt /\ map path F = read_paths (fs st) (_path (store st))) /\
    (forall e, res = Raise e -> e = IOError \/ e = UnicodeDecodeError).
Proof.
  intros Hnil. unfold PackageFileSet_read. unfold bind, get. rewrite Hnil.
  destruct (read_loop_spec (read_paths (fs st) (_path (store st))) st)
    as (res & h' & n' & F & Hrun & H).
  rewrite Hnil in Hrun. simpl in Hrun.
  exists res, h', n', F. split; [exact Hrun | exact H].
Qed.

Lemma read_paths_nonempty (d : FS) (p : string) : read_paths d p <> [].
Proof.
  unfold read_paths. destruct (isdir d p); [|done].
  by destruct (stable_sort String.ltb (glob_star d p)).
Qed.

(** ** Writing a file *)

Lemma kept_not_omitted (o : Line) :
  negb (Line_modified o) || Line_truth o = negb (omitted o).
Proof.
  destruct o as [d|e]; [done|]. simpl. unfold PackageEntry_len.
  by destruct (modified e), (length (flags e) =? 0).
Qed.

Lemma written_text_cons (h : gmap nat Line) (r : nat) (l : list nat) :
  written_text h (r :: l)
  = (if omitted (deref h r) then "" else Line_toString (deref h r))
      +:+ written_text h l.
Proof.
  unfold written_text. simpl. by destruct (omitted (deref h r)).
Qed.

Lemma set_text_same (p text : string) (st : State) :
  contents (fs st) !! p = Some text -> set_text p text st (writes st) = st.
Proof.
  intros H. unfold set_text. by rewrite insert_id, FS_eta, State_eta.
Qed.

Lemma write_loop_spec (p : string) (l : list nat) :
  forall st cur, contents (fs st) !! p = Some cur ->
    for_each l (write_line p) st
    = (Ok tt, set_text p (cur +:+ written_text (heap st) l) st (writes st)).
Proof.
  induction l as [|r l IH]; intros st cur Hc.
  - simpl. unfold ret, written_text. simpl.
    by rewrite append_nil_r, set_text_same.
  - simpl for_each. unfold bind at 1. unfold write_line at 1.
    unfold bind at 1. unfold get. cbv zeta.
    rewrite kept_not_omitted, written_text_cons.
    destruct (omitted (deref (heap st) r)); cbn [negb]; cbv beta iota.
    + unfold ret at 1. by rewrite (IH st cur).
    + unfold file_write. rewrite Hc. simpl default.
      rewrite (IH _ (cur +:+ Line_toString (deref (heap st) r))).
      * unfold set_text. simpl. rewrite insert_insert_eq, append_assoc. done.
      * simpl. by rewrite lookup_insert_eq.
Qed.

Lemma clear_loop_spec (l : list nat) :
  forall st,
    for_each l (fun r => update r (Line_set_modified false)) st
    = (Ok tt, {| heap := clear_modified l (heap st); next := next st;
                 fs := fs st; writes := writes st; store := store st |}).
Proof.
  induction l as [|r l IH]; intros st.
  - simpl. unfold ret. by rewrite State_eta.
  - simpl for_each. unfold bind at 1.
    unfold update at 1. unfold bind, get, set_heap. simpl.
    by rewrite IH.
Qed.

Lemma set_modified_false_idem (o : Line) :
  Line_set_modified false (Line_set_modified false o)
  = Line_set_modified false o.
Proof. by destruct o. Qed.

Lemma clear_modified_cons (x : nat) (l : list nat) (h : gmap nat Line) :
  clear_modified (x :: l) h
  = clear_modified l (<[x := Line_set_modified false (deref h x)]> h).
Proof. reflexivity. Qed.

Lemma deref_clear_modified (l : list nat) :
  forall h r,
    deref (clear_modified l h) r
    = if bool_decide (r ∈ l) then Line_set_modified false (deref h r)
      else deref h r.
Proof.
  induction l as [|x l IH]; intros h r; [done|].
  rewrite clear_modified_cons, IH. destruct (decide (x = r)) as [->|Hne].
  - rewrite deref_insert_eq, set_modified_false_idem.
    rewrite (bool_decide_eq_true_2 (r ∈ r :: l)) by constructor.
    by destruct (bool_decide (r ∈ l)).
  - rewrite deref_insert_ne by done.
    destruct (bool_decide (r ∈ l)) eqn:E.
    + apply bool_decide_eq_true_1 in E.
      rewrite bool_decide_eq_true_2; [done | by constructor].
    + apply bool_decide_eq_false_1 in E.
      rewrite bool_decide_eq_false_2; [done|].
      intros H. apply elem_of_cons in H as [?|?]; congruence.
Qed.

Lemma PackageFile_write_clean (f : PackageFile) (st : State) :
  PackageFile_modified (heap st) f = false ->
  PackageFile_write f st = (Ok f, st).
Proof.
  intros H. unfold PackageFile_write, bind, get. by rewrite H.
Qed.

Lemma PackageFile_write_dirty (f : PackageFile) (st : State) :
  PackageFile_modified (heap st) f = true ->
  PackageFile_write f st
  = (Ok (PackageFile_set_modified false f),
     {| heap := clear_modified (items f) (heap st); next := next st;
        fs := {| isdir := isdir (fs st); glob_star := glob_star (fs st);
                 contents := <[path f := written_text (heap st) (items f)]>
                               (contents (fs st));
                 garbled := garbled (fs st) |};
        writes := path f :: writes st; store := store st |}).
Proof.
  intros H. unfold PackageFile_write. unfold bind at 1. unfold get.
  rewrite H. cbn [negb]. cbv beta iota.
  unfold bind at 1. unfold open_write.
  unfold bind at 1.
  rewrite (write_loop_spec (path f) (items f) _ "")
    by (simpl; by rewrite lookup_insert_eq).
  unfold bind at 1. rewrite clear_loop_spec. unfold ret. simpl.
  by rewrite insert_insert_eq.
Qed.

(** ** The default keywords *)

Lemma startswith_char (c a : ascii) (r : string) :
  startswith (String a "") (String c r) = Ascii.eqb c a.
Proof.
  unfold startswith. simpl.
  destruct (ascii_dec a c) as [->|Hne].
  - rewrite Ascii.eqb_refl. by destruct r.
  - symmetry. apply Ascii.eqb_neq. congruence.
Qed.

Lemma defkw_default_flags (ak : string) :
  map (fun x => {| modifier := ""; name := x |}) (defkw_of ak)
  = default_flags ak.
Proof.
  unfold defkw_of, default_flags. rewrite map_map. f_equal.
  pose proof (split_nonempty ak) as H.
  induction H as [|x l Hx _ IH]; [done|]. simpl. rewrite IH.
  destruct x as [|c r]; [done|].
  change "~" with (String "~"%char ""). change "-" with (String "-"%char "").
  by rewrite !startswith_char.
Qed.

Lemma defkw_init (ak x : string) :
  x ∈ defkw_of ak -> PackageFlag_init x = Ok {| modifier := ""; name := x |}.
Proof.
  unfold defkw_of. intros H. apply list_elem_of_In, in_map_iff in H.
  by destruct H as (y & <- & _).
Qed.

Lemma append_step (e : nat) (x : string) (st : State) (en : PackageEntry) :
  PackageFlag_init x = Ok {| modifier := ""; name := x |} ->
  deref (heap st) e = Entry en ->
  (PackageEntry_append e x ;; ret tt) st
  = (Ok tt,
     {| heap := <[e := Entry (set_modified true
                                (set_flags
                                   (flags en
                                    ++ [{| modifier := ""; name := x |}])
                                   en))]> (heap st);
        next := next st; fs := fs st; writes := writes st;
        store := store st |}).
Proof.
  intros Hx Hen. unfold PackageEntry_append, update, bind, get, set_heap, ret.
  by rewrite Hen, Hx.
Qed.

Lemma append_loop_spec (e : nat) (kw : list string) :
  forall st en,
    (forall x, x ∈ kw ->
               PackageFlag_init x = Ok {| modifier := ""; name := x |}) ->
    deref (heap st) e = Entry en ->
    exists h',
      for_each kw (fun f => PackageEntry_append e f ;; ret tt) st
      = (Ok tt, {| heap := h'; next := next st; fs := fs st;
                   writes := writes st; store := store st |}) /\
      <[e := Entry {| as_str := as_str en; modified := false;
                      package := package en;
                      flags := flags en
                               ++ map (fun x => {| modifier := "";
                                                   name := x |}) kw |}]> h'
      = <[e := Entry {| as_str := as_str en; modified := false;
                        package := package en;
                        flags := flags en
                                 ++ map (fun x => {| modifier := "";
                                                     name := x |}) kw |}]>
          (heap st) /\
      (kw <> [] ->
       deref h' e
       = Entry {| as_str := as_str en; modified := true;
                  package := package en;
                  flags := flags en
                           ++ map (fun x => {| modifier := "";
                                               name := x |}) kw |}) /\
      (kw = [] -> h' = heap st).
Proof.
  induction kw as [|x kw IH]; intros st en Hkw Hen.
  - exists (heap st). simpl. unfold ret. rewrite State_eta. done.
  - simpl for_each. unfold bind at 1. cbv beta.
    rewrite (append_step e x st en) by (try apply Hkw; by try constructor).
    set (en1 := set_modified true
                  (set_flags (flags en ++ [{| modifier := ""; name := x |}])
                     en)).
    set (st1 := {| heap := <[e := Entry en1]> (heap st); next := next st;
                   fs := fs st; writes := writes st; store := store st |}).
    destruct (IH st1 en1) as (h' & Hrun & Hins & Hne & Hnil).
    { intros y Hy. apply Hkw. by constructor. }
    { simpl. by rewrite deref_insert_eq. }
    exists h'. rewrite Hrun. simpl in *. rewrite <- !app_assoc in *. simpl in *.
    split; [done|]. split.
    + by rewrite Hins, insert_insert_eq.
    + split; [|done]. intros _. destruct kw as [|y kw].
      * rewrite Hnil by done. by rewrite deref_insert_eq.
      * by apply Hne.
Qed.

Lemma set_defaults_spec (ak : string) (e : nat) (st : State) :
  set_defaults (defkw_of ak) e st
  = (Ok tt,
     {| heap := if negb (Line_truth (deref (heap st) e))
                then <[e := with_defaults ak (deref (heap st) e)]> (heap st)
                else heap st;
        next := next st; fs := fs st; writes := writes st;
        store := store st |}).
Proof.
  unfold set_defaults. unfold bind at 1. unfold get.
  destruct (deref (heap st) e) as [d|en] eqn:Hen; simpl.
  { unfold ret. by rewrite State_eta. }
  unfold PackageEntry_len. destruct (flags en) as [|f fl] eqn:Hfl; simpl.
  2: { unfold ret. by rewrite State_eta. }
  destruct (append_loop_spec e (defkw_of ak) st en)
    as (h' & Hrun & Hins & Hne & Hnil); [apply defkw_init | done |].
  unfold bind at 1. rewrite Hrun.
  unfold update, bind, get, set_heap. simpl. f_equal. f_equal.
  rewrite Hfl, defkw_default_flags in Hins, Hne. simpl in Hins, Hne.
  rewrite <- Hins. f_equal.
  destruct (decide (defkw_of ak = [])) as [Hkw|Hkw].
  - rewrite Hnil, Hen by done. simpl. unfold set_modified.
    by rewrite Hfl, <- defkw_default_flags, Hkw.
  - by rewrite Hne.
Qed.

Lemma defaults_loop_spec (ak : string) (l : list nat) :
  forall st,
    for_each l (set_defaults (defkw_of ak)) st
    = (Ok tt, {| heap := defaults_heap ak l (heap st); next := next st;
                 fs := fs st; writes := writes st; store := store st |}).
Proof.
  induction l as [|e l IH]; intros st.
  - simpl. unfold ret. by rewrite State_eta.
  - simpl for_each. unfold bind at 1. rewrite set_defaults_spec.
    by rewrite IH.
Qed.

Lemma with_defaults_idem (ak : string) (o : Line) :
  with_defaults ak (with_defaults ak o) = with_defaults ak o.
Proof.
  destruct o as [d|en]; [done|]. simpl.
  destruct (flags en) eqn:E; simpl; [|by rewrite E].
  by destruct (default_flags ak).
Qed.

Lemma with_defaults_truth (ak : string) (o : Line) :
  Line_truth o = true -> with_defaults ak o = o.
Proof.
  destruct o as [d|en]; [done|]. simpl. unfold PackageEntry_len.
  by destruct (flags en).
Qed.

Lemma defaults_heap_cons (ak : string) (e : nat) (l : list nat)
  (h : gmap nat Line) :
  defaults_heap ak (e :: l) h
  = defaults_heap ak l
      (if negb (Line_truth (deref h e))
       then <[e := with_defaults ak (deref h e)]> h else h).
Proof. reflexivity. Qed.

Lemma deref_defaults_heap (ak : string) (l : list nat) :
  forall h r,
    deref (defaults_heap ak l h) r
    = if bool_decide (r ∈ l) then with_defaults ak (deref h r)
      else deref h r.
Proof.
  induction l as [|e l IH]; intros h r; [done|].
  rewrite defaults_heap_cons, IH.
  assert (Hstep : forall r',
    deref (if negb (Line_truth (deref h e))
           then <[e := with_defaults ak (deref h e)]> h else h) r'
    = if decide (e = r') then with_defaults ak (deref h r') else deref h r').
  { intros r'. destruct (decide (e = r')) as [->|Hne].
    - destruct (Line_truth (deref h r')) eqn:T; simpl.
      + by rewrite with_defaults_truth.
      + by rewrite deref_insert_eq.
    - destruct (negb _); [by rewrite deref_insert_ne | done]. }
  rewrite Hstep. destruct (decide (e = r)) as [->|Hne].
  - rewrite (bool_decide_eq_true_2 (r ∈ r :: l)) by constructor.
    rewrite with_defaults_idem. by destruct (bool_decide _).
  - destruct (bool_decide (r ∈ l)) eqn:E.
    + apply bool_decide_eq_true_1 in E.
      rewrite bool_decide_eq_true_2; [done | by constructor].
    + apply bool_decide_eq_false_1 in E.
      rewrite bool_decide_eq_false_2; [done|].
      intros H. apply elem_of_cons in H as [?|?]; congruence.
Qed.

Lemma elem_of_iter_entries (h : gmap nat Line) (F : list PackageFile)
  (r : nat) :
  r ∈ iter_entries h F
  <-> is_Entry h r = true /\ exists f, f ∈ F /\ r ∈ items f.
Proof.
  unfold iter_entries. rewrite list_elem_of_In, in_concat. split.
  - intros (l & Hl & Hr). apply in_map_iff in Hl as (f & <- & Hf).
    apply filter_In in Hr as [Hr He]. split; [done|].
    exists f. rewrite !list_elem_of_In. split; [by apply in_rev|].
    by apply in_rev.
  - intros (He & f & Hf & Hr).
    apply list_elem_of_In in Hf. apply list_elem_of_In in Hr.
    exists (List.filter (is_Entry h) (rev (items f))). split.
    + apply in_map_iff. exists f. split; [done|]. by apply in_rev in Hf.
    + apply filter_In. split; [|done]. by apply in_rev in Hr.
Qed.

(** After the defaults are set, every line object of every file is the one
    that was read, with the defaults. *)
Lemma deref_defaults_files (ak : string) (h : gmap nat Line)
  (F : list PackageFile) (f : PackageFile) :
  f ∈ F ->
  map (deref (defaults_heap ak (iter_entries h F) h)) (items f)
  = map (with_defaults ak) (map (deref h) (items f)).
Proof.
  intros Hf. rewrite map_map. apply map_ext_in. intros r Hr.
  rewrite deref_defaults_heap.
  destruct (bool_decide (r ∈ iter_entries h F)) eqn:E; [done|].
  apply bool_decide_eq_false_1 in E. rewrite elem_of_iter_entries in E.
  destruct (is_Entry h r) eqn:He.
  - exfalso. apply E. split; [done|]. exists f. split; [done|].
    by apply list_elem_of_In.
  - unfold is_Entry in He. by destruct (deref h r).
Qed.

Lemma with_defaults_modified (ak l : string) :
  Line_modified (with_defaults ak (line_of l)) = false.
Proof.
  pose proof (line_of_modified l) as H.
  destruct (line_of l) as [d|en]; [done|]. simpl in *.
  by destruct (flags en).
Qed.

Lemma with_defaults_toString (ak l : string) :
  Line_toString (with_defaults ak (line_of l)) = l.
Proof.
  pose proof (line_of_toString l) as H. pose proof (line_of_modified l) as Hm.
  destruct (line_of l) as [d|en]; [done|]. simpl in *.
  destruct (flags en); [|done]. unfold PackageEntry_toString in *. simpl.
  by rewrite Hm in H.
Qed.

(** ** Reading a store *)

Lemma load_lines_text (d : FS) (p : string) (g : Line -> Line) :
  (forall l, Line_toString (g (line_of l)) = l) ->
  concat_text (map Line_toString (map g (load_lines d p)))
  = default "" (contents d !! p).
Proof.
  intros Hg. unfold load_lines. destruct (contents d !! p) as [text|]; [|done].
  simpl. rewrite <- (readlines_concat text) at 2.
  generalize (readlines text). intros ls.
  induction ls as [|l ls IH]; [done|]. simpl. by rewrite Hg, IH.
Qed.

Lemma load_lines_unmodified (d : FS) (p : string) (g : Line -> Line) :
  (forall l, Line_modified (g (line_of l)) = false) ->
  Forall (fun o => Line_modified o = false) (map g (load_lines d p)).
Proof.
  intros Hg. unfold load_lines. destruct (contents d !! p) as [text|];
    [|constructor].
  apply Forall_forall. intros o Ho.
  apply list_elem_of_In, in_map_iff in Ho as (o' & <- & Ho').
  apply in_map_iff in Ho' as (l & <- & _). apply Hg.
Qed.

Lemma as_read_raw_kept (c : Ctor) (d : FS) (h : gmap nat Line)
  (f : PackageFile) :
  as_read c d h f -> raw_kept d h f.
Proof.
  intros [Hm Hl]. split; [done|]. split.
  - rewrite <- (Forall_fmap (deref h) (fun o => Line_modified o = false)).
    unfold fmap, list_fmap. fold (map (deref h) (items f)). rewrite Hl.
    apply load_lines_unmodified. intros l.
    destruct c; simpl; [apply line_of_modified | apply with_defaults_modified].
  - rewrite <- (map_map (deref h) Line_toString), Hl.
    apply load_lines_text. intros l.
    destruct c; simpl; [apply line_of_toString | apply with_defaults_toString].
Qed.

Lemma loaded_as_read (p : string) (d : FS) (h : gmap nat Line)
  (f : PackageFile) :
  loaded d h f <-> as_read (New_PackageFileSet p) d h f.
Proof.
  unfold loaded, as_read. simpl. by rewrite map_id.
Qed.

Lemma raw_kept_clean (d : FS) (h : gmap nat Line) (f : PackageFile) :
  raw_kept d h f -> PackageFile_modified h f = false.
Proof.
  intros (Hm & Hl & _). unfold PackageFile_modified. rewrite Hm. simpl.
  induction Hl as [|r l Hr _ IH]; [done|]. simpl. by rewrite Hr.
Qed.

Lemma read_Base (st : State) :
  class (store st) = Base -> read st = PackageFileSet_read st.
Proof. intros H. unfold read, bind, get. by rewrite H. Qed.

Lemma read_Keywords (st : State) (kw : list string) :
  class (store st) = Keywords kw -> _files (store st) = [] ->
  read st
  = (PackageFileSet_read ;;
     st' <- get ;;
     for_each (iter_entries (heap st') (_files (store st')))
       (set_defaults kw)) st.
Proof.
  intros H Hnil. unfold read. unfold bind at 1. unfold get. rewrite H.
  unfold PackageKeywordsFileSet_read. unfold bind at 1. unfold get.
  by rewrite Hnil.
Qed.

Lemma read_spec (c : Ctor) (st : State) :
  store st = construct c ->
  exists res h' n' F,
    read st
    = (res, {| heap := h'; next := n'; fs := fs st; writes := writes st;
               store := {| class := class (store st);
                           _path := _path (store st); _files := F |} |}) /\
    Forall (raw_kept (fs st) h') F /\
    (readable (fs st) (_path (store st)) = true ->
     res = Ok tt /\ map path F = read_paths (fs st) (_path (store st)) /\
     Forall (as_read c (fs st) h') F).
Proof.
  intros Hs.
  destruct (PackageFileSet_read_spec st) as
    (res & h1 & n1 & F & Hrun & Hle & Hold & HF & Hok & He);
    [rewrite Hs; by destruct c|].
  destruct c as [p|p ak].
  - rewrite read_Base by (by rewrite Hs).
    exists res, h1, n1, F. split; [exact Hrun|]. split.
    + eapply Forall_impl; [exact HF|]. simpl. intros f [Hf _].
      by apply (as_read_raw_kept (New_PackageFileSet p)), loaded_as_read.
    + intros Hr. destruct (Hok Hr) as [-> Hp]. split; [done|]. split; [done|].
      eapply Forall_impl; [exact HF|]. simpl. intros f [Hf _].
      by apply loaded_as_read.
  - rewrite (read_Keywords st (defkw_of ak)) by (by rewrite Hs).
    unfold bind at 1. rewrite Hrun. destruct res as [[]|e].
    + unfold bind at 1. unfold get. cbv beta iota. simpl heap. simpl store.
      simpl _files. rewrite defaults_loop_spec. simpl.
      exists (Ok tt), (defaults_heap ak (iter_entries h1 F) h1), n1, F.
      split; [done|].
      assert (Has : Forall (as_read (New_PackageKeywordsFileSet p ak) (fs st)
                              (defaults_heap ak (iter_entries h1 F) h1)) F).
      { apply Forall_forall. intros f Hf.
        pose proof (proj1 (Forall_forall _ _) HF f Hf) as [[Hm Hl] _].
        split; [done|]. rewrite deref_defaults_files by done.
        simpl. by rewrite Hl. }
      split.
      * eapply Forall_impl; [exact Has|]. apply as_read_raw_kept.
      * intros Hr. destruct (Hok Hr) as [_ Hp]. done.
    + exists (Raise e), h1, n1, F. split; [done|]. split.
      * eapply Forall_impl; [exact HF|]. simpl. intros f [Hf _].
        by apply (as_read_raw_kept (New_PackageFileSet p)), loaded_as_read.
      * intros Hr. by destruct (Hok Hr) as [? _].
Qed.

(** ** Writing a store *)

Lemma write_loop_clean (l : list PackageFile) :
  forall st,
    Forall (fun f => PackageFile_modified (heap st) f = false) l ->
    for_each l (fun f => PackageFile_write f ;; ret tt) st = (Ok tt, st).
Proof.
  induction l as [|f l IH]; intros st Hl; [done|].
  inversion Hl; subst. simpl for_each. unfold bind at 1. unfold bind at 1.
  rewrite PackageFile_write_clean by done. unfold ret at 1. by apply IH.
Qed.

Lemma PackageFileSet_write_clean (st : State) :
  Forall (fun f => PackageFile_modified (heap st) f = false)
         (_files (store st)) ->
  PackageFileSet_write st = (Ok tt, with_files [] st).
Proof.
  intros H. unfold PackageFileSet_write, with_files. unfold bind at 1.
  unfold get. destruct (_files (store st)) as [|f l] eqn:E.
  - unfold ret. rewrite <- E, set_files_same. done.
  - unfold bind. by rewrite write_loop_clean.
Qed.

(** The example as read: one file of four line objects. *)
Example example_state_files :
  _files (store example_state) = [example_file].
Proof. vm_compute. reflexivity. Qed.

Example example_state_lines :
  map (deref (heap example_state)) [0; 1; 2; 3]
  = [Entry {| as_str := "dev-libs/foo +bar -baz
"; modified := false; package := "dev-libs/foo";
              flags := [{| modifier := "+"; name := "bar" |};
                        {| modifier := "-"; name := "baz" |}] |};
     Whitespace "# comment
"; Whitespace "
";
     Entry {| as_str := "dev-libs/foo qux
"; modified := false; package := "dev-libs/foo";
              flags := [{| modifier := ""; name := "qux" |}] |}].
Proof. vm_compute. reflexivity. Qed.

Lemma written_text_unmodified (h : gmap nat Line) (l : list nat) :
  Forall (fun r => Line_modified (deref h r) = false) l ->
  written_text h l = concat_text (map (fun r => Line_toString (deref h r)) l).
Proof.
  intros H. unfold written_text. f_equal. f_equal.
  induction H as [|r l Hr _ IH]; [done|]. simpl.
  rewrite IH. destruct (deref h r) as [d|e]; [done|]. simpl in *.
  by rewrite Hr.
Qed.

Lemma read_start (c : Ctor) (h : gmap nat Line) (n : nat) (d : FS) :
  exists res h' n' F,
    read (start h n d (construct c))
    = (res, {| heap := h'; next := n'; fs := d; writes := [];
               store := {| class := class (construct c);
                           _path := _path (construct c); _files := F |} |}) /\
    Forall (raw_kept d h') F /\
    (readable d (_path (construct c)) = true ->
     res = Ok tt /\ map path F = read_paths d (_path (construct c)) /\
     Forall (as_read c d h') F).
Proof. by apply (read_spec c (start h n d (construct c))). Qed.

(** C1.  A [PackageEntry] that is not modified serialises to the text it
    was read from.  Hence, for a store just read, of either class, and
    any of its files whose path holds a text: marking the file modified
    and writing it leaves that very text at its path, and the whole file
    system as it was.  The text of a record just parsed is the line it
    was parsed from. *)
Theorem unmodified_records_round_trip :
  (forall e : PackageEntry,
     modified e = false -> PackageEntry_toString e = as_str e) /\
  (forall (l : string) (e : PackageEntry),
     PackageEntry_init l = Ok e -> PackageEntry_toString e = l) /\
  (forall (c : Ctor) (h : gmap nat Line) (n : nat) (d : FS)
          (f : PackageFile) (text : string),
     let st := snd (read (start h n d (construct c))) in
     f ∈ _files (store st) ->
     contents d !! path f = Some text ->
     let st' := snd (PackageFile_write (PackageFile_set_modified true f) st) in
     contents (fs st') !! path f = Some text /\
     fs st' = d /\ writes st' = [path f]).
Proof.
  split.
  { intros e He. unfold PackageEntry_toString. by rewrite He. }
  split.
  { intros l e He.
    destruct (PackageEntry_init_cases l) as [(e' & He' & Hs & Hm)|He'];
      rewrite He in He'; [|done].
    injection He' as <-. unfold PackageEntry_toString. by rewrite Hm. }
  intros c h n d f text st Hf Htext st'.
  destruct (read_start c h n d) as (res & h' & n' & F & Hrun & Hraw & _).
  subst st st'. rewrite Hrun in *. simpl in Hf. simpl snd.
  pose proof (proj1 (Forall_forall _ _) Hraw f Hf) as (Hm & Hl & Hc).
  rewrite PackageFile_write_dirty by done. simpl.
  rewrite written_text_unmodified, Hc, Htext by done. simpl.
  split; [by rewrite lookup_insert_eq|]. split; [|done].
  rewrite insert_id by done. apply FS_eta.
Qed.

(** The round trip on the example: the last record serialises to its
    line, and the forced write leaves the text of the example. *)
Lemma unmodified_records_round_trip_witness :
  PackageEntry_toString
    {| as_str := "dev-libs/foo qux
"; modified := false; package := "dev-libs/foo";
       flags := [{| modifier := ""; name := "qux" |}] |}
  = "dev-libs/foo qux
" /\
  contents
    (fs (snd (PackageFile_write (PackageFile_set_modified true example_file)
                example_state))) !! "package.use"
  = Some example_text.
Proof.
  split.
  - apply (proj1 unmodified_records_round_trip). reflexivity.
  - apply (proj2 (proj2 unmodified_records_round_trip)
             (New_PackageFileSet "package.use") ∅ 0 example_fs example_file
             example_text).
    + vm_compute. apply list_elem_of_here.
    + reflexivity.
Defined.

(** C5.  Writing a file that is not modified does nothing; writing a
    store that has no files loaded does nothing; and writing a store that
    was read and not touched since opens no file for writing and leaves
    the file system as it was. *)
Theorem write_without_mutation_writes_nothing :
  (forall (f : PackageFile) (st : State),
     PackageFile_modified (heap st) f = false ->
     PackageFile_write f st = (Ok f, st)) /\
  (forall st : State,
     _files (store st) = [] -> PackageFileSet_write st = (Ok tt, st)) /\
  (forall (c : Ctor) (h : gmap nat Line) (n : nat) (d : FS),
     let st := snd (read (start h n d (construct c))) in
     PackageFileSet_write st = (Ok tt, with_files [] st) /\
     fs (with_files [] st) = d /\ writes (with_files [] st) = []).
Proof.
  split; [exact PackageFile_write_clean|]. split.
  - intros st H. rewrite PackageFileSet_write_clean by (rewrite H; constructor).
    unfold with_files. by rewrite <- H, set_files_same.
  - intros c h n d st.
    destruct (read_start c h n d) as (res & h' & n' & F & Hrun & Hraw & _).
    subst st. rewrite Hrun. simpl snd. split; [|done].
    apply PackageFileSet_write_clean. simpl.
    eapply Forall_impl; [exact Hraw|]. apply raw_kept_clean.
Qed.

(** On the example: the file just read is written without effect, and so
    is the store that has not been read yet. *)
Lemma write_without_mutation_witness :
  PackageFile_write example_file example_state
  = (Ok example_file, example_state)
  /\ PackageFileSet_write
       (start ∅ 0 example_fs (PackageFileSet_init "package.use"))
     = (Ok tt, start ∅ 0 example_fs (PackageFileSet_init "package.use")).
Proof.
  split.
  - apply (proj1 write_without_mutation_writes_nothing). reflexivity.
  - apply (proj1 (proj2 write_without_mutation_writes_nothing)). reflexivity.
Defined.

(** C4.  When a keyword store is read, every record without flags gets as
    flags the tokens of the accepted-keywords list that start with neither
    [~] nor [-], each with [~] before it; every other line object is as it
    was read.  No line object and no file is modified afterwards, and
    writing the store opens no file and leaves the file system as it
    was. *)
Theorem keyword_defaults_do_not_dirty
  (p accept_keywords : string) (h : gmap nat Line) (n : nat) (d : FS) :
  readable d p = true ->
  let c := New_PackageKeywordsFileSet p accept_keywords in
  let st := snd (read (start h n d (construct c))) in
  fst (read (start h n d (construct c))) = Ok tt /\
  map path (_files (store st)) = read_paths d p /\
  (forall f, f ∈ _files (store st) ->
     map (deref (heap st)) (items f)
     = map (with_defaults accept_keywords) (load_lines d (path f)) /\
     Forall (fun r => Line_modified (deref (heap st) r) = false) (items f) /\
     PackageFile_modified (heap st) f = false) /\
  PackageFileSet_write st = (Ok tt, with_files [] st) /\
  fs (with_files [] st) = d /\ writes (with_files [] st) = [].
Proof.
  intros Hr c st.
  destruct (read_start c h n d) as (res & h' & n' & F & Hrun & Hraw & Hok).
  destruct (Hok Hr) as (-> & Hp & Has).
  subst st. rewrite Hrun. simpl fst. simpl snd. simpl store. simpl _files.
  simpl heap. split; [done|]. split; [done|]. split.
  - intros f Hf.
    pose proof (proj1 (Forall_forall _ _) Has f Hf) as [_ Hl].
    pose proof (proj1 (Forall_forall _ _) Hraw f Hf) as Hk.
    split; [done|]. split; [apply Hk | by apply (raw_kept_clean d)].
  - split; [|done]. apply PackageFileSet_write_clean. simpl.
    eapply Forall_impl; [exact Hraw|]. apply raw_kept_clean.
Qed.

(** C9.  A file-level write of a modified file leaves at the path of the
    file the texts of its line objects, one after the other, where a
    record that is modified and has no flags contributes nothing, a
    record that is modified and has flags contributes its expression and
    flags joined by spaces and a line feed, and every unmodified record,
    with or without flags, and every passthrough line contributes its raw
    text. *)
Theorem write_omits_dirty_records_without_flags
  (f : PackageFile) (st : State) :
  PackageFile_modified (heap st) f = true ->
  let st' := snd (PackageFile_write f st) in
  contents (fs st') !! path f = Some (written_text (heap st) (items f)) /\
  (forall r l,
     written_text (heap st) (r :: l)
     = match deref (heap st) r with
       | Whitespace data => data +:+ written_text (heap st) l
       | Entry e =>
           if modified e
           then match flags e with
                | [] => written_text (heap st) l
                | _ :: _ =>
                    join " " (package e :: map PackageFlag_toString (flags e))
                      +:+ String LF "" +:+ written_text (heap st) l
                end
           else as_str e +:+ written_text (heap st) l
       end).
Proof.
  intros Hm st'. subst st'. rewrite PackageFile_write_dirty by done. simpl.
  split; [by rewrite lookup_insert_eq|].
  intros r l. rewrite written_text_cons.
  destruct (deref (heap st) r) as [d|e]; [done|]. simpl.
  unfold PackageEntry_toString.
  destruct (modified e); simpl; [|done].
  destruct (flags e); simpl; [done|]. by rewrite append_assoc.
Qed.

(** ** Iterating over the entries *)

Lemma files_loaded (st : State) :
  _files (store st) <> [] -> files st = (Ok (_files (store st)), st).
Proof.
  intros H. unfold files, bind, get, ret.
  destruct (_files (store st)) eqn:E; [done|]. by rewrite E.
Qed.

Lemma filter_filter_implied {A} (p q : A -> bool) (l : list A) :
  (forall x, p x = true -> q x = true) ->
  List.filter p (List.filter q l) = List.filter p l.
Proof.
  intros H. induction l as [|x l IH]; [done|]. simpl.
  destruct (q x) eqn:Q; simpl.
  - by rewrite IH.
  - rewrite IH. destruct (p x) eqn:P; [|done].
    apply H in P. congruence.
Qed.

Lemma filter_eq_rev {A} (p : A -> bool) (l : list A) :
  List.filter p (rev l) = rev (List.filter p l).
Proof.
  induction l as [|x l IH]; [done|]. simpl.
  rewrite List.filter_app, IH. simpl. destruct (p x); simpl; [done|].
  by rewrite app_nil_r.
Qed.

Lemma filter_eq_concat {A} (p : A -> bool) (ls : list (list A)) :
  List.filter p (concat ls) = concat (map (List.filter p) ls).
Proof.
  induction ls as [|l ls IH]; [done|]. simpl.
  by rewrite List.filter_app, IH.
Qed.

Lemma rev_concat_map {A} (ls : list (list A)) :
  rev (concat ls) = concat (map (@rev A) (rev ls)).
Proof.
  induction ls as [|l ls IH]; [done|]. simpl.
  rewrite rev_app_distr, IH, map_app, concat_app. simpl.
  by rewrite app_nil_r.
Qed.

Lemma is_record_of_Entry (h : gmap nat Line) (pkg : string) (r : nat) :
  is_record_of h pkg r = true -> is_Entry h r = true.
Proof. unfold is_record_of, is_Entry. by destruct (deref h r). Qed.

Lemma iter_entries_rev (h : gmap nat Line) (F : list PackageFile) :
  iter_entries h F
  = rev (List.filter (is_Entry h) (concat (map items F))).
Proof.
  unfold iter_entries.
  rewrite filter_eq_concat, rev_concat_map, !map_map, <- map_rev.
  rewrite map_map. f_equal. apply map_ext. intros f. apply filter_eq_rev.
Qed.

Lemma getitem_spec (pkg : string) (st : State) :
  _files (store st) <> [] ->
  PackageFileSet_getitem pkg st
  = (Ok (rev (List.filter (is_record_of (heap st) pkg)
                (concat (map items (_files (store st)))))), st).
Proof.
  intros H. unfold PackageFileSet_getitem. unfold bind at 1.
  rewrite files_loaded by done. unfold bind, get, ret. f_equal. f_equal.
  change (fun r => match deref (heap st) r with
                   | Whitespace _ => false
                   | Entry e => String.eqb pkg (package e)
                   end) with (is_record_of (heap st) pkg).
  rewrite iter_entries_rev, filter_eq_rev.
  rewrite filter_filter_implied by apply is_record_of_Entry. done.
Qed.

(** C3.  For a loaded store, the entries for a package expression are
    yielded file by file from the last file to the first and, within a
    file, from the last record to the first: the sequence is the reverse
    of the matching records in declaration order, so that of two matching
    records the one declared later is yielded first. *)
Theorem entries_most_recently_declared_first (pkg : string) (st : State) :
  _files (store st) <> [] ->
  let declared := concat (map items (_files (store st))) in
  exists yielded,
    PackageFileSet_getitem pkg st = (Ok yielded, st) /\
    yielded
    = concat (map (fun f => rev (List.filter (is_record_of (heap st) pkg)
                                   (items f)))
                  (rev (_files (store st)))) /\
    yielded = rev (List.filter (is_record_of (heap st) pkg) declared) /\
    (forall r1 r2 pre mid post,
       declared = pre ++ r1 :: mid ++ r2 :: post ->
       is_record_of (heap st) pkg r1 = true ->
       is_record_of (heap st) pkg r2 = true ->
       exists a b c, yielded = a ++ r2 :: b ++ r1 :: c).
Proof.
  intros H declared. eexists. split; [by apply getitem_spec|].
  fold declared. split; [|split; [done|]].
  - unfold declared.
    rewrite filter_eq_concat, rev_concat_map, !map_map, <- map_rev.
    by rewrite map_map.
  - intros r1 r2 pre mid post Hd H1 H2. rewrite Hd.
    rewrite List.filter_app. simpl. rewrite H1.
    rewrite List.filter_app. simpl. rewrite H2.
    set (p := is_record_of (heap st) pkg).
    exists (rev (List.filter p post)), (rev (List.filter p mid)),
      (rev (List.filter p pre)).
    rewrite rev_app_distr. simpl. rewrite rev_app_distr. simpl.
    by rewrite <- !app_assoc.
Qed.

(** On the example, the record with [qux], declared last, comes first. *)
Lemma entries_most_recently_declared_first_witness :
  exists yielded,
    PackageFileSet_getitem "dev-libs/foo" example_state
    = (Ok yielded, example_state) /\ yielded = [3; 0].
Proof.
  destruct (entries_most_recently_declared_first "dev-libs/foo" example_state)
    as (yielded & Hrun & _ & Hy & _).
  - vm_compute. discriminate.
  - exists yielded. split; [exact Hrun|]. rewrite Hy. vm_compute. reflexivity.
Defined.

(** ** Sorting *)

Lemma drop_whitespace_from (h : gmap nat Line) (l : list nat) :
  forall pre,
    Forall (fun r => is_Whitespace h r = false) pre ->
    foldl (fun cur e =>
             match cur with
             | Raise x => Raise x
             | Ok c =>
                 if is_Whitespace h e
                 then match list_remove (Nat.eqb e) c with
                      | Some c' => Ok c'
                      | None => Raise ValueError
                      end
                 else Ok c
             end)
          (Ok (pre ++ l)) l
    = Ok (pre ++ List.filter (is_Entry h) l).
Proof.
  induction l as [|e l IH]; intros pre Hpre; [done|].
  simpl. rewrite is_Entry_Whitespace.
  destruct (is_Whitespace h e) eqn:E; simpl.
  - rewrite list_remove_app.
    + by apply IH.
    + eapply Forall_impl; [exact Hpre|]. simpl. intros y Hy.
      apply Nat.eqb_neq. intros ->. congruence.
    + apply Nat.eqb_refl.
  - rewrite (cons_middle e pre l), app_assoc.
    rewrite IH; [by rewrite <- app_assoc|].
    apply Forall_app. split; [done | by constructor].
Qed.

Lemma drop_whitespace_spec (h : gmap nat Line) (l : list nat) :
  drop_whitespace h l = Ok (List.filter (is_Entry h) l).
Proof. apply (drop_whitespace_from h l []). constructor. Qed.

Lemma ref_lt_package_of (h : gmap nat Line) (r r' : nat) :
  is_Entry h r = true -> is_Entry h r' = true ->
  ref_lt h r r' = String.ltb (package_of h r) (package_of h r').
Proof.
  unfold is_Entry, ref_lt, package_of.
  by destruct (deref h r), (deref h r').
Qed.

Lemma is_record_of_package_of (h : gmap nat Line) (pkg : string) (r : nat) :
  is_Entry h r = true ->
  is_record_of h pkg r = String.eqb pkg (package_of h r).
Proof.
  unfold is_Entry, is_record_of, package_of. by destruct (deref h r).
Qed.

Lemma filter_ext_Forall {A} (p q : A -> bool) (l : list A) :
  Forall (fun x => p x = q x) l -> List.filter p l = List.filter q l.
Proof.
  induction 1 as [|x l Hx _ IH]; [done|]. simpl. by rewrite Hx, IH.
Qed.

Lemma Forall_filter_true {A} (p : A -> bool) (l : list A) :
  Forall (fun x => p x = true) (List.filter p l).
Proof.
  apply Forall_forall. intros x Hx.
  by apply list_elem_of_In, filter_In in Hx as [_ ?].
Qed.

Lemma PackageFile_sort_spec (h : gmap nat Line) (f : PackageFile) :
  exists f',
    PackageFile_sort h f = Ok f' /\
    path f' = path f /\ _modified f' = true /\
    items f' ≡ₚ List.filter (is_Entry h) (items f) /\
    Sorted (fun r r' =>
              String.leb (package_of h r) (package_of h r') = true)
           (items f') /\
    (forall pkg,
       List.filter (is_record_of h pkg) (items f')
       = List.filter (is_record_of h pkg) (items f)).
Proof.
  unfold PackageFile_sort. rewrite drop_whitespace_spec.
  eexists. split; [done|]. simpl. split; [done|]. split; [done|].
  set (l := List.filter (is_Entry h) (items f)).
  assert (Hl : Forall (fun r => is_Entry h r = true) l)
    by apply Forall_filter_true.
  assert (Hs : stable_sort (ref_lt h) l
               = stable_sort (fun a b => String.ltb (package_of h a)
                                           (package_of h b)) l).
  { apply stable_sort_ext. intros x y Hx Hy.
    apply ref_lt_package_of; by apply (proj1 (Forall_forall _ _) Hl). }
  rewrite Hs. split; [apply stable_sort_perm|].
  split; [apply (stable_sort_Sorted (package_of h))|].
  intros pkg.
  rewrite <- (filter_filter_implied (is_record_of h pkg) (is_Entry h)
                (items f)) by apply is_record_of_Entry.
  fold l.
  rewrite (filter_ext_Forall (is_record_of h pkg)
             (fun r => String.eqb pkg (package_of h r)) l).
  2: { eapply Forall_impl; [exact Hl|]. simpl. intros r.
       apply is_record_of_package_of. }
  rewrite <- (stable_sort_filter (package_of h) pkg l).
  apply filter_ext_Forall.
  assert (Hl' : Forall (fun r => is_Entry h r = true)
                  (stable_sort (fun a b => String.ltb (package_of h a)
                                             (package_of h b)) l)).
  { by rewrite (stable_sort_perm (package_of h) l). }
  eapply Forall_impl; [exact Hl'|]. simpl. intros r.
  apply is_record_of_package_of.
Qed.




(** ** Removing a record *)

Lemma holds_false (r : nat) (f : PackageFile) :
  holds r f = false
  <-> Forall (fun y => Line_eq (PkgRef r) y = false) (items f).
Proof.
  unfold holds. simpl. induction (items f) as [|y l IH]; simpl.
  - split; [constructor | done].
  - rewrite orb_false_iff, IH, Forall_cons, (Nat.eqb_sym r y). done.
Qed.

Lemma remove_loop_absent (pkg : PkgArg) (l : list PackageFile) (found : bool) :
  Forall (fun f => Forall (fun y => Line_eq pkg y = false) (items f)) l ->
  remove_loop pkg l found = (l, found).
Proof.
  induction 1 as [|f l Hf _ IH]; [done|]. simpl.
  apply list_remove_None in Hf. by rewrite Hf, IH.
Qed.

Lemma remove_loop_spec (r : nat) (l : list PackageFile) :
  forall found, exists l',
    remove_loop (PkgRef r) l found = (l', found || existsb (holds r) l) /\
    Forall2
      (fun f f' =>
         path f' = path f /\
         ((holds r f = false /\ f' = f) \/
          (exists l1 l2,
             items f = l1 ++ r :: l2 /\ (r ∉ l1) /\
             items f' = l1 ++ l2 /\ _modified f' = true)))
      l l'.
Proof.
  induction l as [|f l IH]; intros found.
  - exists []. simpl. by rewrite orb_false_r.
  - simpl. destruct (list_remove (Line_eq (PkgRef r)) (items f)) as [it|] eqn:E.
    + destruct (IH true) as (l' & -> & Hall).
      apply list_remove_Some in E as (l1 & x & l2 & Hi & -> & Hx & Hl1).
      simpl in Hx. apply Nat.eqb_eq in Hx as ->.
      assert (Hh : holds r f = true).
      { unfold holds. rewrite Hi, existsb_app. simpl.
        by rewrite Nat.eqb_refl, orb_true_r. }
      eexists. split.
      * f_equal. simpl existsb. rewrite Hh. simpl. by rewrite orb_true_r.
      * constructor; [|done]. simpl. split; [done|]. right.
        exists l1, l2. split; [done|]. split; [|done].
        intros Hin. apply (proj1 (Forall_forall _ _) Hl1) in Hin.
        simpl in Hin. by rewrite Nat.eqb_refl in Hin.
    + destruct (IH found) as (l' & -> & Hall).
      apply list_remove_None in E. apply holds_false in E. rewrite E.
      eexists. split; [done|]. constructor; [|done]. split; [done|].
      by left.
Qed.

Lemma remove_by_string (s : string) (st : State) :
  _files (store st) <> [] ->
  PackageFileSet_remove (PkgStr s) st = (Raise ValueError, st).
Proof.
  intros H. unfold PackageFileSet_remove. unfold bind at 1.
  rewrite files_loaded by done.
  rewrite remove_loop_absent.
  - unfold bind. by rewrite set_files_same.
  - apply Forall_forall. intros f _. apply Forall_forall. by intros y _.
Qed.

Lemma remove_by_ref (r : nat) (st : State) :
  _files (store st) <> [] ->
  exists l',
    PackageFileSet_remove (PkgRef r) st
    = ((if existsb (holds r) (_files (store st))
        then Ok tt else Raise ValueError), with_files l' st) /\
    Forall2
      (fun f f' =>
         path f' = path f /\
         ((holds r f = false /\ f' = f) \/
          (exists l1 l2,
             items f = l1 ++ r :: l2 /\ (r ∉ l1) /\
             items f' = l1 ++ l2 /\ _modified f' = true)))
      (_files (store st)) l'.
Proof.
  intros H. destruct (remove_loop_spec r (_files (store st)) false)
    as (l' & Hrun & Hall).
  exists l'. split; [|done].
  unfold PackageFileSet_remove. unfold bind at 1.
  rewrite files_loaded by done. rewrite Hrun. simpl orb.
  unfold bind, with_files, set_files, ret, raise. simpl.
  by destruct (existsb (holds r) (_files (store st))).
Qed.

Lemma remove_loop_app (pkg : PkgArg) (l1 l2 : list PackageFile) (found : bool) :
  remove_loop pkg (l1 ++ l2) found
  = (fst (remove_loop pkg l1 found)
       ++ fst (remove_loop pkg l2 (snd (remove_loop pkg l1 found))),
     snd (remove_loop pkg l2 (snd (remove_loop pkg l1 found)))).
Proof.
  revert found. induction l1 as [|f l1 IH]; intros found; simpl.
  - by destruct (remove_loop pkg l2 found).
  - destruct (list_remove (Line_eq pkg) (items f)).
    + rewrite IH. by destruct (remove_loop pkg l1 true).
    + rewrite IH. by destruct (remove_loop pkg l1 found).
Qed.

Lemma absent_below (n : nat) (l : list nat) :
  Forall (fun r => r < n) l ->
  Forall (fun y => Line_eq (PkgRef n) y = false) l.
Proof.
  intros H. eapply Forall_impl; [exact H|]. simpl. intros y Hy.
  apply Nat.eqb_neq. lia.
Qed.

Lemma append_str_spec (s : string) (e : PackageEntry) (st : State)
  (init : list PackageFile) (fl : PackageFile) :
  _files (store st) = init ++ [fl] ->
  PackageEntry_init s = Ok e ->
  PackageFileSet_append (PkgStr s) st
  = (Ok (next st),
     {| heap := <[next st := Entry (set_modified true e)]> (heap st);
        next := S (next st); fs := fs st; writes := writes st;
        store := {| class := class (store st); _path := _path (store st);
                    _files := init
                              ++ [{| path := path fl;
                                     _modified := _modified fl;
                                     items := items fl ++ [next st] |}] |} |}).
Proof.
  intros HF He. unfold PackageFileSet_append. unfold bind at 1.
  rewrite files_loaded by (rewrite HF; by destruct init).
  rewrite HF, last_snoc, He.
  unfold alloc, update, bind, get, set_heap, set_files, ret. simpl.
  rewrite HF, removelast_last, deref_insert_eq, insert_insert_eq. done.
Qed.

Lemma append_remove_remove (s : string) (e : PackageEntry) (st : State) :
  _files (store st) <> [] -> fresh_next st ->
  PackageEntry_init s = Ok e ->
  fst ((r <- PackageFileSet_append (PkgStr s) ;;
        PackageFileSet_remove (PkgRef r)) st) = Ok tt /\
  fst ((r <- PackageFileSet_append (PkgStr s) ;;
        PackageFileSet_remove (PkgRef r) ;;
        PackageFileSet_remove (PkgRef r)) st) = Raise ValueError.
Proof.
  intros Hne Hfresh He.
  destruct (exists_last Hne) as (init & fl & HF).
  unfold fresh_next in Hfresh. rewrite HF in Hfresh.
  apply Forall_app in Hfresh as [Hinit Hfl].
  apply Forall_cons in Hfl as [Hfl _].
  pose proof (append_str_spec s e st init fl HF He) as Happ.
  set (n := next st) in *.
  assert (Hloop : forall fl2 h2 n2,
    PackageFileSet_remove (PkgRef n)
      {| heap := h2; next := n2; fs := fs st; writes := writes st;
         store := {| class := class (store st); _path := _path (store st);
                     _files := init ++ [{| path := path fl;
                                           _modified := fl2;
                                           items := items fl ++ [n] |}] |} |}
    = (Ok tt,
       {| heap := h2; next := n2; fs := fs st; writes := writes st;
          store := {| class := class (store st); _path := _path (store st);
                      _files := init ++ [{| path := path fl;
                                            _modified := true;
                                            items := items fl |}] |} |})).
  { intros fl2 h2 n2. unfold PackageFileSet_remove. unfold bind at 1.
    rewrite files_loaded by (simpl; by destruct init). cbn [_files store].
    rewrite remove_loop_app, remove_loop_absent.
    2: { eapply Forall_impl; [exact Hinit|]. simpl. intros f.
         apply absent_below. }
    simpl. rewrite list_remove_app.
    - rewrite app_nil_r. done.
    - by apply absent_below.
    - simpl. apply Nat.eqb_refl. }
  assert (Hgone : forall h2 n2,
    PackageFileSet_remove (PkgRef n)
      {| heap := h2; next := n2; fs := fs st; writes := writes st;
         store := {| class := class (store st); _path := _path (store st);
                     _files := init ++ [{| path := path fl;
                                           _modified := true;
                                           items := items fl |}] |} |}
    = (Raise ValueError,
       {| heap := h2; next := n2; fs := fs st; writes := writes st;
          store := {| class := class (store st); _path := _path (store st);
                      _files := init ++ [{| path := path fl;
                                            _modified := true;
                                            items := items fl |}] |} |})).
  { intros h2 n2. unfold PackageFileSet_remove. unfold bind at 1.
    rewrite files_loaded by (simpl; by destruct init). cbn [_files store].
    rewrite remove_loop_absent; [done|].
    apply Forall_app. split.
    - eapply Forall_impl; [exact Hinit|]. simpl. intros f. apply absent_below.
    - constructor; [|done]. simpl. by apply absent_below. }
  split.
  - unfold bind at 1. rewrite Happ. by rewrite Hloop.
  - unfold bind at 1. rewrite Happ. unfold bind at 1. rewrite Hloop.
    by rewrite Hgone.
Qed.

(** C2, amended.  On a loaded store [remove] takes a record object: given
    a package expression (a string) it fails with [ValueError] and changes
    nothing; given a reference it takes the first occurrence of that very
    object out of every file that holds it, marks those files modified,
    and fails with [ValueError] when no file holds it.  After
    [r = append(P)], [remove(r)] succeeds and a second [remove(r)]
    fails with [ValueError]. *)
Theorem remove_takes_out_the_given_record_object (st : State) :
  _files (store st) <> [] ->
  (forall s : string,
     PackageFileSet_remove (PkgStr s) st = (Raise ValueError, st)) /\
  (forall r : nat,
     exists l',
       PackageFileSet_remove (PkgRef r) st
       = ((if existsb (holds r) (_files (store st))
           then Ok tt else Raise ValueError), with_files l' st) /\
       Forall2
         (fun f f' =>
            path f' = path f /\
            ((holds r f = false /\ f' = f) \/
             (exists l1 l2,
                items f = l1 ++ r :: l2 /\ (r ∉ l1) /\
                items f' = l1 ++ l2 /\ _modified f' = true)))
         (_files (store st)) l') /\
  (forall (s : string) (e : PackageEntry),
     fresh_next st -> PackageEntry_init s = Ok e ->
     fst ((r <- PackageFileSet_append (PkgStr s) ;;
           PackageFileSet_remove (PkgRef r)) st) = Ok tt /\
     fst ((r <- PackageFileSet_append (PkgStr s) ;;
           PackageFileSet_remove (PkgRef r) ;;
           PackageFileSet_remove (PkgRef r)) st) = Raise ValueError).
Proof.
  intros H. split; [|split].
  - intros s. by apply remove_by_string.
  - intros r. by apply remove_by_ref.
  - intros s e Hf He. by apply (append_remove_remove s e).
Qed.

(** On the example: [remove] of a package expression fails, and so does
    the second [remove] of a record just appended. *)
Lemma remove_takes_out_the_given_record_object_witness :
  PackageFileSet_remove (PkgStr "dev-libs/foo") example_state
  = (Raise ValueError, example_state) /\
  fst ((r <- PackageFileSet_append (PkgStr "dev-libs/foo baz") ;;
        PackageFileSet_remove (PkgRef r) ;;
        PackageFileSet_remove (PkgRef r)) example_state) = Raise ValueError.
Proof.
  assert (H : _files (store example_state) <> []) by (vm_compute; discriminate).
  split.
  - apply (proj1 (remove_takes_out_the_given_record_object example_state H)).
  - apply (proj2 (proj2 (remove_takes_out_the_given_record_object
                           example_state H))
             "dev-libs/foo baz"
             {| as_str := "dev-libs/foo baz"; modified := false;
                package := "dev-libs/foo";
                flags := [{| modifier := ""; name := "baz" |}] |}).
    + unfold fresh_next. vm_compute. repeat constructor.
    + reflexivity.
Defined.

(** C2 as stated fails.  After [append('dev-libs/foo baz')] on the example
    the store holds three records of [dev-libs/foo], the new one behind
    the reference 4; [remove('dev-libs/foo')] raises [ValueError]; and
    [remove] of the first record leaves the two other records of that
    package expression in the file. *)
Lemma remove_by_package_expression_counterexample :
  let st := snd (PackageFileSet_append (PkgStr "dev-libs/foo baz")
                   example_state) in
  fst (PackageFileSet_append (PkgStr "dev-libs/foo baz") example_state)
  = Ok 4 /\
  List.filter (is_record_of (heap st) "dev-libs/foo")
    (concat (map items (_files (store st)))) = [0; 3; 4] /\
  fst (PackageFileSet_remove (PkgStr "dev-libs/foo") st) = Raise ValueError /\
  List.filter (is_record_of (heap st) "dev-libs/foo")
    (concat (map items
               (_files (store (snd (PackageFileSet_remove (PkgRef 0) st))))))
  = [3; 4].
Proof. vm_compute. repeat split; reflexivity. Qed.

(** ** Deleting the records of a package *)

Lemma remove_all_filter (p : nat -> bool) (l : list nat) :
  forall pre,
    Forall (fun y => p y = false) pre ->
    remove_all (List.filter p l) (pre ++ l)
    = Ok (pre ++ List.filter (fun y => negb (p y)) l).
Proof.
  induction l as [|x l IH]; intros pre Hpre; [done|].
  simpl. destruct (p x) eqn:E; simpl.
  - rewrite list_remove_app.
    + by apply IH.
    + eapply Forall_impl; [exact Hpre|]. simpl. intros y Hy.
      apply Nat.eqb_neq. intros ->. congruence.
    + apply Nat.eqb_refl.
  - rewrite (cons_middle x pre l), app_assoc.
    rewrite IH; [by rewrite <- app_assoc|].
    apply Forall_app. split; [done | by constructor].
Qed.

Lemma matching_entries_spec (h : gmap nat Line) (pkg : string) (l : list nat) :
  Forall (fun r => is_Entry h r = true) l ->
  matching_entries h pkg l = Ok (List.filter (is_record_of h pkg) l).
Proof.
  induction 1 as [|r l Hr _ IH]; [done|]. simpl. rewrite IH.
  unfold is_Entry, is_record_of in *. by destruct (deref h r).
Qed.

Lemma matching_entries_Whitespace (h : gmap nat Line) (pkg : string)
  (l : list nat) :
  Exists (fun r => is_Whitespace h r = true) l ->
  matching_entries h pkg l = Raise AttributeError.
Proof.
  induction 1 as [r l Hr|r l _ IH]; simpl.
  - unfold is_Whitespace in Hr. by destruct (deref h r).
  - rewrite IH. by destruct (deref h r).
Qed.

(** On files that hold entries only, deleting the records of a package
    takes all of them out and marks every file modified. *)
Lemma delitem_without_passthrough (pkg : string) (st : State) :
  _files (store st) <> [] ->
  Forall (fun f => Forall (fun r => is_Entry (heap st) r = true) (items f))
         (_files (store st)) ->
  PackageFileSet_delitem pkg st
  = (Ok tt,
     with_files
       (map (fun f =>
               {| path := path f; _modified := true;
                  items := List.filter
                             (fun r => negb (is_record_of (heap st) pkg r))
                             (items f) |})
            (_files (store st))) st).
Proof.
  intros Hne Hall. unfold PackageFileSet_delitem. unfold bind at 1.
  rewrite files_loaded by done. unfold bind at 1. unfold get.
  assert (Hloop : delitem_loop (heap st) pkg (_files (store st))
    = (map (fun f =>
              {| path := path f; _modified := true;
                 items := List.filter
                            (fun r => negb (is_record_of (heap st) pkg r))
                            (items f) |})
           (_files (store st)), Ok tt)).
  { clear Hne. induction Hall as [|f l Hf _ IH]; [done|]. simpl.
    unfold delitem_file. rewrite matching_entries_spec by done.
    rewrite (remove_all_filter _ (items f) []) by constructor.
    simpl. by rewrite IH. }
  rewrite Hloop. unfold bind, with_files, set_files, ret. done.
Qed.

(** On a file that holds a passthrough line, it raises [AttributeError]
    and marks nothing. *)
Lemma delitem_with_passthrough (pkg : string) (st : State) (f : PackageFile)
  (l : list PackageFile) :
  _files (store st) = f :: l ->
  Exists (fun r => is_Whitespace (heap st) r = true) (items f) ->
  PackageFileSet_delitem pkg st = (Raise AttributeError, st).
Proof.
  intros HF Hw. unfold PackageFileSet_delitem. unfold bind at 1.
  rewrite files_loaded by (by rewrite HF). unfold bind at 1. unfold get.
  rewrite HF. simpl. unfold delitem_file.
  rewrite matching_entries_Whitespace by done.
  unfold bind, raise. rewrite <- HF, set_files_same. done.
Qed.

(** C10, the code at the failing input.  The example file is not modified
    and holds no record of [dev-libs/bar], but it holds a comment line:
    deleting the records of [dev-libs/bar] raises [AttributeError] and
    leaves the state as it was, the file not marked modified. *)
Theorem delete_all_raises_on_a_passthrough_line :
  PackageFile_modified (heap example_state) example_file = false /\
  List.filter (is_record_of (heap example_state) "dev-libs/bar")
    (concat (map items (_files (store example_state)))) = [] /\
  PackageFileSet_delitem "dev-libs/bar" example_state
  = (Raise AttributeError, example_state).
Proof.
  split; [by vm_compute|]. split; [by vm_compute|].
  apply (delitem_with_passthrough _ _ example_file []).
  - by vm_compute.
  - apply Exists_cons_tl, Exists_cons_hd. by vm_compute.
Qed.

(** On the keyword example: the file can be read, reading succeeds, and
    the write that follows changes nothing but the list of files. *)
Lemma keyword_defaults_do_not_dirty_witness :
  readable example_keywords_fs "package.keywords" = true /\
  fst (read (start ∅ 0 example_keywords_fs
               (PackageKeywordsFileSet_init "package.keywords"
                  example_accept_keywords))) = Ok tt /\
  PackageFileSet_write example_keywords_state
  = (Ok tt, with_files [] example_keywords_state).
Proof.
  pose proof (keyword_defaults_do_not_dirty "package.keywords"
                example_accept_keywords ∅ 0 example_keywords_fs eq_refl)
    as (H1 & _ & _ & H2 & _).
  split; [reflexivity|]. split; [exact H1 | exact H2].
Defined.

(** The line objects of the keyword example: the record without flags has
    got [~amd64], the one token of the list that starts with neither [~]
    nor [-]. *)
Example example_keywords_state_lines :
  map (deref (heap example_keywords_state)) [0; 1; 2]
  = [Entry {| as_str := "dev-libs/foo
"; modified := false; package := "dev-libs/foo";
              flags := [{| modifier := ""; name := "~amd64" |}] |};
     Whitespace "# comment
";
     Entry {| as_str := "dev-libs/bar ~x86
"; modified := false; package := "dev-libs/bar";
              flags := [{| modifier := ""; name := "~x86" |}] |}].
Proof. vm_compute. reflexivity. Qed.

(** On the example, once the only flag of the last record is deleted: the
    write leaves the first record, the comment and the blank line. *)
Lemma write_omits_dirty_records_without_flags_witness :
  PackageFile_modified (heap example_dirty_state) example_file = true /\
  contents (fs (snd (PackageFile_write example_file example_dirty_state)))
    !! "package.use"
  = Some "dev-libs/foo +bar -baz
# comment

".
Proof.
  split; [reflexivity|].
  pose proof (proj1 (write_omits_dirty_records_without_flags example_file
                       example_dirty_state eq_refl)) as H.
  change (path example_file) with "package.use" in H.
  rewrite H. vm_compute. reflexivity.
Defined.

(** A directory is read file by file in the order of the names, and the
    entries of the file read last come first. *)
Example example_dir_files :
  map path
    (_files (store (snd (read (start ∅ 0 example_dir_fs
                                 (PackageFileSet_init "package.use"))))))
  = ["package.use/10-a"; "package.use/20-b"].
Proof. vm_compute. reflexivity. Qed.

Example example_dir_entries :
  let st := snd (read (start ∅ 0 example_dir_fs
                         (PackageFileSet_init "package.use"))) in
  fst (PackageFileSet_getitem "dev-libs/foo" st) = Ok [1; 0] /\
  map (fun r => map PackageFlag_toString
                  (match deref (heap st) r with
                   | Entry e => flags e
                   | Whitespace _ => []
                   end)) [1; 0]
  = [["-bar"]; ["bar"]].
Proof. vm_compute. split; reflexivity. Qed.

(** * More about the record store *)

Import Text.
Import Invariants.

(** ** Tokens *)

Lemma no_space_app (s t : string) :
  no_space (s +:+ t) = no_space s && no_space t.
Proof.
  induction s as [|c s IH]; [done|].
  rewrite append_cons. simpl. rewrite IH. by destruct (isspace c).
Qed.

Lemma split_from_tokens (s : string) :
  forall cur, no_space cur = true -> Forall is_token (split_from cur s).
Proof.
  induction s as [|c s IH]; intros cur Hcur; simpl.
  - destruct (String.eqb_spec cur ""); [constructor|].
    by repeat constructor.
  - destruct (isspace c) eqn:E.
    + destruct (String.eqb_spec cur ""); [by apply IH|].
      constructor; [done | by apply IH].
    + apply IH. rewrite no_space_app, Hcur. simpl. by rewrite E.
Qed.

Lemma split_tokens (s : string) : Forall is_token (split s).
Proof. by apply split_from_tokens. Qed.

Lemma split_from_app (t rest : string) :
  forall cur, no_space t = true ->
    split_from cur (t +:+ rest) = split_from (cur +:+ t) rest.
Proof.
  induction t as [|c t IH]; intros cur Ht.
  - by rewrite append_nil_l, append_nil_r.
  - simpl in Ht. apply andb_prop in Ht as [Hc Ht].
    rewrite append_cons. simpl. apply negb_true_iff in Hc. rewrite Hc.
    rewrite IH by done. by rewrite append_assoc.
Qed.

Lemma join_cons (sep x y : string) (l : list string) :
  join sep (x :: y :: l) = x +:+ sep +:+ join sep (y :: l).
Proof. reflexivity. Qed.

(** Splitting what [join] and a line feed make of tokens gives the
    tokens. *)
Lemma split_join (ts : list string) :
  Forall is_token ts -> split (join " " ts +:+ String LF "") = ts.
Proof.
  unfold split. induction 1 as [|t ts [Hne Ht] Hts IH]; [done|].
  destruct ts as [|t' ts].
  - change (join " " [t]) with t. rewrite split_from_app by done.
    rewrite append_nil_l. simpl.
    destruct (String.eqb_spec t ""); done.
  - rewrite join_cons, !append_assoc, split_from_app by done.
    rewrite append_nil_l, append_cons. simpl split_from at 1.
    destruct (String.eqb_spec t ""); [done|].
    rewrite append_nil_l. f_equal. exact IH.
Qed.

(** ** Flags *)

Lemma PackageFlag_init_cases (s : string) :
  match PackageFlag_init s with
  | Ok f =>
      PackageFlag_toString f = s /\
      (modifier f = "" \/ modifier f = "+" \/ modifier f = "-") /\
      (modifier f = "" -> name f = s)
  | Raise e => e = IndexError /\ s = ""
  end.
Proof.
  destruct s as [|c s]; [done|]. simpl.
  destruct (Ascii.eqb_spec c "-") as [->|H1]; simpl.
  { split; [done|]. split; [by right; right | done]. }
  destruct (Ascii.eqb_spec c "+") as [->|H2]; simpl.
  { split; [done|]. split; [by right; left | done]. }
  split; [done|]. split; [by left | done].
Qed.

Lemma flags_of_toString (sl : list string) (fs : list PackageFlag) :
  flags_of sl = Ok fs -> map PackageFlag_toString fs = sl.
Proof.
  revert fs. induction sl as [|x sl IH]; intros fs H; simpl in H.
  - by injection H as <-.
  - pose proof (PackageFlag_init_cases x) as Hx.
    destruct (PackageFlag_init x) as [f|]; [|done].
    destruct (flags_of sl) as [fs'|]; [|done].
    injection H as <-. simpl. rewrite (IH fs') by done.
    by destruct Hx as [-> _].
Qed.

Lemma flags_of_tokens (sl : list string) :
  Forall is_token sl -> exists fs, flags_of sl = Ok fs.
Proof.
  intros H. apply flags_of_Ok. eapply Forall_impl; [exact H|].
  by intros t [? _].
Qed.

(** ** Parsing a line *)

Lemma PackageEntry_init_spec (l : string) :
  match split l with
  | [] => PackageEntry_init l = Raise InvalidPackageEntry
  | p :: sl =>
      if startswith "#" p
      then PackageEntry_init l = Raise InvalidPackageEntry
      else exists e,
          PackageEntry_init l = Ok e /\
          as_str e = l /\ modified e = false /\ package e = p /\
          map PackageFlag_toString (flags e) = sl
  end.
Proof.
  unfold PackageEntry_init. pose proof (split_tokens l) as H.
  destruct (split l) as [|p sl]; [done|].
  destruct (startswith "#" p); [done|].
  inversion H; subst.
  destruct (flags_of_tokens sl) as [fs Hfs]; [done|]. rewrite Hfs.
  eexists. split; [done|]. simpl. repeat split.
  by apply flags_of_toString.
Qed.

(** X1.  A flag token parses into a modifier, which is '+', '-' or empty,
    and a name, and PackageFlag.toString of the parsed flag is the token
    it was parsed from; a token without a leading '+' or '-' is its own
    name. Parsing fails only on the empty token, with IndexError. *)
Theorem flag_text_round_trip (s : string) :
  match PackageFlag_init s with
  | Ok f =>
      PackageFlag_toString f = s /\
      (modifier f = "" \/ modifier f = "+" \/ modifier f = "-") /\
      (modifier f = "" -> name f = s)
  | Raise e => e = IndexError /\ s = ""
  end.
Proof. apply PackageFlag_init_cases. Qed.

(** X2.  PackageEntry.__init__ raises InvalidPackageEntry exactly on the
    lines that hold no token or whose first token starts with '#'. On
    every other line it builds an unmodified record that keeps the line as
    its raw text, has the first token as package expression, and whose
    flags serialise, in order, to the remaining tokens. *)
Theorem line_is_record_or_passthrough (l : string) :
  match split l with
  | [] => PackageEntry_init l = Raise InvalidPackageEntry
  | p :: sl =>
      if startswith "#" p
      then PackageEntry_init l = Raise InvalidPackageEntry
      else exists e,
          PackageEntry_init l = Ok e /\
          as_str e = l /\ modified e = false /\ package e = p /\
          map PackageFlag_toString (flags e) = sl
  end.
Proof. apply PackageEntry_init_spec. Qed.

(** The no-break space is white space for [str.split]: a line of one is a
    passthrough line. *)
Example no_break_space_line_is_passthrough :
  PackageEntry_init (String (ascii_of_nat 160) (String LF ""))
  = Raise InvalidPackageEntry.
Proof. reflexivity. Qed.

Lemma flags_of_each (sl : list string) (fs : list PackageFlag) :
  flags_of sl = Ok fs -> Forall2 (fun x f => PackageFlag_init x = Ok f) sl fs.
Proof.
  revert fs. induction sl as [|x sl IH]; intros fs; simpl.
  - intros [= <-]. constructor.
  - destruct (PackageFlag_init x) as [f|] eqn:E; [|done].
    destruct (flags_of sl) as [fs'|]; [|done].
    intros [= <-]. constructor; [done | by apply IH].
Qed.

Lemma token_flag_init (s : string) (f : PackageFlag) :
  is_token s -> PackageFlag_init s = Ok f -> token_flag f.
Proof.
  intros Hs Hf. pose proof (PackageFlag_init_cases s) as H.
  rewrite Hf in H. destruct H as (Ht & _). unfold token_flag.
  by rewrite Ht.
Qed.

Lemma flags_of_token_flags (fs : list PackageFlag) :
  Forall token_flag fs -> flags_of (map PackageFlag_toString fs) = Ok fs.
Proof.
  induction 1 as [|f fs [_ Hf] _ IH]; [done|].
  simpl. by rewrite Hf, IH.
Qed.

Lemma token_record_init (l : string) (e : PackageEntry) :
  PackageEntry_init l = Ok e -> token_record e.
Proof.
  unfold PackageEntry_init. pose proof (split_tokens l) as Htok.
  destruct (split l) as [|p sl]; [done|].
  destruct (startswith "#" p) eqn:Hp; [done|].
  destruct (flags_of sl) as [fs|] eqn:Hfs; [|done].
  intros [= <-]. apply Forall_cons in Htok as [Hp' Hsl].
  split; [done|]. split; [done|]. simpl.
  apply flags_of_each in Hfs. clear Hp Hp'.
  induction Hfs as [|x f sl fs Hx _ IH]; [constructor|].
  apply Forall_cons in Hsl as [Hx' Hsl].
  constructor; [by apply (token_flag_init x) | by apply IH].
Qed.

Lemma token_record_parses_back (e : PackageEntry) :
  token_record e ->
  let text := PackageEntry_toString (set_modified true e) in
  PackageEntry_init text
  = Ok {| as_str := text; modified := false; package := package e;
          flags := flags e |}.
Proof.
  intros (Hp & Hh & Hfs) text.
  assert (Htext : text
    = join " " (package e :: map PackageFlag_toString (flags e))
        +:+ String LF "") by done.
  unfold PackageEntry_init. rewrite Htext at 1. rewrite split_join.
  - by rewrite Hh, flags_of_token_flags.
  - constructor; [done|]. apply Forall_fmap.
    eapply Forall_impl; [exact Hfs|]. by intros f [Hf _].
Qed.

(** X3.  A record whose package expression and flags are single tokens
    serialises, when it is modified, to a text that PackageEntry.__init__
    parses back to the same package expression and the same flags. Every
    record that was parsed from a line is such a record, and append of a
    flag given as a single token, __delitem__ and sort keep it one; a flag
    appended from a text that holds white space is outside the condition. *)
Theorem record_text_parses_back :
  (forall l e, PackageEntry_init l = Ok e -> token_record e) /\
  (forall e s f,
     token_record e -> is_token s -> PackageFlag_init s = Ok f ->
     token_record {| as_str := as_str e; modified := true;
                     package := package e; flags := flags e ++ [f] |}) /\
  (forall e flag, token_record e -> token_record (PackageEntry_delitem flag e)) /\
  (forall e, token_record e -> token_record (PackageEntry_sort e)) /\
  (forall e,
     token_record e ->
     let text := PackageEntry_toString (set_modified true e) in
     PackageEntry_init text
     = Ok {| as_str := text; modified := false; package := package e;
             flags := flags e |}).
Proof.
  split; [exact token_record_init|].
  split.
  { intros e s f (Hp & Hh & Hfs) Hs Hf. split; [done|]. split; [done|].
    simpl. apply Forall_app. split; [done|].
    constructor; [by apply (token_flag_init s) | constructor]. }
  split.
  { intros e flag (Hp & Hh & Hfs). split; [done|]. split; [done|]. simpl.
    apply Forall_forall. intros f Hf.
    apply list_elem_of_In, filter_In in Hf as [Hf _].
    apply (proj1 (Forall_forall _ _) Hfs). by apply list_elem_of_In. }
  split; [|exact token_record_parses_back].
  intros e (Hp & Hh & Hfs). split; [done|]. split; [done|]. simpl.
  by rewrite (stable_sort_perm name).
Qed.

Lemma record_text_parses_back_witness :
  let e := {| as_str := "dev-libs/foo   +bar	-baz"; modified := false;
              package := "dev-libs/foo";
              flags := [{| modifier := "+"; name := "bar" |};
                        {| modifier := "-"; name := "baz" |}] |} in
  let e' := {| as_str := as_str e; modified := true; package := package e;
               flags := flags e ++ [{| modifier := ""; name := "qux" |}] |} in
  PackageEntry_init "dev-libs/foo   +bar	-baz" = Ok e /\
  PackageEntry_init (PackageEntry_toString e')
  = Ok {| as_str := "dev-libs/foo +bar -baz qux
"; modified := false; package := "dev-libs/foo";
          flags := [{| modifier := "+"; name := "bar" |};
                    {| modifier := "-"; name := "baz" |};
                    {| modifier := ""; name := "qux" |}] |}.
Proof.
  intros e e'. split; [reflexivity|].
  destruct record_text_parses_back as (Hinit & Happ & _ & _ & Hback).
  apply (Hback e').
  apply (Happ e "qux" {| modifier := ""; name := "qux" |}).
  - apply (Hinit "dev-libs/foo   +bar	-baz" e). reflexivity.
  - split; [discriminate | reflexivity].
  - reflexivity.
Defined.

(** ** The flags of an entry *)

Lemma getitem_rev (flag : string) (e : PackageEntry) :
  PackageEntry_getitem flag e
  = rev (List.filter (fun f => String.eqb flag (name f)) (flags e)).
Proof. unfold PackageEntry_getitem, PackageEntry_iter. apply filter_eq_rev. Qed.

(** X4.  PackageEntry.__getitem__ yields the flags of the given name from
    the last one of the record to the first one: the result is the reverse
    of the flags of that name in the order of the record, and the first
    flag yielded is the last one declared with that name. *)
Theorem flag_lookup_last_declared_first (flag : string) (e : PackageEntry) :
  PackageEntry_getitem flag e
  = rev (List.filter (fun f => String.eqb flag (name f)) (flags e)) /\
  (forall pre f post,
     flags e = pre ++ f :: post ->
     name f = flag ->
     Forall (fun g => name g <> flag) post ->
     head (PackageEntry_getitem flag e) = Some f).
Proof.
  split; [apply getitem_rev|].
  intros pre f post Hfl Hf Hpost. rewrite getitem_rev, Hfl.
  rewrite List.filter_app. simpl. rewrite <- Hf, String.eqb_refl.
  assert (Hnil : List.filter (fun g => String.eqb (name f) (name g)) post
                 = []).
  { clear Hfl. induction Hpost as [|g post Hg _ IH]; [done|]. simpl.
    destruct (String.eqb_spec (name f) (name g)); [congruence | done]. }
  rewrite Hnil, rev_app_distr. done.
Qed.

Lemma flag_lookup_last_declared_first_witness :
  head (PackageEntry_getitem "bar"
          {| as_str := "dev-libs/foo +bar baz -bar qux";
             modified := false; package := "dev-libs/foo";
             flags := [{| modifier := "+"; name := "bar" |};
                       {| modifier := ""; name := "baz" |};
                       {| modifier := "-"; name := "bar" |};
                       {| modifier := ""; name := "qux" |}] |})
  = Some {| modifier := "-"; name := "bar" |}.
Proof.
  apply (proj2 (flag_lookup_last_declared_first "bar" _)
           [{| modifier := "+"; name := "bar" |};
            {| modifier := ""; name := "baz" |}]
           {| modifier := "-"; name := "bar" |}
           [{| modifier := ""; name := "qux" |}]).
  - reflexivity.
  - reflexivity.
  - repeat constructor; simpl; discriminate.
Defined.

(** X5.  PackageEntry.__delitem__ leaves exactly the flags of the other
    names, in the order they had: every flag of the given name goes,
    whatever its modifier. It marks the record modified even when no flag
    had that name, and the record then serialises from its package
    expression and remaining flags, not from its raw text. *)
Theorem flag_deletion_takes_every_occurrence (flag : string)
  (e : PackageEntry) :
  let e' := PackageEntry_delitem flag e in
  modified e' = true /\ as_str e' = as_str e /\ package e' = package e /\
  flags e'
  = List.filter (fun f => negb (String.eqb flag (name f))) (flags e) /\
  PackageEntry_getitem flag e' = [] /\
  (forall other, other <> flag ->
     PackageEntry_getitem other e' = PackageEntry_getitem other e) /\
  (PackageEntry_getitem flag e = [] -> flags e' = flags e) /\
  PackageEntry_toString e'
  = join " " (package e :: map PackageFlag_toString (flags e'))
      +:+ String LF "".
Proof.
  intros e'. split; [done|]. split; [done|]. split; [done|]. split; [done|].
  unfold e', PackageEntry_delitem. rewrite !getitem_rev. simpl.
  split; [|split; [|split; [|done]]].
  - rewrite <- (rev_involutive []). f_equal.
    induction (flags e) as [|f l IH]; [done|]. simpl.
    destruct (String.eqb_spec flag (name f)) as [Hf|Hf]; simpl; [done|].
    destruct (String.eqb_spec flag (name f)); [done | exact IH].
  - intros other Hne. rewrite !getitem_rev. simpl. f_equal.
    induction (flags e) as [|f l IH]; [done|]. simpl.
    destruct (String.eqb_spec flag (name f)) as [Hf|Hf]; simpl.
    + destruct (String.eqb_spec other (name f)); [congruence | exact IH].
    + by rewrite IH.
  - intros Hnil. apply (f_equal (@rev _)) in Hnil.
    rewrite rev_involutive in Hnil. simpl in Hnil.
    induction (flags e) as [|f l IH]; [done|]. simpl in *.
    destruct (String.eqb_spec flag (name f)); [done|]. simpl.
    f_equal. by apply IH.
Qed.

Lemma PackageFlag_lt_key (f g : PackageFlag) :
  PackageFlag_lt f g = key_lt name f g.
Proof. reflexivity. Qed.

(** X6.  PackageEntry.sort permutes the flags into ascending order of
    their names, marks the record modified, and keeps the flags of one
    name in their relative order, so that a lookup by name gives the same
    list before and after the sort. *)
Theorem flag_sort_is_stable (e : PackageEntry) :
  let e' := PackageEntry_sort e in
  modified e' = true /\ package e' = package e /\
  flags e' ≡ₚ flags e /\
  Sorted (fun f g => String.leb (name f) (name g) = true) (flags e') /\
  (forall flag, PackageEntry_getitem flag e' = PackageEntry_getitem flag e).
Proof.
  intros e'. split; [done|]. split; [done|].
  unfold e', PackageEntry_sort. simpl.
  split; [apply (stable_sort_perm name)|].
  split; [apply (stable_sort_Sorted name)|].
  intros flag. rewrite !getitem_rev. simpl. f_equal.
  apply (stable_sort_filter name).
Qed.

Import Examples.

(** ** Appending a flag through a reference *)

(** X7.  PackageEntry.append puts the parsed flag after the flags the
    record has, marks the record modified and returns the flag; a lookup
    of the name of that flag then yields it first; no other line object
    changes. *)
Theorem appended_flag_wins (r : nat) (s : string) (st : State)
  (e : PackageEntry) (f : PackageFlag) :
  deref (heap st) r = Entry e -> PackageFlag_init s = Ok f ->
  let e' := {| as_str := as_str e; modified := true; package := package e;
               flags := flags e ++ [f] |} in
  PackageEntry_append r s st
  = (Ok f, {| heap := <[r := Entry e']> (heap st); next := next st;
              fs := fs st; writes := writes st; store := store st |}) /\
  head (PackageEntry_getitem (name f) e') = Some f /\
  (forall r', r' <> r ->
     deref (heap (snd (PackageEntry_append r s st))) r'
     = deref (heap st) r').
Proof.
  intros He Hf e'.
  assert (Hrun : PackageEntry_append r s st
    = (Ok f, {| heap := <[r := Entry e']> (heap st); next := next st;
                fs := fs st; writes := writes st; store := store st |})).
  { unfold PackageEntry_append. unfold bind at 1. unfold get.
    rewrite He, Hf. unfold update, bind, get, set_heap, ret. done. }
  split; [exact Hrun|]. split.
  - rewrite getitem_rev. simpl. rewrite List.filter_app. simpl.
    by rewrite String.eqb_refl, rev_app_distr.
  - intros r' Hr. rewrite Hrun. simpl. by apply deref_insert_ne.
Qed.

Lemma appended_flag_wins_witness :
  head (PackageEntry_getitem "bar"
          {| as_str := "dev-libs/foo +bar -baz
"; modified := true; package := "dev-libs/foo";
             flags := [{| modifier := "+"; name := "bar" |};
                       {| modifier := "-"; name := "baz" |};
                       {| modifier := "-"; name := "bar" |}] |})
  = Some {| modifier := "-"; name := "bar" |}.
Proof.
  apply (appended_flag_wins 0 "-bar" example_state
           {| as_str := "dev-libs/foo +bar -baz
"; modified := false; package := "dev-libs/foo";
              flags := [{| modifier := "+"; name := "bar" |};
                        {| modifier := "-"; name := "baz" |}] |}
           {| modifier := "-"; name := "bar" |}); reflexivity.
Defined.

(** ** Writing twice *)

Lemma clear_modified_unmodified (l : list nat) (h : gmap nat Line) (r : nat) :
  r ∈ l -> Line_modified (deref (clear_modified l h) r) = false.
Proof.
  intros Hr. rewrite deref_clear_modified, bool_decide_eq_true_2 by done.
  by destruct (deref h r).
Qed.

Lemma clear_modified_mono (l : list nat) (h : gmap nat Line) (r : nat) :
  Line_modified (deref (clear_modified l h) r) = true ->
  Line_modified (deref h r) = true.
Proof.
  rewrite deref_clear_modified. destruct (bool_decide (r ∈ l)); [|done].
  by destruct (deref h r).
Qed.

Lemma unmodified_lines_clean (h : gmap nat Line) (l : list nat) :
  Forall (fun r => Line_modified (deref h r) = false) l <->
  existsb (fun r => Line_modified (deref h r)) l = false.
Proof.
  induction l as [|r l IH]; simpl.
  - split; [done | constructor].
  - rewrite Forall_cons, orb_false_iff, IH. done.
Qed.

(** X8.  After PackageFile.write (opening the path for writing is assumed
    to succeed) the file and every one of its line objects are unmodified,
    whatever they were before, and a second write of the file does
    nothing: it opens no file and changes no state. *)
Theorem file_write_settles (f : PackageFile) (st : State) :
  exists f',
    fst (PackageFile_write f st) = Ok f' /\
    path f' = path f /\ items f' = items f /\
    let st' := snd (PackageFile_write f st) in
    PackageFile_modified (heap st') f' = false /\
    Forall (fun r => Line_modified (deref (heap st') r) = false) (items f) /\
    PackageFile_write f' st' = (Ok f', st').
Proof.
  destruct (PackageFile_modified (heap st) f) eqn:Hm.
  - rewrite PackageFile_write_dirty by done. simpl.
    exists (PackageFile_set_modified false f).
    split; [done|]. split; [done|]. split; [done|].
    assert (Hl : Forall (fun r => Line_modified
                           (deref (clear_modified (items f) (heap st)) r)
                         = false) (items f)).
    { apply Forall_forall. intros r Hr. by apply clear_modified_unmodified. }
    assert (Hc : PackageFile_modified (clear_modified (items f) (heap st))
                   (PackageFile_set_modified false f) = false).
    { unfold PackageFile_modified. simpl.
      by apply unmodified_lines_clean. }
    split; [done|]. split; [done|]. by apply PackageFile_write_clean.
  - rewrite PackageFile_write_clean by done. simpl.
    exists f. split; [done|]. split; [done|]. split; [done|].
    split; [done|]. split.
    + unfold PackageFile_modified in Hm.
      apply orb_false_iff in Hm as [_ Hm]. by apply unmodified_lines_clean.
    + by apply PackageFile_write_clean.
Qed.

(** ** The store-level write *)


Lemma PackageFile_modified_mono (h h0 : gmap nat Line) (f : PackageFile) :
  (forall r, Line_modified (deref h r) = true ->
             Line_modified (deref h0 r) = true) ->
  PackageFile_modified h f = true -> PackageFile_modified h0 f = true.
Proof.
  intros Hh. unfold PackageFile_modified.
  rewrite !orb_true_iff, !existsb_exists. intros [H|(r & Hr & Hm)]; [by left|].
  right. exists r. split; [done | by apply Hh].
Qed.

Lemma written_from_refl (st : State) : written_from st st.
Proof.
  split; [done|]. split; [done|]. split; [|done].
  exists []. split; [done | constructor].
Qed.

Lemma written_from_step (st0 st : State) (f : PackageFile) :
  f ∈ _files (store st0) -> written_from st0 st ->
  fst ((PackageFile_write f ;; ret tt) st) = Ok tt /\
  written_from st0 (snd ((PackageFile_write f ;; ret tt) st)).
Proof.
  intros Hf (Hs & Hm & (w & Hw & Hall) & Hc). unfold bind.
  destruct (PackageFile_modified (heap st) f) eqn:E.
  - rewrite PackageFile_write_dirty by done. simpl. split; [done|].
    assert (E0 : PackageFile_modified (heap st0) f = true)
      by (by apply (PackageFile_modified_mono (heap st))).
    split; [done|]. split; [|split].
    + simpl. intros r Hr. by apply Hm, (clear_modified_mono (items f)).
    + exists (path f :: w). simpl. split; [by rewrite Hw|].
      constructor; [|done]. by exists f.
    + simpl. intros q Hq. rewrite lookup_insert_ne; [by apply Hc|].
      by apply Hq.
  - rewrite PackageFile_write_clean by done. simpl. split; [done|].
    split; [done|]. split; [done|]. split; [|done]. by exists w.
Qed.

Lemma PackageFileSet_write_unfold (st : State) :
  PackageFileSet_write st
  = match _files (store st) with
    | [] => (Ok tt, st)
    | _ :: _ =>
        match for_each (_files (store st))
                (fun f => PackageFile_write f ;; ret tt) st with
        | (Ok _, st') => set_files [] st'
        | (Raise e, st') => (Raise e, st')
        end
    end.
Proof.
  unfold PackageFileSet_write. unfold bind at 1. unfold get.
  by destruct (_files (store st)).
Qed.

(** X9.  PackageFileSet.write (opening a path for writing is assumed to
    succeed) unloads the files; every path it opens for writing is the
    path of a loaded file that was modified, and the text at every path
    that is not the path of a modified loaded file stays as it was. *)
Theorem store_write_opens_dirty_files_only (st : State) :
  let st' := snd (PackageFileSet_write st) in
  fst (PackageFileSet_write st) = Ok tt /\
  _files (store st') = [] /\
  (exists w,
     writes st' = w ++ writes st /\
     Forall (fun p => exists f, f ∈ _files (store st) /\ path f = p /\
                                PackageFile_modified (heap st) f = true) w) /\
  (forall q,
     (forall f, f ∈ _files (store st) ->
                PackageFile_modified (heap st) f = true -> path f <> q) ->
     contents (fs st') !! q = contents (fs st) !! q).
Proof.
  intros st'. subst st'. rewrite PackageFileSet_write_unfold.
  destruct (_files (store st)) as [|f0 l] eqn:E.
  { simpl. rewrite E. split; [done|]. split; [done|]. split; [|done].
    exists []. split; [done | constructor]. }
  rewrite <- E.
  destruct (for_each_Ok (written_from st)
              (fun f => PackageFile_write f ;; ret tt) (_files (store st))
              (fun f s Hf Hs => written_from_step st s f Hf Hs) st
              (written_from_refl st)) as [Hok Hinv].
  destruct (for_each (_files (store st))
              (fun f => PackageFile_write f ;; ret tt) st) as [r st1].
  simpl in Hok, Hinv. subst r. simpl.
  destruct Hinv as (_ & _ & Hw & Hc). done.
Qed.

(** ** Appending a record and writing *)

Lemma for_each_app {A} (body : A -> M unit) (l1 l2 : list A) (st : State) :
  for_each (l1 ++ l2) body st
  = match for_each l1 body st with
    | (Ok _, st') => for_each l2 body st'
    | (Raise e, st') => (Raise e, st')
    end.
Proof.
  revert st. induction l1 as [|x l1 IH]; intros st; [done|].
  simpl. unfold bind. destruct (body x st) as [[[]|e] st1]; [|done].
  apply IH.
Qed.

Lemma read_spec_fresh (c : Ctor) (st : State) :
  store st = construct c ->
  exists res h' n' F,
    read st
    = (res, {| heap := h'; next := n'; fs := fs st; writes := writes st;
               store := {| class := class (store st);
                           _path := _path (store st); _files := F |} |}) /\
    Forall (raw_kept (fs st) h') F /\
    Forall (fun f => Forall (fun r => r < n') (items f)) F /\
    (readable (fs st) (_path (store st)) = true ->
     res = Ok tt /\ map path F = read_paths (fs st) (_path (store st))).
Proof.
  intros Hs.
  destruct (PackageFileSet_read_spec st) as
    (res & h1 & n1 & F & Hrun & Hle & Hold & HF & Hok & He);
    [rewrite Hs; by destruct c|].
  assert (Hb : Forall (fun f => Forall (fun r => r < n1) (items f)) F).
  { eapply Forall_impl; [exact HF|]. simpl. intros f [_ Hf].
    eapply Forall_impl; [exact Hf|]. simpl. lia. }
  assert (Hr1 : Forall (raw_kept (fs st) h1) F).
  { eapply Forall_impl; [exact HF|]. simpl. intros f [Hf _].
    by apply (as_read_raw_kept (New_PackageFileSet "")), loaded_as_read. }
  destruct c as [p|p ak].
  - rewrite read_Base by (by rewrite Hs).
    exists res, h1, n1, F. split; [exact Hrun|]. split; [done|].
    split; [done|]. intros Hr. by destruct (Hok Hr).
  - rewrite (read_Keywords st (defkw_of ak)) by (by rewrite Hs).
    unfold bind at 1. rewrite Hrun. destruct res as [[]|e].
    + unfold bind at 1. unfold get. cbv beta iota. simpl heap. simpl store.
      simpl _files. rewrite defaults_loop_spec. simpl.
      exists (Ok tt), (defaults_heap ak (iter_entries h1 F) h1), n1, F.
      split; [done|]. split; [|split; [done|]].
      * apply Forall_forall. intros f Hf.
        apply (as_read_raw_kept (New_PackageKeywordsFileSet p ak)).
        pose proof (proj1 (Forall_forall _ _) HF f Hf) as [[Hm Hl] _].
        split; [done|]. rewrite deref_defaults_files by done.
        simpl. by rewrite Hl.
      * intros Hr. by destruct (Hok Hr).
    + exists (Raise e), h1, n1, F. split; [done|]. split; [done|].
      split; [done|]. intros Hr. by destruct (Hok Hr).
Qed.

Lemma written_text_app (h : gmap nat Line) (l1 l2 : list nat) :
  written_text h (l1 ++ l2) = written_text h l1 +:+ written_text h l2.
Proof.
  unfold written_text. by rewrite List.filter_app, map_app, concat_text_app.
Qed.

Lemma raw_kept_insert (d : FS) (h : gmap nat Line) (f : PackageFile)
  (n : nat) (o : Line) :
  Forall (fun r => r < n) (items f) ->
  raw_kept d h f -> raw_kept d (<[n := o]> h) f.
Proof.
  intros Hb (Hm & Hl & Hc).
  assert (Hd : Forall (fun r => deref (<[n := o]> h) r = deref h r) (items f)).
  { eapply Forall_impl; [exact Hb|]. simpl. intros r Hr.
    apply deref_insert_ne. lia. }
  split; [done|]. split.
  - apply Forall_forall. intros r Hr.
    rewrite (proj1 (Forall_forall _ _) Hd r Hr).
    by apply (proj1 (Forall_forall _ _) Hl).
  - rewrite <- Hc. apply f_equal, map_ext_in. intros r Hr.
    by rewrite (proj1 (Forall_forall _ _) Hd r) by (by apply list_elem_of_In).
Qed.

Lemma store_write_last_dirty (st : State) (init : list PackageFile)
  (f : PackageFile) :
  _files (store st) = init ++ [f] ->
  Forall (fun g => PackageFile_modified (heap st) g = false) init ->
  PackageFile_modified (heap st) f = true ->
  PackageFileSet_write st
  = (Ok tt,
     {| heap := clear_modified (items f) (heap st); next := next st;
        fs := {| isdir := isdir (fs st); glob_star := glob_star (fs st);
                 contents := <[path f := written_text (heap st) (items f)]>
                               (contents (fs st));
                 garbled := garbled (fs st) |};
        writes := path f :: writes st;
        store := {| class := class (store st); _path := _path (store st);
                    _files := [] |} |}).
Proof.
  intros HF Hinit Hf. rewrite PackageFileSet_write_unfold, HF.
  destruct (init ++ [f]) as [|f0 l0] eqn:E; [by destruct init|].
  rewrite <- E, for_each_app, write_loop_clean by done.
  simpl for_each. unfold bind at 1. unfold bind at 1.
  by rewrite PackageFile_write_dirty.
Qed.

(** X10.  On a readable store, read, then append of a line that parses as
    a record, then write opens exactly one file, the last file of the
    store in reading order, and puts there its former text followed by the
    serialised record; a record appended without flags adds nothing to the
    text. The files are unloaded afterwards. *)
Theorem appended_record_is_written_to_the_last_file
  (c : Ctor) (h : gmap nat Line) (n : nat) (d : FS) (s : string)
  (e : PackageEntry) :
  readable d (_path (construct c)) = true ->
  PackageEntry_init s = Ok e ->
  let q := List.last (read_paths d (_path (construct c))) "" in
  let run := (read ;; PackageFileSet_append (PkgStr s) ;;
              PackageFileSet_write) (start h n d (construct c)) in
  fst run = Ok tt /\
  writes (snd run) = [q] /\
  contents (fs (snd run))
  = <[q := default "" (contents d !! q)
            +:+ (if PackageEntry_len e =? 0 then ""
                 else PackageEntry_toString (set_modified true e))]>
      (contents d) /\
  _files (store (snd run)) = [].
Proof.
  intros Hr He q run.
  destruct (read_spec_fresh c (start h n d (construct c)) eq_refl)
    as (res & h1 & n1 & F & Hrun & Hraw & Hb & Hok).
  destruct (Hok Hr) as [-> Hp]. simpl in Hrun, Hraw, Hp.
  assert (HF : F <> []).
  { intros ->. by apply (read_paths_nonempty d (_path (construct c))). }
  destruct (exists_last HF) as (init & fl & ->).
  apply Forall_app in Hraw as [Hraw_i Hraw_l].
  apply Forall_cons in Hraw_l as [Hraw_l _].
  apply Forall_app in Hb as [Hb_i Hb_l].
  apply Forall_cons in Hb_l as [Hb_l _].
  assert (Hq : q = path fl).
  { unfold q. rewrite <- Hp, map_app. simpl. apply last_last. }
  set (h2 := <[n1 := Entry (set_modified true e)]> h1).
  set (fl' := {| path := path fl; _modified := _modified fl;
                 items := items fl ++ [n1] |}).
  assert (Hraw2 : raw_kept d h2 fl) by (by apply raw_kept_insert).
  destruct Hraw2 as (Hm2 & Hl2 & Hc2).
  assert (Hall : run
    = (Ok tt,
       {| heap := clear_modified (items fl') h2; next := S n1;
          fs := {| isdir := isdir d; glob_star := glob_star d;
                   contents := <[path fl' := written_text h2 (items fl')]>
                                 (contents d);
                   garbled := garbled d |};
          writes := [path fl'];
          store := {| class := class (construct c);
                      _path := _path (construct c); _files := [] |} |})).
  { subst run. unfold bind at 1. rewrite Hrun. unfold bind at 1.
    rewrite (append_str_spec s e _ init fl) by done.
    rewrite (store_write_last_dirty _ init fl'); [done|done| |].
    - simpl. apply Forall_forall. intros f Hf.
      apply (raw_kept_clean d). apply raw_kept_insert.
      + by apply (proj1 (Forall_forall _ _) Hb_i).
      + by apply (proj1 (Forall_forall _ _) Hraw_i).
    - unfold PackageFile_modified. simpl. rewrite existsb_app. simpl.
      unfold h2. rewrite deref_insert_eq. simpl.
      by rewrite !orb_true_r. }
  rewrite Hall. simpl. split; [done|]. split; [by rewrite Hq|].
  split; [|done]. rewrite Hq. f_equal.
  rewrite written_text_app, written_text_unmodified, Hc2 by done.
  f_equal. rewrite written_text_cons. unfold h2.
  rewrite deref_insert_eq. change (written_text _ []) with "".
  rewrite append_nil_r. unfold PackageEntry_len.
  cbn [omitted Line_toString set_modified modified flags package negb].
  cbn [andb]. by destruct (length (flags e) =? 0).
Qed.

Lemma appended_record_is_written_to_the_last_file_witness :
  let run := (read ;; PackageFileSet_append (PkgStr "dev-libs/baz qux") ;;
              PackageFileSet_write)
               (start ∅ 0 example_dir_fs
                  (construct (New_PackageFileSet "package.use"))) in
  fst run = Ok tt /\ writes (snd run) = ["package.use/20-b"] /\
  contents (fs (snd run)) !! "package.use/20-b"
  = Some "dev-libs/foo -bar
dev-libs/baz qux
".
Proof.
  destruct (appended_record_is_written_to_the_last_file
              (New_PackageFileSet "package.use") ∅ 0 example_dir_fs
              "dev-libs/baz qux"
              {| as_str := "dev-libs/baz qux"; modified := false;
                 package := "dev-libs/baz";
                 flags := [{| modifier := ""; name := "qux" |}] |}
              eq_refl eq_refl) as (H1 & H2 & H3 & _).
  split; [exact H1|]. split; [exact H2|]. rewrite H3. vm_compute. reflexivity.
Defined.

(** ** Reading: paths that cannot be opened *)

Lemma PackageFile_init_unreadable (p : string) (st : State) :
  can_open (fs st) p = false ->
  exists h' n',
    PackageFile_init p st
    = (Raise (read_error (fs st) p),
       {| heap := h'; next := n'; fs := fs st; writes := writes st;
          store := store st |}).
Proof.
  intros H.
  destruct (PackageFile_init_spec p st)
    as (res & h' & n' & Hrun & _ & _ & Hok & Hres).
  exists h', n'. rewrite Hrun. destruct res as [f|e]; [|by rewrite Hres].
  exfalso. destruct Hres as (_ & [_ Hl] & _).
  unfold can_open in H. apply orb_false_iff in H as [H1 H2].
  apply negb_false_iff in H1. apply bool_decide_eq_false_1 in H2.
  revert Hrun. unfold PackageFile_init, open_read, bind, get. rewrite H1.
  cbn [negb]. destruct (contents (fs st) !! p) eqn:E; [exfalso; eauto|].
  destruct (garbled (fs st) !! p); [|done].
  unfold ret at 1. cbn [fst snd].
  by destruct (read_lines _ _) as [[?|?] ?].
Qed.

Lemma forallb_first_false {A} (p : A -> bool) (l : list A) :
  forallb p l = false ->
  exists l1 x l2, l = l1 ++ x :: l2 /\ forallb p l1 = true /\ p x = false.
Proof.
  induction l as [|x l IH]; [done|]. simpl.
  destruct (p x) eqn:E; simpl.
  - intros H. destruct (IH H) as (l1 & y & l2 & -> & H1 & H2).
    exists (x :: l1), y, l2. simpl. by rewrite E.
  - intros _. by exists [], x, l.
Qed.

Lemma read_loop_stops (ps1 ps2 : list string) (q : string) (st : State) :
  forallb (can_open (fs st)) ps1 = true ->
  can_open (fs st) q = false ->
  exists h' n' F,
    for_each (ps1 ++ q :: ps2) read_file st
    = (Raise (read_error (fs st) q),
       {| heap := h'; next := n'; fs := fs st; writes := writes st;
          store := {| class := class (store st); _path := _path (store st);
                      _files := _files (store st) ++ F |} |}) /\
    map path F = ps1.
Proof.
  intros H1 Hq.
  destruct (read_loop_spec ps1 st)
    as (res & h1 & n1 & F & Hrun & _ & _ & _ & Hok & _).
  destruct (Hok H1) as [-> Hp].
  set (st1 := {| heap := h1; next := n1; fs := fs st; writes := writes st;
                 store := {| class := class (store st);
                             _path := _path (store st);
                             _files := _files (store st) ++ F |} |}).
  destruct (PackageFile_init_unreadable q st1 Hq) as (h' & n' & Hinit).
  exists h', n', F. split; [|done].
  rewrite for_each_app, Hrun. fold st1. simpl for_each. unfold bind at 1.
  unfold read_file at 1. unfold bind at 1.
  by rewrite Hinit.
Qed.

(** X11.  PackageFileSet.read on a store without loaded files succeeds
    exactly when every path it has to read is absent or a regular file
    that holds UTF-8 text. Otherwise it stops at the first path that is
    neither, with IOError when the path cannot be opened and
    UnicodeDecodeError when it is a regular file that is not UTF-8: the
    files before that path stay loaded, the file system is untouched, and,
    if there is such a file, the store counts as read, the files property
    not reading again. *)
Theorem read_fails_where_a_path_cannot_be_opened (st : State) :
  _files (store st) = [] ->
  (fst (PackageFileSet_read st) = Ok tt
   <-> readable (fs st) (_path (store st)) = true) /\
  (forall ps1 q ps2,
     read_paths (fs st) (_path (store st)) = ps1 ++ q :: ps2 ->
     forallb (can_open (fs st)) ps1 = true ->
     can_open (fs st) q = false ->
     let st' := snd (PackageFileSet_read st) in
     fst (PackageFileSet_read st) = Raise (read_error (fs st) q) /\
     map path (_files (store st')) = ps1 /\
     fs st' = fs st /\
     (ps1 <> [] -> files st' = (Ok (_files (store st')), st'))).
Proof.
  intros Hnil.
  assert (Hstop : forall ps1 q ps2,
     read_paths (fs st) (_path (store st)) = ps1 ++ q :: ps2 ->
     forallb (can_open (fs st)) ps1 = true ->
     can_open (fs st) q = false ->
     let st' := snd (PackageFileSet_read st) in
     fst (PackageFileSet_read st) = Raise (read_error (fs st) q) /\
     map path (_files (store st')) = ps1 /\
     fs st' = fs st /\
     (ps1 <> [] -> files st' = (Ok (_files (store st')), st'))).
  { intros ps1 q ps2 Hp H1 Hq st'. subst st'.
    unfold PackageFileSet_read, bind, get. rewrite Hnil, Hp.
    destruct (read_loop_stops ps1 ps2 q st H1 Hq) as (h' & n' & F & -> & HF).
    rewrite Hnil. simpl. split; [done|]. split; [done|]. split; [done|].
    intros Hne. apply files_loaded. simpl. intros ->. by destruct ps1. }
  destruct (PackageFileSet_read_spec st Hnil)
    as (res & h' & n' & F & Hrun & _ & _ & _ & Hok & He).
  split; [|exact Hstop].
  split; [|intros Hr; rewrite Hrun; by destruct (Hok Hr)].
  intros H. destruct (readable (fs st) (_path (store st))) eqn:Hr; [done|].
  apply forallb_first_false in Hr as (ps1 & q & ps2 & Hp & H1 & Hq).
  destruct (Hstop ps1 q ps2 Hp H1 Hq) as [Hf _]. congruence.
Qed.

Lemma read_fails_where_a_path_cannot_be_opened_witness :
  let st := start ∅ 0 example_subdir_fs (PackageFileSet_init "package.use") in
  let st' := start ∅ 0 example_garbled_fs
               (PackageFileSet_init "package.use") in
  (fst (PackageFileSet_read st) = Raise IOError /\
   map path (_files (store (snd (PackageFileSet_read st))))
   = ["package.use/10-a"]) /\
  (fst (PackageFileSet_read st') = Raise UnicodeDecodeError /\
   map path (_files (store (snd (PackageFileSet_read st'))))
   = ["package.use/10-a"]).
Proof.
  intros st st'. split.
  - destruct (proj2 (read_fails_where_a_path_cannot_be_opened st eq_refl)
                ["package.use/10-a"] "package.use/20-dir" ["package.use/30-c"]
                eq_refl eq_refl eq_refl) as (H1 & H2 & _).
    split; [exact H1 | exact H2].
  - destruct (proj2 (read_fails_where_a_path_cannot_be_opened st' eq_refl)
                ["package.use/10-a"] "package.use/20-b" ["package.use/30-c"]
                eq_refl eq_refl eq_refl) as (H1 & H2 & _).
    split; [exact H1 | exact H2].
Defined.

(** ** Reading: a store that is not there *)

Lemma read_single_missing (st : State) (q : string) :
  _files (store st) = [] ->
  read_paths (fs st) (_path (store st)) = [q] ->
  path_exists (fs st) q = false ->
  PackageFileSet_read st
  = (Ok tt,
     with_files [{| path := q; _modified := false; items := [] |}] st).
Proof.
  intros Hnil Hp Hq. unfold PackageFileSet_read. unfold bind at 1.
  unfold get. rewrite Hnil, Hp. simpl for_each. unfold bind at 1.
  unfold read_file. unfold bind at 1. unfold PackageFile_init.
  unfold bind at 1. unfold get. rewrite Hq. simpl.
  unfold bind, ret, get, with_files. by rewrite Hnil.
Qed.

(** X12.  Reading a store whose path does not exist loads one empty,
    unmodified file at that path; reading a store whose path is a
    directory without entries loads one empty, unmodified file named
    flaggie in it, when that name does not exist. Nothing is created in
    the file system. *)
Theorem absent_store_reads_as_one_empty_file (st : State) :
  _files (store st) = [] ->
  let p := _path (store st) in
  (path_exists (fs st) p = false ->
   PackageFileSet_read st
   = (Ok tt,
      with_files [{| path := p; _modified := false; items := [] |}] st)) /\
  (isdir (fs st) p = true -> glob_star (fs st) p = [] ->
   path_exists (fs st) (path_join p "flaggie") = false ->
   PackageFileSet_read st
   = (Ok tt,
      with_files [{| path := path_join p "flaggie"; _modified := false;
                     items := [] |}] st)).
Proof.
  intros Hnil p. split.
  - intros Hq. apply read_single_missing; [done| |done].
    unfold read_paths. fold p.
    destruct (isdir (fs st) p) eqn:Hd; [|done].
    unfold path_exists in Hq. fold p in Hq. by rewrite Hd in Hq.
  - intros Hd Hg Hq. apply read_single_missing; [done| |done].
    unfold read_paths. fold p. by rewrite Hd, Hg.
Qed.

Lemma absent_store_reads_as_one_empty_file_witness :
  map path
    (_files (store (snd (PackageFileSet_read
                           (start ∅ 0 example_empty_dir_fs
                              (PackageFileSet_init "package.use"))))))
  = ["package.use/flaggie"].
Proof.
  rewrite (proj2 (absent_store_reads_as_one_empty_file
                    (start ∅ 0 example_empty_dir_fs
                       (PackageFileSet_init "package.use")) eq_refl)
             eq_refl eq_refl eq_refl).
  reflexivity.
Defined.

(** ** Deleting the records of a package *)

(** X13.  When the files are loaded and hold records only,
    PackageFileSet.__delitem__ succeeds: every file keeps its path and, in
    order, its records of other package expressions, no record of the
    given package expression is left, and every file is marked modified. *)
Theorem delete_all_on_files_of_records (pkg : string) (st : State) :
  _files (store st) <> [] ->
  Forall (fun f => Forall (fun r => is_Entry (heap st) r = true) (items f))
         (_files (store st)) ->
  exists l',
    PackageFileSet_delitem pkg st = (Ok tt, with_files l' st) /\
    Forall2
      (fun f f' =>
         path f' = path f /\ _modified f' = true /\
         items f'
         = List.filter (fun r => negb (is_record_of (heap st) pkg r))
             (items f) /\
         List.filter (is_record_of (heap st) pkg) (items f') = [])
      (_files (store st)) l'.
Proof.
  intros Hne Hall. eexists. split; [by apply delitem_without_passthrough|].
  apply Forall2_fmap_r, Forall_Forall2_diag, Forall_forall.
  intros f _. simpl. split; [done|]. split; [done|]. split; [done|].
  induction (items f) as [|r l IH]; [done|]. simpl.
  destruct (is_record_of (heap st) pkg r) eqn:E; simpl; [done|].
  by rewrite E.
Qed.

Lemma delete_all_on_files_of_records_witness :
  exists l',
    PackageFileSet_delitem "dev-libs/foo" example_dir_state
    = (Ok tt, with_files l' example_dir_state) /\
    map items l' = [[]; []] /\ map _modified l' = [true; true].
Proof.
  destruct (delete_all_on_files_of_records "dev-libs/foo" example_dir_state)
    as (l' & Hrun & _).
  - vm_compute. discriminate.
  - vm_compute. repeat constructor.
  - exists l'. split; [exact Hrun|].
    assert (E : snd (PackageFileSet_delitem "dev-libs/foo" example_dir_state)
                = with_files l' example_dir_state) by (by rewrite Hrun).
    apply (f_equal (fun s => _files (store s))) in E. simpl in E.
    rewrite <- E. vm_compute. done.
Defined.

Lemma delitem_loop_records (h : gmap nat Line) (pkg : string)
  (l : list PackageFile) :
  Forall (fun f => Forall (fun r => is_Entry h r = true) (items f)) l ->
  delitem_loop h pkg l
  = (map (fun f =>
            {| path := path f; _modified := true;
               items := List.filter (fun r => negb (is_record_of h pkg r))
                          (items f) |}) l, Ok tt).
Proof.
  induction 1 as [|f l Hf _ IH]; [done|]. simpl.
  unfold delitem_file. rewrite matching_entries_spec by done.
  rewrite (remove_all_filter _ (items f) []) by constructor.
  simpl. by rewrite IH.
Qed.

Lemma delitem_loop_app (h : gmap nat Line) (pkg : string)
  (l1 l2 : list PackageFile) :
  delitem_loop h pkg (l1 ++ l2)
  = match delitem_loop h pkg l1 with
    | (l1', Ok _) =>
        (l1' ++ fst (delitem_loop h pkg l2), snd (delitem_loop h pkg l2))
    | (l1', Raise e) => (l1' ++ l2, Raise e)
    end.
Proof.
  induction l1 as [|f l1 IH]; simpl.
  - by destruct (delitem_loop h pkg l2).
  - destruct (delitem_file h pkg f) as [f'|e]; [|done].
    rewrite IH. by destruct (delitem_loop h pkg l1) as [l1' [[]|e]].
Qed.

(** X14.  When a loaded file holds a comment or blank line,
    PackageFileSet.__delitem__ raises AttributeError at the first such
    file: the files before it, holding records only, have already lost
    their records of the package expression and are marked modified, while
    that file and the files after it are as they were. *)
Theorem delete_all_stops_at_a_passthrough_line (pkg : string) (st : State)
  (l1 l2 : list PackageFile) (f : PackageFile) :
  _files (store st) = l1 ++ f :: l2 ->
  Forall (fun g => Forall (fun r => is_Entry (heap st) r = true) (items g))
         l1 ->
  Exists (fun r => is_Whitespace (heap st) r = true) (items f) ->
  PackageFileSet_delitem pkg st
  = (Raise AttributeError,
     with_files
       (map (fun g =>
               {| path := path g; _modified := true;
                  items := List.filter
                             (fun r => negb (is_record_of (heap st) pkg r))
                             (items g) |}) l1
        ++ f :: l2) st).
Proof.
  intros HF H1 Hf. unfold PackageFileSet_delitem. unfold bind at 1.
  rewrite files_loaded by (rewrite HF; by destruct l1).
  unfold bind at 1. unfold get. rewrite HF.
  rewrite delitem_loop_app, delitem_loop_records by done.
  simpl. unfold delitem_file. rewrite matching_entries_Whitespace by done.
  simpl. unfold bind, with_files, raise, set_files. done.
Qed.

Lemma delete_all_stops_at_a_passthrough_line_witness :
  let st' := snd (PackageFileSet_delitem "dev-libs/foo" example_mixed_state) in
  fst (PackageFileSet_delitem "dev-libs/foo" example_mixed_state)
  = Raise AttributeError /\
  map items (_files (store st')) = [[1]; [2; 3]] /\
  map _modified (_files (store st')) = [true; false].
Proof.
  intros st'. subst st'.
  rewrite (delete_all_stops_at_a_passthrough_line "dev-libs/foo"
             example_mixed_state
             [{| path := "package.use/10-a"; _modified := false;
                 items := [0; 1] |}]
             []
             {| path := "package.use/20-b"; _modified := false;
                items := [2; 3] |}).
  - vm_compute. done.
  - vm_compute. reflexivity.
  - repeat constructor.
  - apply Exists_cons_hd. reflexivity.
Defined.

(** ** Sorting and writing *)

(** X15.  PackageFile.sort of a file whose line objects are unmodified
    succeeds and leaves exactly the records of the file, in ascending
    order of package expression, the records of one package expression in
    the order they had; writing the sorted file puts at its path the raw
    texts of these records in that order: comments and blank lines are
    gone from the text. *)
Theorem sorted_file_is_written_with_raw_texts (f : PackageFile) (st : State) :
  Forall (fun r => Line_modified (deref (heap st) r) = false) (items f) ->
  exists f',
    PackageFile_sort (heap st) f = Ok f' /\
    items f' ≡ₚ List.filter (is_Entry (heap st)) (items f) /\
    Sorted (fun r r' =>
              String.leb (package_of (heap st) r)
                (package_of (heap st) r') = true)
           (items f') /\
    (forall pkg,
       List.filter (is_record_of (heap st) pkg) (items f')
       = List.filter (is_record_of (heap st) pkg) (items f)) /\
    contents (fs (snd (PackageFile_write f' st))) !! path f
    = Some (concat_text
              (map (fun r => match deref (heap st) r with
                             | Entry e => as_str e
                             | Whitespace d => d
                             end) (items f'))).
Proof.
  intros Hl.
  destruct (PackageFile_sort_spec (heap st) f)
    as (f' & Hf' & Hp & Hm & Hperm & Hs & Hst).
  exists f'. split; [done|]. split; [done|]. split; [done|]. split; [done|].
  assert (Hu : Forall (fun r => Line_modified (deref (heap st) r) = false)
                 (items f')).
  { rewrite Hperm. apply Forall_forall. intros r Hr.
    apply list_elem_of_In, filter_In in Hr as [Hr _].
    apply (proj1 (Forall_forall _ _) Hl). by apply list_elem_of_In. }
  rewrite PackageFile_write_dirty
    by (unfold PackageFile_modified; by rewrite Hm).
  simpl. rewrite Hp, lookup_insert_eq. f_equal.
  rewrite written_text_unmodified by done. f_equal.
  apply map_ext_Forall. eapply Forall_impl; [exact Hu|]. simpl.
  intros r Hr. destruct (deref (heap st) r) as [d|e]; [done|]. simpl in *.
  unfold PackageEntry_toString. by rewrite Hr.
Qed.

Lemma sorted_file_is_written_with_raw_texts_witness :
  exists f',
    PackageFile_sort (heap example_mixed_state)
      {| path := "package.use/10-a"; _modified := false; items := [0; 1] |}
    = Ok f' /\
    contents (fs (snd (PackageFile_write f' example_mixed_state)))
      !! "package.use/10-a"
    = Some "dev-libs/baz qux
dev-libs/foo bar
".
Proof.
  destruct (sorted_file_is_written_with_raw_texts
              {| path := "package.use/10-a"; _modified := false;
                 items := [0; 1] |} example_mixed_state)
    as (f' & Hs & _ & _ & _ & Hc).
  - repeat constructor.
  - exists f'. split; [exact Hs|]. simpl in Hc. rewrite Hc.
    injection Hs as <-. vm_compute. reflexivity.
Defined.

(** * More about the namespace caches *)

Import Registry.

(** ** What is effective is possible *)

(** X16.  For a cache queried against one catalog whose best() returns one
    of the versions it is given, the set get_effective returns for a
    package expression is included in the set __getitem__ returns for it. *)
Theorem effective_within_possible (cls : CacheClass) (db : Portage)
  (qs : list query) (k : string) :
  (xmatch_all db k <> [] -> best db (xmatch_all db k) ∈ xmatch_all db k) ->
  let self := run cls (history db qs) DBAPICache_init in
  fst (get_effective cls db k self) ⊆ fst (getitem cls db k self).
Proof.
  intros Hbest self.
  assert (H : coherent cls db self) by apply coherent_run, coherent_init.
  rewrite (get_effective_coherent _ _ _ _ H), (getitem_coherent _ _ _ _ H).
  destruct (xmatch_all db k) as [|p pkgs] eqn:E; [set_solver|].
  intros t Ht. apply elem_of_all_flags.
  exists (best db (p :: pkgs)). split; [by apply Hbest|].
  by apply elem_of_list_to_set in Ht.
Qed.

Lemma effective_within_possible_witness :
  fst (get_effective (FlagCache (fun _ => ∅)) example_db "dev-libs/foo"
         DBAPICache_init)
  ⊆ fst (getitem (FlagCache (fun _ => ∅)) example_db "dev-libs/foo"
           DBAPICache_init).
Proof.
  apply (effective_within_possible (FlagCache (fun _ => ∅)) example_db []
           "dev-libs/foo").
  intros _. vm_compute. apply list_elem_of_In. right. left. reflexivity.
Defined.

(** ** The tokens of the keyword and of the flag cache *)

Lemma elem_of_filter_bool {A} (p : A -> bool) (l : list A) (x : A) :
  x ∈ List.filter p l <-> x ∈ l /\ p x = true.
Proof. rewrite !list_elem_of_In. apply filter_In. Qed.

(** X17.  The possible set of the keyword cache for a package expression
    holds the tokens of KEYWORDS of the matching versions that do not
    start with '-', and '*' and '**' when some version matches; it holds
    nothing else, and is empty when no version matches. *)
Theorem keyword_possible_tokens (db : Portage) (qs : list query)
  (k : string) :
  let self := run KeywordCache (history db qs) DBAPICache_init in
  forall t,
    t ∈ fst (getitem KeywordCache db k self) <->
    (xmatch_all db k <> [] /\ (t = "*" \/ t = "**")) \/
    (exists p, p ∈ xmatch_all db k /\
               t ∈ split (aux_get db p "KEYWORDS") /\
               startswith "-" t = false).
Proof.
  intros self t.
  assert (H : coherent KeywordCache db self)
    by apply coherent_run, coherent_init.
  rewrite (getitem_coherent _ _ _ _ H), elem_of_all_flags. simpl.
  unfold KeywordCache_aux_parse. split.
  - intros (p & Hp & Ht). apply elem_of_app in Ht as [Ht|Ht].
    + right. exists p. apply elem_of_filter_bool in Ht as [Ht Hs].
      by apply negb_true_iff in Hs.
    + left. split; [intros E; rewrite E in Hp; by apply elem_of_nil in Hp|].
      apply elem_of_cons in Ht as [->|Ht]; [by left|].
      apply elem_of_cons in Ht as [->|Ht]; [by right|].
      by apply elem_of_nil in Ht.
  - intros [[Hne Ht]|(p & Hp & Ht & Hs)].
    + destruct (xmatch_all db k) as [|p pkgs]; [done|].
      exists p. split; [constructor|]. apply elem_of_app. right.
      destruct Ht as [->| ->]; [constructor | do 2 constructor].
    + exists p. split; [done|]. apply elem_of_app. left.
      apply elem_of_filter_bool. by rewrite Hs.
Qed.

Lemma lstrip_plus_minus_head (s : string) :
  startswith "+" (lstrip_plus_minus s) = false /\
  startswith "-" (lstrip_plus_minus s) = false.
Proof.
  induction s as [|c s IH]; [done|]. simpl lstrip_plus_minus.
  destruct (Ascii.eqb_spec c "+") as [->|H1]; [done|].
  destruct (Ascii.eqb_spec c "-") as [->|H2]; [done|]. cbn [orb].
  change "+" with (String "+"%char ""). change "-" with (String "-"%char "").
  rewrite !startswith_char. split; by apply Ascii.eqb_neq.
Qed.

(** X18.  The possible set of the flag cache for a package expression is
    the set of the tokens of IUSE of the matching versions with their
    leading '+' and '-' characters stripped; no token of the set starts
    with '+' or '-'. *)
Theorem flag_possible_tokens (scan : Portage -> gset string) (db : Portage)
  (qs : list query) (k : string) :
  let self := run (FlagCache scan) (history db qs) DBAPICache_init in
  forall t,
    (t ∈ fst (getitem (FlagCache scan) db k self) <->
     exists p x, p ∈ xmatch_all db k /\
                 x ∈ split (aux_get db p "IUSE") /\
                 t = lstrip_plus_minus x) /\
    (t ∈ fst (getitem (FlagCache scan) db k self) ->
     startswith "+" t = false /\ startswith "-" t = false).
Proof.
  intros self t.
  assert (H : coherent (FlagCache scan) db self)
    by apply coherent_run, coherent_init.
  rewrite (getitem_coherent _ _ _ _ H), elem_of_all_flags. simpl.
  unfold FlagCache_aux_parse.
  assert (Hiff : (exists p, p ∈ xmatch_all db k /\
                    t ∈ map lstrip_plus_minus (split (aux_get db p "IUSE")))
                 <-> exists p x, p ∈ xmatch_all db k /\
                       x ∈ split (aux_get db p "IUSE") /\
                       t = lstrip_plus_minus x).
  { split.
    - intros (p & Hp & Ht). apply list_elem_of_In, in_map_iff in Ht.
      destruct Ht as (x & <- & Hx). exists p, x.
      split; [done|]. split; [by apply list_elem_of_In | done].
    - intros (p & x & Hp & Hx & ->). exists p. split; [done|].
      apply list_elem_of_In, in_map. by apply list_elem_of_In. }
  split; [exact Hiff|]. intros Ht. apply Hiff in Ht as (p & x & _ & _ & ->).
  apply lstrip_plus_minus_head.
Qed.

(** ** The global set of the keyword cache *)

Lemma elem_of_foldl_union {A} (f : A -> gset string) (l : list A)
  (acc : gset string) (t : string) :
  t ∈ foldl (fun s x => s ∪ f x) acc l
  <-> t ∈ acc \/ exists x, x ∈ l /\ t ∈ f x.
Proof.
  revert acc. induction l as [|x l IH]; intros acc; simpl.
  - split; [by left|]. intros [H|(x & Hx & _)]; [done|].
    by apply elem_of_nil in Hx.
  - rewrite IH, elem_of_union. split.
    + intros [[H|H]|(y & Hy & H)]; [by left| |].
      * right. exists x. split; [constructor | done].
      * right. exists y. split; [by constructor | done].
    + intros [H|(y & Hy & H)]; [by left; left|].
      apply elem_of_cons in Hy as [->|Hy]; [by left; right|].
      right. by exists y.
Qed.

(** X19.  The global set of the keyword cache holds the entries of
    profiles/arch.list of every tree, each of them prefixed by '~', and
    the three tokens '*', '**' and '~*', and nothing else. *)
Theorem keyword_vocabulary (db : Portage) (t : string) :
  let arch x :=
    exists r, r ∈ porttrees db /\
              x ∈ grabfile db (path_join (path_join r "profiles")
                                 "arch.list") in
  t ∈ KeywordCache_glob_scan db <->
  arch t \/ (exists x, arch x /\ t = "~" +:+ x) \/
  t = "*" \/ t = "**" \/ t = "~*".
Proof.
  intros arch. unfold KeywordCache_glob_scan.
  set (kws := foldl _ ∅ (porttrees db)).
  assert (Hk : forall x, x ∈ kws <-> arch x).
  { intros x. unfold kws.
    rewrite (elem_of_foldl_union
               (fun r => list_to_set
                           (grabfile db (path_join (path_join r "profiles")
                                           "arch.list")))).
    unfold arch. split.
    - intros [H|(r & Hr & H)]; [by apply not_elem_of_empty in H|].
      exists r. by rewrite elem_of_list_to_set in H.
    - intros (r & Hr & H). right. exists r.
      by rewrite elem_of_list_to_set. }
  rewrite !elem_of_union, !elem_of_list_to_set, Hk. split.
  - intros [[H|H]|H]; [by left| |].
    + right. left. apply list_elem_of_In, in_map_iff in H.
      destruct H as (x & <- & Hx). exists x. split; [|done].
      by apply Hk, elem_of_elements, list_elem_of_In.
    + right. right. apply elem_of_cons in H as [->|H]; [by left|].
      apply elem_of_cons in H as [->|H]; [by right; left|].
      apply elem_of_cons in H as [->|H]; [by right; right|].
      by apply elem_of_nil in H.
  - intros [H|[(x & Hx & ->)|H]]; [by left; left| |].
    + left. right. apply list_elem_of_In, in_map, list_elem_of_In.
      by apply elem_of_elements, Hk.
    + right. destruct H as [->|[->| ->]]; repeat constructor.
Qed.

(** ** The description files *)

Lemma strip_prefix_Some (p s r : string) :
  strip_prefix p s = Some r <-> s = p +:+ r.
Proof.
  revert s. induction p as [|a p IH]; intros s; simpl.
  - rewrite append_nil_l. split; [by intros [= ->] | by intros ->].
  - destruct s as [|b s]; [by rewrite append_cons|].
    rewrite append_cons. destruct (Ascii.eqb_spec a b) as [->|Hne].
    + rewrite IH. split; [by intros -> | by intros [= ->]].
    + split; [done | intros [= -> _]; done].
Qed.

Lemma split_once_Some (sep s a b : string) :
  split_once sep s = Some (a, b) -> s = a +:+ sep +:+ b.
Proof.
  revert a. induction s as [|c s IH]; intros a; simpl.
  - destruct (strip_prefix sep "") as [r|] eqn:E; [|done].
    intros [= <- <-]. by apply strip_prefix_Some in E.
  - destruct (strip_prefix sep (String c s)) as [r|] eqn:E.
    + intros [= <- <-]. by apply strip_prefix_Some in E.
    + destruct (split_once sep s) as [[a' b']|]; [|done].
      intros [= <- <-]. rewrite append_cons. f_equal. by apply IH.
Qed.

Lemma split_once_None (sep s : string) :
  split_once sep s = None -> forall a b, s <> a +:+ sep +:+ b.
Proof.
  induction s as [|c s IH]; simpl.
  - destruct (strip_prefix sep "") as [r|] eqn:E; [done|]. intros _ a b H.
    destruct a; [|by rewrite append_cons in H].
    rewrite append_nil_l in H.
    apply strip_prefix_Some in H. congruence.
  - destruct (strip_prefix sep (String c s)) as [r|] eqn:E; [done|].
    destruct (split_once sep s) as [[a' b']|]; [done|].
    intros _ a b H. destruct a as [|c' a].
    + rewrite append_nil_l in H. apply strip_prefix_Some in H. congruence.
    + rewrite append_cons in H. injection H as -> H. by apply (IH eq_refl a b).
Qed.

Lemma grab_fold_lookup (prefix : string) (ls : list string) :
  forall (m : gmap string string) (k v : string),
    foldl (grab_line prefix) m ls !! k = Some v ->
    m !! k = Some v \/
    exists l a b, l ∈ ls /\ split_once " - " l = Some (a, b) /\
                  k = prefix +:+ a /\ v = strip b.
Proof.
  induction ls as [|l ls IH]; intros m k v H; [by left|].
  simpl in H. apply IH in H as [H|(l' & a & b & Hl & H)].
  - unfold grab_line in H.
    destruct (split_once " - " l) as [[a b]|] eqn:E; [|by left].
    destruct (decide (prefix +:+ a = k)) as [<-|Hne].
    + rewrite lookup_insert_eq in H. injection H as <-.
      right. exists l, a, b. split; [constructor | done].
    + rewrite lookup_insert_ne in H by done. by left.
  - right. exists l', a, b. split; [by constructor | done].
Qed.

Lemma grab_fold_dom (prefix : string) (ls : list string) :
  forall (m : gmap string string) (k : string),
    k ∈ dom (foldl (grab_line prefix) m ls) <->
    k ∈ dom m \/
    exists l a b, l ∈ ls /\ split_once " - " l = Some (a, b) /\
                  k = prefix +:+ a.
Proof.
  induction ls as [|l ls IH]; intros m k.
  - simpl. split; [by left|]. intros [H|(l & a & b & Hl & _)]; [done|].
    by apply elem_of_nil in Hl.
  - simpl. rewrite IH. unfold grab_line. split.
    + intros [H|(l' & a & b & Hl & H)].
      * destruct (split_once " - " l) as [[a b]|] eqn:E; [|by left].
        rewrite dom_insert_L in H. apply elem_of_union in H as [H|H].
        -- apply elem_of_singleton in H. right. exists l, a, b.
           split; [constructor | done].
        -- by left.
      * right. exists l', a, b. split; [by constructor | done].
    + intros [H|(l' & a & b & Hl & Hs & Hk)].
      * left. destruct (split_once " - " l) as [[a b]|]; [|done].
        rewrite dom_insert_L. apply elem_of_union. by right.
      * apply elem_of_cons in Hl as [->|Hl].
        -- left. rewrite Hs, dom_insert_L, Hk. apply elem_of_union. left.
           by apply elem_of_singleton.
        -- right. by exists l', a, b.
Qed.

Lemma append_inv_head (p a b : string) : p +:+ a = p +:+ b -> a = b.
Proof.
  induction p as [|c p IH]; [by rewrite !append_nil_l|].
  rewrite !append_cons. intros [= H]. by apply IH.
Qed.

Lemma append_length (a b : string) :
  String.length (a +:+ b) = String.length a + String.length b.
Proof.
  induction a as [|c a IH]; [by rewrite append_nil_l|].
  rewrite append_cons. simpl. by rewrite IH.
Qed.

Lemma append_same_length (a a' b b' : string) :
  a +:+ b = a' +:+ b' -> String.length a = String.length a' ->
  a = a' /\ b = b'.
Proof.
  revert a'. induction a as [|c a IH]; intros [|c' a'].
  - rewrite !append_nil_l. by intros ->.
  - simpl. discriminate.
  - simpl. discriminate.
  - rewrite !append_cons. intros [= -> H] [= Hl].
    destruct (IH a' H Hl) as [-> ->]. done.
Qed.

Lemma split_once_first (sep s a b : string) :
  split_once sep s = Some (a, b) ->
  forall a' b', s = a' +:+ sep +:+ b' -> String.length a <= String.length a'.
Proof.
  revert a. induction s as [|c s IH]; intros a; simpl.
  - destruct (strip_prefix sep "") as [r|] eqn:E; [|done].
    intros [= <- <-] a' b' _. simpl. lia.
  - destruct (strip_prefix sep (String c s)) as [r|] eqn:E.
    + intros [= <- <-] a' b' _. simpl. lia.
    + destruct (split_once sep s) as [[a0 b0]|] eqn:E0; [|done].
      intros [= <- <-] a' b' H. destruct a' as [|c' a'].
      * rewrite append_nil_l in H. apply strip_prefix_Some in H. congruence.
      * rewrite append_cons in H. injection H as -> H. simpl.
        apply le_n_S. by apply (IH a0 eq_refl a' b').
Qed.

Lemma split_once_first_cut (sep s a b : string) :
  split_once sep s = Some (a, b) <-> first_cut sep s a b.
Proof.
  split.
  - intros H. split; [by apply split_once_Some|].
    by apply (split_once_first sep s a b).
  - intros [Hs Hmin]. destruct (split_once sep s) as [[a1 b1]|] eqn:E.
    + pose proof (split_once_Some _ _ _ _ E) as Hs1.
      pose proof (split_once_first _ _ _ _ E a b Hs) as H1.
      pose proof (Hmin a1 b1 Hs1) as H2.
      assert (Hl : String.length a = String.length a1) by lia.
      rewrite Hs in Hs1.
      destruct (append_same_length _ _ _ _ Hs1 Hl) as [-> Hb].
      apply append_inv_head in Hb. by rewrite Hb.
    + exfalso. by apply (split_once_None _ _ E a b).
Qed.

Lemma grab_fold_keeps (prefix k v : string) (ls : list string) :
  forall m : gmap string string,
    m !! k = Some v ->
    (forall l a b, l ∈ ls -> split_once " - " l = Some (a, b) ->
                   prefix +:+ a <> k) ->
    foldl (grab_line prefix) m ls !! k = Some v.
Proof.
  induction ls as [|l ls IH]; intros m Hm Hls; [done|].
  simpl. apply IH.
  - unfold grab_line. destruct (split_once " - " l) as [[a b]|] eqn:E; [|done].
    rewrite lookup_insert_ne; [done|]. apply (Hls l a b); [constructor | done].
  - intros l' a b Hl. apply Hls. by constructor.
Qed.

(** X20.  grab_use_desc returns the empty dictionary when the file cannot
    be opened. When the file opens and holds UTF-8 text, its keys are the
    prefix followed by what stands before the first ' - ' of a line that
    has one, comment lines included, and the value of such a key is what
    follows the first ' - ' of the last line that gives this key, stripped
    of surrounding white space. *)
Theorem description_file_flags (pf : Profiles) (p prefix : string) :
  (open_text pf p = None -> grab_use_desc pf p prefix = ∅) /\
  (forall text, open_text pf p = Some text ->
     (forall k,
        k ∈ dom (grab_use_desc pf p prefix) <->
        exists l a b, l ∈ text_lines text /\ first_cut " - " l a b /\
                      k = prefix +:+ a) /\
     (forall ls1 l ls2 a b,
        text_lines text = ls1 ++ l :: ls2 ->
        first_cut " - " l a b ->
        (forall l' a' b', l' ∈ ls2 -> first_cut " - " l' a' b' -> a' <> a) ->
        grab_use_desc pf p prefix !! (prefix +:+ a) = Some (strip b))).
Proof.
  unfold grab_use_desc. split; [by intros ->|].
  intros text ->. split.
  - intros k. rewrite grab_fold_dom. split.
    + intros [H|(l & a & b & Hl & Hs & Hk)]; [by rewrite dom_empty_L in H|].
      exists l, a, b. split; [done|]. split; [|done].
      by apply split_once_first_cut.
    + intros (l & a & b & Hl & Hs & Hk). right. exists l, a, b.
      split; [done|]. split; [|done]. by apply split_once_first_cut.
  - intros ls1 l ls2 a b -> Hcut Hlast.
    rewrite foldl_app. simpl. apply grab_fold_keeps.
    + unfold grab_line at 1.
      rewrite (proj2 (split_once_first_cut _ _ _ _) Hcut).
      apply lookup_insert_eq.
    + intros l' a' b' Hl' Hs' Heq. apply append_inv_head in Heq.
      apply (Hlast l' a' b'); [done| |done].
      by apply split_once_first_cut.
Qed.

Lemma description_file_flags_witness :
  dom (grab_use_desc example_profiles "/usr/portage/profiles/use.desc" "")
  = {["# Copyright"; "X"; "ssl"]} /\
  grab_use_desc example_profiles "/usr/portage/profiles/use.desc" ""
    !! "ssl" = Some "Add support for SSL" /\
  grab_use_desc example_profiles "/nowhere" "" = ∅.
Proof.
  split; [by vm_compute|]. split; [by vm_compute|].
  apply (proj1 (description_file_flags example_profiles "/nowhere" "")).
  reflexivity.
Defined.

(** X21.  The global set of the flag cache holds, for every tree, the keys
    of profiles/use.desc and, for every variable of USE_EXPAND, the keys
    of profiles/desc/<variable in lower case>.desc prefixed by the
    variable in lower case and an underscore, and nothing else. *)
Theorem flag_vocabulary (pf : Profiles) (db : Portage) (t : string) :
  t ∈ FlagCache_glob_scan pf db <->
  exists r, r ∈ porttrees db /\
    (t ∈ dom (grab_use_desc pf
                (os_path_join (os_path_join r "profiles") "use.desc") "") \/
     exists k, k ∈ split (use_expand pf) /\
       t ∈ dom (grab_use_desc pf
                  (os_path_join
                     (os_path_join (os_path_join r "profiles") "desc")
                     (lower k +:+ ".desc"))
                  (lower k +:+ "_"))).
Proof.
  unfold FlagCache_glob_scan.
  assert (Htree : forall flags r,
    FlagCache_glob_tree pf flags r
    = flags ∪ FlagCache_glob_tree pf ∅ r).
  { intros flags r. apply set_eq. intros x. unfold FlagCache_glob_tree.
    rewrite elem_of_union.
    rewrite !(elem_of_foldl_union
                (fun k => dom (grab_use_desc pf
                                 (os_path_join
                                    (os_path_join (os_path_join r "profiles")
                                       "desc")
                                    (lower k +:+ ".desc"))
                                 (lower k +:+ "_")))).
    rewrite !elem_of_union. split.
    - intros [[H|H]|H]; [by left | by right; left; right | by right; right].
    - intros [H|[[H|H]|H]]; [by left; left| |by left; right|by right].
      by apply not_elem_of_empty in H. }
  assert (Hfold : forall l acc,
    t ∈ foldl (FlagCache_glob_tree pf) acc l
    <-> t ∈ acc \/ exists r, r ∈ l /\ t ∈ FlagCache_glob_tree pf ∅ r).
  { induction l as [|r l IH]; intros acc; simpl.
    - split; [by left|]. intros [H|(r & Hr & _)]; [done|].
      by apply elem_of_nil in Hr.
    - rewrite IH, Htree, elem_of_union. split.
      + intros [[H|H]|(y & Hy & H)]; [by left| |].
        * right. exists r. split; [constructor | done].
        * right. exists y. split; [by constructor | done].
      + intros [H|(y & Hy & H)]; [by left; left|].
        apply elem_of_cons in Hy as [->|Hy]; [by left; right|].
        right. by exists y. }
  rewrite Hfold. split.
  - intros [H|(r & Hr & H)]; [by apply not_elem_of_empty in H|].
    exists r. split; [done|]. unfold FlagCache_glob_tree in H.
    apply elem_of_foldl_union in H as [H|H]; [|by right].
    left. apply elem_of_union in H as [H|H]; [|done].
    by apply not_elem_of_empty in H.
  - intros (r & Hr & H). right. exists r. split; [done|].
    unfold FlagCache_glob_tree.
    apply (elem_of_foldl_union
             (fun k => dom (grab_use_desc pf
                              (os_path_join
                                 (os_path_join (os_path_join r "profiles")
                                    "desc")
                                 (lower k +:+ ".desc"))
                              (lower k +:+ "_")))).
    destruct H as [H|H]; [left | by right].
    apply elem_of_union. by right.
Qed.

(** ** The license groups *)

Lemma group_add_keys (k : string) (v : gset string)
  (g : list (string * gset string)) :
  map fst (group_add k v g)
  = if bool_decide (k ∈ map fst g) then map fst g else map fst g ++ [k].
Proof.
  induction g as [|[k' v'] g IH]; [done|]. simpl.
  destruct (String.eqb_spec k k') as [->|Hne]; simpl.
  - by rewrite bool_decide_eq_true_2 by constructor.
  - rewrite IH. destruct (bool_decide (k ∈ map fst g)) eqn:E.
    + apply bool_decide_eq_true_1 in E.
      by rewrite bool_decide_eq_true_2 by (by constructor).
    + apply bool_decide_eq_false_1 in E.
      rewrite bool_decide_eq_false_2; [done|].
      intros H. apply elem_of_cons in H as [?|?]; congruence.
Qed.

Lemma group_add_members (k : string) (v : gset string)
  (g : list (string * gset string)) (k' t : string) :
  in_group (group_add k v g) k' t <-> in_group g k' t \/ (k' = k /\ t ∈ v).
Proof.
  unfold in_group. induction g as [|[k0 v0] g IH]; simpl.
  - split.
    + intros (w & Hw & Ht). apply list_elem_of_singleton in Hw as [= -> ->].
      by right.
    + intros [(w & Hw & _)|[-> Ht]]; [by apply elem_of_nil in Hw|].
      exists v. split; [constructor | done].
  - destruct (String.eqb_spec k k0) as [->|Hne].
    + split.
      * intros (w & Hw & Ht). apply elem_of_cons in Hw as [[= -> ->]|Hw].
        -- apply elem_of_union in Ht as [Ht|Ht]; [|by right].
           left. exists v0. split; [constructor | done].
        -- left. exists w. split; [by constructor | done].
      * intros [(w & Hw & Ht)|[-> Ht]].
        -- apply elem_of_cons in Hw as [[= -> ->]|Hw].
           ++ exists (v0 ∪ v). split; [constructor|].
              apply elem_of_union. by left.
           ++ exists w. split; [by constructor | done].
        -- exists (v0 ∪ v). split; [constructor|].
           apply elem_of_union. by right.
    + split.
      * intros (w & Hw & Ht). apply elem_of_cons in Hw as [[= -> ->]|Hw].
        -- left. exists v0. split; [constructor | done].
        -- destruct (proj1 IH) as [(w' & Hw' & Ht')|H]; [by exists w| |by right].
           left. exists w'. split; [by constructor | done].
      * intros [(w & Hw & Ht)|H].
        -- apply elem_of_cons in Hw as [[= -> ->]|Hw].
           ++ exists v0. split; [constructor | done].
           ++ destruct (proj2 IH) as (w' & Hw' & Ht'); [left; by exists w|].
              exists w'. split; [by constructor | done].
        -- destruct (proj2 IH) as (w' & Hw' & Ht'); [by right|].
           exists w'. split; [by constructor | done].
Qed.

Lemma group_add_NoDup (k : string) (v : gset string)
  (g : list (string * gset string)) :
  NoDup (map fst g) -> NoDup (map fst (group_add k v g)).
Proof.
  intros H. rewrite group_add_keys.
  destruct (bool_decide (k ∈ map fst g)) eqn:E; [done|].
  apply bool_decide_eq_false_1 in E. apply NoDup_app. split; [done|].
  split; [|apply NoDup_singleton].
  intros x Hx Hk. apply list_elem_of_singleton in Hk as ->. done.
Qed.

Lemma group_add_at (k : string) (v : gset string)
  (g : list (string * gset string)) :
  Forall (fun kv => startswith "@" (fst kv) = true) g ->
  Forall (fun kv => startswith "@" (fst kv) = true)
         (group_add ("@" +:+ k) v g).
Proof.
  assert (Hat : startswith "@" ("@" +:+ k) = true).
  { rewrite append_cons, append_nil_l, startswith_char. done. }
  generalize dependent ("@" +:+ k). intros k0 Hat.
  induction 1 as [|[k' v'] g Hk Hg IH]; cbn [group_add].
  - constructor; [done | constructor].
  - destruct (String.eqb k0 k'); by constructor.
Qed.

Lemma LicenseCache_groups_spec (pf : Profiles) (db : Portage) :
  let groups := LicenseCache_groups pf db in
  NoDup (map fst groups) /\
  Forall (fun kv => startswith "@" (fst kv) = true) groups /\
  (forall k t,
     (exists v, (k, v) ∈ groups /\ t ∈ v) <->
     exists r k0 l,
       r ∈ porttrees db /\
       (k0, l) ∈ grabdict pf (os_path_join (os_path_join r "profiles")
                                "license_groups") /\
       k = "@" +:+ k0 /\ t ∈ l).
Proof.
  intros groups. subst groups. unfold LicenseCache_groups.
  set (file r := grabdict pf (os_path_join (os_path_join r "profiles")
                                "license_groups")).
  assert (Hin : forall (kvs : list (string * list string)) g P,
    groups_of P g ->
    groups_of (fun k t => P k t \/
                 exists k0 l, (k0, l) ∈ kvs /\ k = "@" +:+ k0 /\ t ∈ l)
      (foldl (fun g kv => group_add ("@" +:+ fst kv)
                            (list_to_set (snd kv)) g) g kvs)).
  { intros kvs. induction kvs as [|[k0 l] kvs IH]; intros g P (Hn & Ha & Hm).
    - simpl. split; [done|]. split; [done|]. intros k t. rewrite Hm.
      split; [by left|]. intros [H|(? & ? & H & _)]; [done|].
      by apply elem_of_nil in H.
    - simpl.
      destruct (IH (group_add ("@" +:+ k0) (list_to_set l) g)
                  (fun k t => P k t \/ (k = "@" +:+ k0 /\ t ∈ l)))
        as (Hn' & Ha' & Hm').
      { split; [by apply group_add_NoDup|]. split; [by apply group_add_at|].
        intros k t. rewrite group_add_members, Hm, elem_of_list_to_set.
        done. }
      split; [done|]. split; [done|]. intros k t. rewrite Hm'. split.
      + intros [[H|[-> H]]|(k1 & l1 & H1 & H2)]; [by left| |].
        * right. exists k0, l. split; [constructor | done].
        * right. exists k1, l1. split; [by constructor | done].
      + intros [H|(k1 & l1 & H1 & -> & H3)]; [by left; left|].
        apply elem_of_cons in H1 as [[= -> ->]|H1]; [by left; right|].
        right. by exists k1, l1. }
  assert (Hout : forall (trees : list string) g P,
    groups_of P g ->
    groups_of (fun k t => P k t \/
                 exists r k0 l, r ∈ trees /\ (k0, l) ∈ file r /\
                                k = "@" +:+ k0 /\ t ∈ l)
      (foldl (fun g r =>
                foldl (fun g kv => group_add ("@" +:+ fst kv)
                                     (list_to_set (snd kv)) g) g (file r))
             g trees)).
  { intros trees. induction trees as [|r trees IH]; intros g P (Hn & Ha & Hm).
    - simpl. split; [done|]. split; [done|]. intros k t. rewrite Hm.
      split; [by left|]. intros [H|(? & ? & ? & H & _)]; [done|].
      by apply elem_of_nil in H.
    - simpl. destruct (IH _ _ (Hin (file r) g P (conj Hn (conj Ha Hm))))
        as (Hn' & Ha' & Hm').
      split; [done|]. split; [done|]. intros k t. rewrite Hm'. split.
      + intros [[H|(k0 & l & H1 & H2)]|(r' & k0 & l & H1 & H2)]; [by left| |].
        * right. exists r, k0, l. split; [constructor | done].
        * right. exists r', k0, l. split; [by constructor | done].
      + intros [H|(r' & k0 & l & H1 & H2)]; [by left; left|].
        apply elem_of_cons in H1 as [->|H1].
        * left. right. by exists k0, l.
        * right. by exists r', k0, l. }
  destruct (Hout (porttrees db) [] (fun _ _ => False)) as (Hn & Ha & Hm).
  { split; [constructor|]. split; [constructor|]. intros k t.
    split; [|done]. intros (v & Hv & _). by apply elem_of_nil in Hv. }
  split; [done|]. split; [done|]. intros k t.
  etrans; [apply (Hm k t)|]. split; [|by right]. by intros [H|H].
Qed.

(** X22.  The groups dictionary of the license cache has distinct keys
    that all start with '@', and the members of the group '@' + name are
    the members that the license_groups file of some tree gives to name:
    the groups of the same name in different trees are merged. *)
Theorem license_groups_merge_the_trees (pf : Profiles) (db : Portage) :
  let groups := LicenseCache_groups pf db in
  NoDup (map fst groups) /\
  Forall (fun kv => startswith "@" (fst kv) = true) groups /\
  (forall k t,
     (exists v, (k, v) ∈ groups /\ t ∈ v) <->
     exists r k0 l,
       r ∈ porttrees db /\
       (k0, l) ∈ grabdict pf (os_path_join (os_path_join r "profiles")
                                "license_groups") /\
       k = "@" +:+ k0 /\ t ∈ l).
Proof. apply LicenseCache_groups_spec. Qed.

(** ** The license tokens *)

Lemma license_fold_spec (groups : list (string * gset string))
  (base : gset string) :
  let lic := foldl (fun lic kv =>
                      if decide (lic ∩ snd kv = ∅) then lic
                      else lic ∪ {[fst kv]}) base groups in
  base ⊆ lic /\
  (forall t, t ∈ lic -> t ∈ base \/ t ∈ map fst groups) /\
  (forall k v t, (k, v) ∈ groups -> t ∈ v -> t ∈ base -> k ∈ lic).
Proof.
  revert base. induction groups as [|[k0 v0] groups IH]; intros base; simpl.
  - split; [done|]. split; [by left|].
    intros k v t H. by apply elem_of_nil in H.
  - set (base' := if decide (base ∩ v0 = ∅) then base else base ∪ {[k0]}).
    destruct (IH base') as (Hsub & Hin & Hgr).
    assert (Hb : base ⊆ base').
    { subst base'. destruct (decide (base ∩ v0 = ∅)); [done|].
      apply union_subseteq_l. }
    split; [by etrans|]. split.
    + intros t Ht. destruct (Hin t Ht) as [H|H].
      * subst base'. destruct (decide (base ∩ v0 = ∅)); [by left|].
        apply elem_of_union in H as [H|H]; [by left|].
        apply elem_of_singleton in H as ->. right. constructor.
      * right. by constructor.
    + intros k v t Hk Hv Ht. apply elem_of_cons in Hk as [[= -> ->]|Hk].
      * apply Hsub. subst base'.
        destruct (decide (base ∩ v0 = ∅)) as [He|_].
        -- exfalso. assert (H : t ∈ base ∩ v0) by (by apply elem_of_intersection).
           rewrite He in H. by apply elem_of_empty in H.
        -- apply elem_of_union. right. by apply elem_of_singleton.
      * eapply Hgr; [done | done |]. by apply Hb.
Qed.

Lemma at_not_bars (k : string) : startswith "@" k = true -> k <> "||".
Proof. by intros H ->. Qed.

(** X23.  The tokens LicenseCache._aux_parse returns never include '||';
    each of them is a token of the reduced LICENSE expression or the name
    of a group; every token of the reduced expression other than '||' is
    returned; and every group that has such a token among its members is
    returned. *)
Theorem license_tokens (pf : Profiles) (db : Portage) (arg : string) :
  let groups := LicenseCache_groups pf db in
  let lic := LicenseCache_aux_parse pf groups arg in
  ("||" ∉ lic) /\
  (forall t, t ∈ lic -> t ∈ use_reduce pf arg \/ t ∈ map fst groups) /\
  (forall t, t ∈ use_reduce pf arg -> t <> "||" -> t ∈ lic) /\
  (forall k v t, (k, v) ∈ groups -> t ∈ v ->
                 t ∈ use_reduce pf arg -> t <> "||" -> k ∈ lic).
Proof.
  intros groups lic. subst lic. unfold LicenseCache_aux_parse, license_set.
  destruct (license_fold_spec groups
              (list_to_set (use_reduce pf arg) ∖ {["||"]}))
    as (Hsub & Hin & Hgr).
  assert (Hbase : forall t, t ∈ use_reduce pf arg -> t <> "||" ->
            t ∈ (list_to_set (use_reduce pf arg) ∖ {["||"]} : gset string)).
  { intros t Ht Hne. apply elem_of_difference. split.
    - by apply elem_of_list_to_set.
    - by intros ?%elem_of_singleton. }
  destruct (LicenseCache_groups_spec pf db) as (_ & Hat & _).
  fold groups in Hat.
  split; [|split; [|split]].
  - intros H%elem_of_elements. destruct (Hin _ H) as [Hb|Hg].
    + apply elem_of_difference in Hb as [_ Hb]. apply Hb.
      by apply elem_of_singleton.
    + apply list_elem_of_fmap in Hg as ([k v] & Hk & Hkv). simpl in Hk.
      rewrite Forall_forall in Hat. apply Hat in Hkv. simpl in Hkv.
      subst k. by apply at_not_bars in Hkv.
  - intros t H%elem_of_elements. destruct (Hin _ H) as [Hb|Hg]; [|by right].
    left. apply elem_of_difference in Hb as [Hb _].
    by apply elem_of_list_to_set in Hb.
  - intros t Ht Hne. apply elem_of_elements, Hsub. by apply Hbase.
  - intros k v t Hk Hv Ht Hne. apply elem_of_elements.
    eapply Hgr; [done | done |]. by apply Hbase.
Qed.

Lemma license_scan_fold (pf : Profiles) (names : list string)
  (trees : list string) (acc : gset string) (t : string) :
  t ∈ foldl (fun lic r =>
               (match listdir pf (os_path_join r "licenses") with
                | Some names => lic ∪ list_to_set names
                | None => lic
                end) ∪ list_to_set names) acc trees
  <-> t ∈ acc \/
      exists r, r ∈ trees /\
        ((exists l, listdir pf (os_path_join r "licenses") = Some l /\ t ∈ l)
         \/ t ∈ names).
Proof.
  revert acc. induction trees as [|r trees IH]; intros acc; simpl.
  - split; [by left|]. intros [H|(r & H & _)]; [done|].
    by apply elem_of_nil in H.
  - rewrite IH. rewrite elem_of_union, elem_of_list_to_set. split.
    + intros [[H|H]|(r' & Hr & H)].
      * destruct (listdir pf (os_path_join r "licenses")) as [l|] eqn:E;
          [|by left].
        apply elem_of_union in H as [H|H]; [by left|].
        apply elem_of_list_to_set in H. right. exists r.
        split; [constructor|]. left. by exists l.
      * right. exists r. split; [constructor | by right].
      * right. exists r'. split; [by constructor | done].
    + intros [H|(r' & Hr & H)].
      * left. left.
        destruct (listdir pf (os_path_join r "licenses")); [|done].
        apply elem_of_union. by left.
      * apply elem_of_cons in Hr as [->|Hr]; [|right; by exists r'].
        left. destruct H as [(l & -> & H)|H]; [|by right].
        left. apply elem_of_union. right. by apply elem_of_list_to_set.
Qed.

(** X24.  The global set of the license cache holds exactly the names
    other than 'CVS' that are an entry of the licenses directory of some
    tree or, there being at least one tree, the name of a license group; a
    tree whose licenses directory cannot be listed adds no entry. *)
Theorem license_vocabulary (pf : Profiles) (db : Portage) (t : string) :
  t ∈ LicenseCache_glob_scan pf (LicenseCache_groups pf db) db
  <-> t <> "CVS" /\
      exists r, r ∈ porttrees db /\
        ((exists l, listdir pf (os_path_join r "licenses") = Some l /\ t ∈ l)
         \/ t ∈ map fst (LicenseCache_groups pf db)).
Proof.
  unfold LicenseCache_glob_scan.
  rewrite elem_of_difference, elem_of_singleton, license_scan_fold.
  split.
  - intros [[H|H] Hne]; [by apply elem_of_empty in H | done].
  - intros [Hne H]. split; [by right | done].
Qed.

(** ** The registry of the four caches *)

Lemma classify_spec (look : string -> Caches -> gset string * Caches)
  (arg : string) (restrict : gset string) (self : Caches) :
  (forall k k' c, k <> k' ->
     fst (look k (snd (look k' c))) = fst (look k c) /\
     Caches_getitem k (snd (look k' c)) = Caches_getitem k c) ->
  (forall k, k ∈ fst (classify look arg restrict self)
             <-> k ∈ namespaces /\ k ∈ restrict /\ arg ∈ fst (look k self)) /\
  (forall k, k ∉ restrict ->
             Caches_getitem k (snd (classify look arg restrict self))
             = Caches_getitem k self).
Proof.
  intros Hlook. unfold classify.
  assert (Hnd : NoDup namespaces).
  { apply (bool_decide_unpack _). by vm_compute. }
  revert Hnd. generalize namespaces. intros ks.
  set (step := fun (acc : gset string * Caches) k =>
           let '(ret, c) := acc in
           if decide (k ∈ restrict) then
             let '(v, c') := look k c in
             (if decide (arg ∈ v) then ret ∪ {[k]} else ret, c')
           else (ret, c)).
  assert (H : forall ks ret c,
    NoDup ks ->
    (forall k, k ∈ ks -> fst (look k c) = fst (look k self)) ->
    (forall k, k ∉ restrict -> Caches_getitem k c = Caches_getitem k self) ->
    (forall k, k ∈ fst (foldl step (ret, c) ks)
               <-> k ∈ ret \/
                   (k ∈ ks /\ k ∈ restrict /\ arg ∈ fst (look k self))) /\
    (forall k, k ∉ restrict ->
               Caches_getitem k (snd (foldl step (ret, c) ks))
               = Caches_getitem k self)).
  { clear ks. induction ks as [|k0 ks IH]; intros ret c Hnd Hc Hg.
    - simpl. split; [|done]. intros k. split; [by left|].
      intros [H|(H & _)]; [done|]. by apply elem_of_nil in H.
    - apply NoDup_cons in Hnd as [Hk0 Hnd]. simpl foldl.
      destruct (decide (k0 ∈ restrict)) as [Hr|Hr].
      + destruct (look k0 c) as [v c'] eqn:E.
        assert (Hv : v = fst (look k0 self)).
        { rewrite <- Hc by constructor. by rewrite E. }
        destruct (IH (if decide (arg ∈ v) then ret ∪ {[k0]} else ret) c' Hnd)
          as [IH1 IH2].
        { intros k Hk. assert (Hne : k <> k0) by (by intros ->).
          destruct (Hlook k k0 c Hne) as [H1 _]. rewrite E in H1.
          simpl in H1. rewrite H1. apply Hc. by constructor. }
        { intros k Hk. assert (Hne : k <> k0) by (by intros ->).
          destruct (Hlook k k0 c Hne) as [_ H2]. rewrite E in H2.
          simpl in H2. rewrite H2. by apply Hg. }
        split; [|done]. intros k. rewrite IH1. split.
        * intros [H|(H1 & H2 & H3)].
          -- destruct (decide (arg ∈ v)) as [Ha|Ha]; [|by left].
             apply elem_of_union in H as [H|H]; [by left|].
             apply elem_of_singleton in H as ->. right.
             split; [constructor|]. split; [done|]. by rewrite <- Hv.
          -- right. split; [by constructor | done].
        * intros [H|(H1 & H2 & H3)].
          -- left. destruct (decide (arg ∈ v)); [|done].
             apply elem_of_union. by left.
          -- apply elem_of_cons in H1 as [->|H1]; [|by right].
             left. rewrite <- Hv in H3. rewrite decide_True by done.
             apply elem_of_union. right. by apply elem_of_singleton.
      + destruct (IH ret c Hnd) as [IH1 IH2]; [|done|].
        { intros k Hk. apply Hc. by constructor. }
        split; [|done]. intros k. rewrite IH1. split.
        * intros [H|(H1 & H2 & H3)]; [by left|].
          right. split; [by constructor | done].
        * intros [H|(H1 & H2 & H3)]; [by left|].
          apply elem_of_cons in H1 as [->|H1]; [done | by right]. }
  intros Hnd. destruct (H ks ∅ self Hnd) as [H1 H2]; [done|done|].
  split; [|done]. intros k. rewrite H1. split.
  - intros [H0|H0]; [by apply elem_of_empty in H0 | done].
  - by right.
Qed.

Ltac namespace_cases k :=
  destruct (String.eqb_spec k "use") as [->|?];
  [|destruct (String.eqb_spec k "kw") as [->|?];
    [|destruct (String.eqb_spec k "lic") as [->|?]]].

Lemma glob_of_apart (cs : Classes) (db : Portage) (k k' : string)
  (c : Caches) :
  k <> k' ->
  fst (glob_of cs db k (snd (glob_of cs db k' c))) = fst (glob_of cs db k c) /\
  Caches_getitem k (snd (glob_of cs db k' c)) = Caches_getitem k c.
Proof.
  intros Hne. unfold glob_of, Caches_getitem.
  namespace_cases k'; namespace_cases k; try done;
    repeat match goal with
           | |- context [glob ?a db (?f c)] =>
               destruct (glob a db (f c)) eqn:?; simpl
           end; try done;
    repeat match goal with
           | |- context [String.eqb ?a ?b] =>
               destruct (String.eqb_spec a b); try done
           end.
Qed.

Lemma possible_of_apart (cs : Classes) (db : Portage) (pkg k k' : string)
  (c : Caches) :
  k <> k' ->
  fst (possible_of cs db k pkg (snd (possible_of cs db k' pkg c)))
  = fst (possible_of cs db k pkg c) /\
  Caches_getitem k (snd (possible_of cs db k' pkg c)) = Caches_getitem k c.
Proof.
  intros Hne. unfold possible_of, Caches_getitem.
  namespace_cases k'; namespace_cases k; try done;
    repeat match goal with
           | |- context [getitem ?a db pkg (?f c)] =>
               destruct (getitem a db pkg (f c)) eqn:?; simpl
           end; try done;
    repeat match goal with
           | |- context [String.eqb ?a ?b] =>
               destruct (String.eqb_spec a b); try done
           end.
Qed.

Lemma whatis_spec (cs : Classes) (db : Portage) (arg pkg : string)
  (restrict : gset string) (self : Caches) (k : string) :
  k ∈ fst (whatis cs db arg pkg restrict self)
  <-> k ∈ namespaces /\ k ∈ restriction restrict /\
      arg ∈ fst (possible_of cs db k pkg self).
Proof.
  unfold whatis.
  apply (classify_spec (fun k => possible_of cs db k pkg)).
  intros. by apply possible_of_apart.
Qed.

(** X25.  Caches.whatis returns the namespaces among use, kw, lic and env
    that are in restrict (all four when restrict is empty or absent) and
    whose cache holds the token in its possible set for the package
    expression, the set being the one the cache gives before the call. *)
Theorem whatis_names_the_namespaces_that_hold_the_token
  (cs : Classes) (db : Portage) (arg pkg : string)
  (restrict : gset string) (self : Caches) (k : string) :
  k ∈ fst (whatis cs db arg pkg restrict self)
  <-> k ∈ namespaces /\ k ∈ restriction restrict /\
      arg ∈ fst (possible_of cs db k pkg self).
Proof. apply whatis_spec. Qed.

(** X26.  Caches.glob_whatis returns the namespaces among use, kw and lic
    that are in restrict (all when restrict is empty or absent) and whose
    global set holds the token; it never returns env, whose global set is
    empty. *)
Theorem glob_whatis_never_names_env
  (cs : Classes) (db : Portage) (arg : string)
  (restrict : gset string) (self : Caches) (k : string) :
  k ∈ fst (glob_whatis cs db arg restrict self)
  <-> k ∈ ["use"; "kw"; "lic"] /\ k ∈ restriction restrict /\
      arg ∈ fst (glob_of cs db k self).
Proof.
  unfold glob_whatis.
  destruct (classify_spec (glob_of cs db) arg (restriction restrict) self)
    as [H _]; [intros; by apply glob_of_apart|].
  rewrite H. unfold namespaces. split.
  - intros (Hk & Hr & Ha). split; [|done].
    rewrite !elem_of_cons in Hk. rewrite !elem_of_cons.
    destruct Hk as [->|[->|[->|[->|Hk]]]];
      [by left | by right; left | by right; right; left | |
       by apply elem_of_nil in Hk].
    exfalso. unfold glob_of, EnvCache_glob in Ha. simpl in Ha.
    by apply elem_of_empty in Ha.
  - intros (Hk & Hr & Ha). split; [|done].
    rewrite !elem_of_cons in Hk. rewrite !elem_of_cons.
    destruct Hk as [->|[->|[->|Hk]]];
      [by left | by right; left | by right; right; left |
       by apply elem_of_nil in Hk].
Qed.

(** X27.  Caches.whatis and Caches.glob_whatis leave the cache of every
    namespace outside restrict as it was: such a cache is not queried and
    memoizes nothing. *)
Theorem whatis_asks_the_restricted_caches_only
  (cs : Classes) (db : Portage) (arg pkg : string)
  (restrict : gset string) (self : Caches) (k : string) :
  k ∉ restriction restrict ->
  Caches_getitem k (snd (whatis cs db arg pkg restrict self))
  = Caches_getitem k self /\
  Caches_getitem k (snd (glob_whatis cs db arg restrict self))
  = Caches_getitem k self.
Proof.
  intros Hk. split.
  - unfold whatis.
    apply (classify_spec (fun k => possible_of cs db k pkg)); [|done].
    intros. by apply possible_of_apart.
  - unfold glob_whatis. apply (classify_spec (glob_of cs db)); [|done].
    intros. by apply glob_of_apart.
Qed.

(** X28.  Every namespace Caches.whatis returns is one that
    Caches.describe gives a label for, without AssertionError, and one
    that Caches.__getitem__ has a cache for. *)
Theorem whatis_results_can_be_described
  (cs : Classes) (db : Portage) (arg pkg : string)
  (restrict : gset string) (self : Caches) (k : string) :
  k ∈ fst (whatis cs db arg pkg restrict self) ->
  is_Some (describe k) /\ is_Some (Caches_getitem k self).
Proof.
  intros (Hk & _)%whatis_spec. unfold namespaces in Hk.
  rewrite !elem_of_cons in Hk.
  destruct Hk as [->|[->|[->|[->|Hk]]]]; [by split ..|].
  by apply elem_of_nil in Hk.
Qed.

Lemma whatis_asks_the_restricted_caches_only_witness :
  let self := Caches_init {| env_cache := {["gcc.conf"]} |} in
  let cs := Classes_of example_profiles example_db in
  Caches_getitem "use" (snd (whatis cs example_db "amd64" "dev-libs/foo"
                               {["kw"]} self))
  = Caches_getitem "use" self /\
  Caches_getitem "use" (snd (glob_whatis cs example_db "amd64" {["kw"]} self))
  = Caches_getitem "use" self.
Proof.
  apply (whatis_asks_the_restricted_caches_only
           (Classes_of example_profiles example_db) example_db "amd64"
           "dev-libs/foo" {["kw"]}
           (Caches_init {| env_cache := {["gcc.conf"]} |}) "use").
  apply (bool_decide_unpack _). vm_compute. exact I.
Defined.

Lemma whatis_results_can_be_described_witness :
  let self := Caches_init {| env_cache := {["gcc.conf"]} |} in
  let cs := Classes_of example_profiles example_db in
  "use" ∈ fst (whatis cs example_db "bar" "dev-libs/foo" ∅ self) /\
  is_Some (describe "use") /\ is_Some (Caches_getitem "use" self).
Proof.
  assert (H : "use" ∈ fst (whatis (Classes_of example_profiles example_db)
                             example_db "bar" "dev-libs/foo" ∅
                             (Caches_init {| env_cache := {["gcc.conf"]} |}))).
  { apply (bool_decide_unpack _). vm_compute. exact I. }
  split; [exact H|].
  exact (whatis_results_can_be_described _ _ _ _ _ _ _ H).
Defined.

(** ** The possible sets of the four namespaces *)

(** C6.  For each of the three caches that are subclasses of DBAPICache
    (flags, keywords, licenses), queried against one catalog, the set
    __getitem__ returns for a package expression is the union, over every
    version that matches it, of the tokens _aux_parse makes of the
    attribute of that version, whatever get_effective returns, which is
    the tokens of the best matching version alone and the empty set when
    no version matches. The fourth namespace cache, EnvCache, asks no
    catalog: its set for every package expression is its whole set of
    files, and asking for it changes nothing. *)
Theorem possible_is_union_over_matches_but_for_env :
  (forall (cls : CacheClass) (db : Portage) (qs : list query) (k : string),
     let self := run cls (history db qs) DBAPICache_init in
     (forall t, t ∈ fst (getitem cls db k self) <->
                exists p, p ∈ xmatch_all db k /\
                          t ∈ _aux_parse cls (aux_get db p (aux_key cls))) /\
     fst (get_effective cls db k self)
     = match xmatch_all db k with
       | _ :: _ =>
           list_to_set
             (_aux_parse cls
                (aux_get db (best db (xmatch_all db k)) (aux_key cls)))
       | [] => ∅
       end) /\
  (forall (cs : Classes) (db : Portage) (pkg : string) (self : Caches),
     fst (possible_of cs db "env" pkg self) = env_cache (env self) /\
     snd (possible_of cs db "env" pkg self) = self).
Proof.
  split.
  - intros cls db qs k. apply getitem_union_of_matches.
  - intros cs db pkg self. split; reflexivity.
Qed.

(** C6 as stated fails for the fourth namespace cache.  No version of the
    catalog of the example matches [dev-libs/none], so that the union
    over the matching versions is empty, and the possible set of the
    flag cache is; the possible set of [EnvCache] for that package
    expression holds the file of the cache. *)
Lemma env_possible_is_no_union_counterexample :
  let self := Caches_init {| env_cache := {["gcc.conf"]} |} in
  let cs := Classes_of example_profiles example_db in
  xmatch_all example_db "dev-libs/none" = [] /\
  fst (possible_of cs example_db "use" "dev-libs/none" self) = ∅ /\
  "gcc.conf" ∈ fst (possible_of cs example_db "env" "dev-libs/none" self).
Proof.
  split; [reflexivity|]. split; [reflexivity|].
  apply (bool_decide_unpack _). vm_compute. exact I.
Qed.
